(** * Warren loader: the fractal-tree content loader, embedded in Rocq

    Sources embedded here:
    - [src/loader/loader.js]        (generic loader: discovery, batch load,
                                     retry rounds, assembly)
    - [src/loader/video-loader.js]  (streaming variant: segment header,
                                     segment release, direct-playback path)
    - [src/extension/lib/site-loader.js]  (the loader of the extension)
    - [deploy-nft.js]               ([chunkBuffer], the chunker, and the tree
                                     builder)

    The remote reader (viem's [client.readContract]) and the media source of
    the page are interfaces of the development: every function is written
    against an arbitrary reader and an arbitrary media source, and a small
    simulated chain at the end of the definitions gives concrete runs.

    All [async] functions are rendered in one monad: the state is the remote
    world, together with the variables of the page where a function writes
    them; the output is the chronological list of observable events (RPC
    calls, awaited delays, log lines, consumer calls); and a computation
    either returns a value or throws. *)

From Stdlib Require Import ZArith Lia Sorted.
From Stdlib.Strings Require Import Byte.
From stdpp Require Import base list strings gmap.

Set Default Proof Using "Type".

(** ** Data *)

Abbreviation bytes := (list byte).

(** An address is the hex string of 20 bytes in the source ([toHex] of a
    20-byte slice); it is modelled by the bytes the string denotes. *)
Definition Address : Type := bytes.

(** [Uint8Array.prototype.slice(start, end)] for non-negative bounds. *)
Definition slice {A : Type} (s e : nat) (l : list A) : list A :=
  take (e - s) (drop s l).

(** The same for integer bounds: a negative bound counts from the end of
    the array, and both bounds are clamped to it. *)
Definition sliceZ {A : Type} (s e : Z) (l : list A) : list A :=
  let len := Z.of_nat (length l) in
  let clamp := fun x : Z => if (x <? 0)%Z then Z.max (len + x) 0 else Z.min x len in
  take (Z.to_nat (clamp e - clamp s)) (drop (Z.to_nat (clamp s)) l).

(** One entry of the value returned by Multicall3's [aggregate3]. *)
Inductive ReturnData :=
| Empty0x
| Undecodable
| Encoded (payload : bytes).

Record Slot := { slotSuccess : bool; returnData : ReturnData }.

(** [{ success, data }] / [{ success: false, error }]: [data] is [undefined]
    in the second shape, whence the option.  The error text only feeds log
    lines and is left out. *)
Record FetchResult := { success : bool; data : option bytes }.

Record Leaf := { index : nat; address : Address }.

Record Chunk := { chunkIndex : nat; chunkData : bytes }.

(** The log lines the properties speak of.  [LogChunkFailed n] is the line
    of a result without data: [Chunk #n: ...] in loader.js, [Failed chunk
    n: ...] in video-loader.js, where [n] is the index of the leaf plus
    one.  [LogAppendFailed] is [Segment append error] or [Final segment
    error].  Lines that only report progress are left out. *)
Inductive LogMsg :=
| LogTraverseFailed (a : Address)
| LogRetryRound (round count : nat)
| LogPermanentlyFailed (count : nat)
| LogBatchFailed (batchStart : nat)
| LogChunkFailed (chunkNumber : nat)
| LogAppendFailed
| LogError.

Inductive Event :=
| EvRead (a : Address)
| EvAggregate (addresses : list Address)
| EvSleep (ms : Z)
| EvLog (msg : LogMsg)
| EvChunk (i : nat)
| EvAppend (segmentIndex : nat) (segData : bytes)
| EvEndOfStream
| EvBlob (videoData : bytes).

Inductive JsError := RpcError | TypeError | MediaSourceError | DOMException.

Inductive Outcome (A : Type) :=
| Ok (a : A)
| Throw (e : JsError).
Arguments Ok {A} a.
Arguments Throw {A} e.

(** ** The remote reader

    [readContract] is [client.readContract({address, abi: pageAbi,
    functionName: 'read'})] followed by [hexToBytes]; [None] is a rejected
    promise.  [aggregate3] is the Multicall3 call; [None] is a failure of the
    call as a whole. *)
Class RemoteReader (World : Type) := {
  readContract : Address -> World -> option bytes * World;
  aggregate3 : list Address -> World -> option (list Slot) * World
}.

(** ** The media source of the page

    [appendBuffer d] is [await appendSegment(d)], once the source buffer has
    stopped updating: [false] is a rejected promise, the exception of
    [sourceBuffer.appendBuffer]; a promise that never settles is outside the
    model.  [readyStateOpen] is [mediaSource.readyState === 'open'].  What
    the page shows beside the video (phase and status texts, counters,
    [startPlayback]) is left out. *)
Class MediaPlayer (World : Type) := {
  appendBuffer : bytes -> World -> bool * World;
  readyStateOpen : World -> bool
}.

(** ** The monad of the loader *)

Definition M (World A : Type) : Type := World -> Outcome A * World * list Event.

Definition ret {W A} (a : A) : M W A := fun w => (Ok a, w, []).

Definition throw {W A} (e : JsError) : M W A := fun w => (Throw e, w, []).

Definition bind {W A B} (m : M W A) (f : A -> M W B) : M W B :=
  fun w =>
    match m w with
    | (Ok a, w1, t1) =>
        match f a w1 with
        | (r, w2, t2) => (r, w2, t1 ++ t2)
        end
    | (Throw e, w1, t1) => (Throw e, w1, t1)
    end.

Definition try_catch {W A} (m : M W A) (h : JsError -> M W A) : M W A :=
  fun w =>
    match m w with
    | (Ok a, w1, t1) => (Ok a, w1, t1)
    | (Throw e, w1, t1) =>
        match h e w1 with
        | (r, w2, t2) => (r, w2, t1 ++ t2)
        end
    end.

Definition emit {W} (e : Event) : M W unit := fun w => (Ok tt, w, [e]).

(** [await new Promise(r => setTimeout(r, ms))] *)
Definition sleep {W} (ms : Z) : M W unit := emit (EvSleep ms).

Definition log {W} (m : LogMsg) : M W unit := emit (EvLog m).

Notation "'let!' x ':=' m 'in' k" := (bind m (fun x => k))
  (at level 10, x name, m at level 100, k at level 200).
Notation "m ';;' k" := (bind m (fun _ => k))
  (at level 100, k at level 200, right associativity).

(** Code that reads and writes variables of the page runs over the pair of
    these variables and the world, so that a [catch] block finds them as the
    [try] block left them. *)
Definition inWorld {S W A} (m : M W A) : M (S * W) A :=
  fun sw => match m sw.2 with (r, w', t) => (r, (sw.1, w'), t) end.

Definition vars {S W} : M (S * W) S := fun sw => (Ok sw.1, sw, []).

Definition update {S W} (f : S -> S) : M (S * W) unit :=
  fun sw => (Ok tt, (f sw.1, sw.2), []).

(** Runs [m] from the variables [s]. *)
Definition withVars {S W A} (s : S) (m : M (S * W) A) : M W A :=
  fun w => match m (s, w) with (r, sw', t) => (r, sw'.2, t) end.

Definition outcome {W A} (r : Outcome A * W * list Event) : Outcome A := r.1.1.
Definition world_of {W A} (r : Outcome A * W * list Event) : W := r.1.2.
Definition events {W A} (r : Outcome A * W * list Event) : list Event := r.2.

Definition is_ok {A} (o : Outcome A) : bool :=
  match o with Ok _ => true | Throw _ => false end.

(** ** Network functions shared by the loaders

    [fetchChunkData] differs between the loaders only in its backoff
    constants: [200 * 2^i] capped at 2000 in loader.js, [300 * 2^i] capped at
    3000 in video-loader.js.  [fetchChunksIndividually] and
    [fetchChunksBatch] are the same text in both files. *)
Module Net.
Section Network.
Context {World : Type} `{RR : RemoteReader World}.
Variable USE_MULTICALL : bool.
Variables backoffBase backoffCap : Z.

Definition rpcRead (a : Address) : M World bytes :=
  fun w =>
    match readContract a w with
    | (Some d, w') => (Ok d, w', [EvRead a])
    | (None, w') => (Throw RpcError, w', [EvRead a])
    end.

Definition rpcAggregate (addresses : list Address) : M World (list Slot) :=
  fun w =>
    match aggregate3 addresses w with
    | (Some rs, w') => (Ok rs, w', [EvAggregate addresses])
    | (None, w') => (Throw RpcError, w', [EvAggregate addresses])
    end.

(** [for (let i = 0; i < retries; i++) { try { return read } catch (err)
    { if (i === retries - 1) throw err; sleep(min(base * 2^i, cap)) } }].
    [remaining] is [retries - i]; when the loop runs out the JavaScript
    function returns [undefined], here [None]. *)
Fixpoint fetchChunkDataFrom (remaining i retries : nat) (a : Address)
  : M World (option bytes) :=
  match remaining with
  | O => ret None
  | S remaining' =>
      try_catch
        (let! d := rpcRead a in ret (Some d))
        (fun err =>
           if i =? retries - 1 then throw err
           else
             sleep (Z.min (backoffBase * 2 ^ Z.of_nat i) backoffCap) ;;
             fetchChunkDataFrom remaining' (S i) retries a)
  end.

Definition fetchChunkData (a : Address) (retries : nat) : M World (option bytes) :=
  fetchChunkDataFrom retries 0 retries a.

Fixpoint fetchChunksIndividually (addresses : list Address) (retries : nat)
  : M World (list FetchResult) :=
  match addresses with
  | [] => ret []
  | addr :: rest =>
      let! r := try_catch
                  (let! d := fetchChunkData addr retries in
                   ret {| success := true; data := d |})
                  (fun _ => ret {| success := false; data := None |}) in
      let! rs := fetchChunksIndividually rest retries in
      ret (r :: rs)
  end.

(** The callback of [results.map] in [fetchChunksBatch]. *)
Definition parseSlot (s : Slot) : FetchResult :=
  if slotSuccess s then
    match returnData s with
    | Empty0x => {| success := false; data := None |}
    | Undecodable => {| success := false; data := None |}
    | Encoded d => {| success := true; data := Some d |}
    end
  else {| success := false; data := None |}.

Fixpoint multicallFrom (remaining i retries : nat) (addresses : list Address)
  : M World (option (list FetchResult)) :=
  match remaining with
  | O => ret None
  | S remaining' =>
      try_catch
        (let! results := rpcAggregate addresses in
         ret (Some (map parseSlot results)))
        (fun _ =>
           if i =? retries - 1 then
             let! rs := fetchChunksIndividually addresses retries in
             ret (Some rs)
           else
             sleep (Z.min (300 * 2 ^ Z.of_nat i) 3000) ;;
             multicallFrom remaining' (S i) retries addresses)
  end.

Definition fetchChunksBatch (addresses : list Address) (retries : nat)
  : M World (option (list FetchResult)) :=
  if negb USE_MULTICALL || (length addresses =? 0) then
    let! rs := fetchChunksIndividually addresses retries in ret (Some rs)
  else multicallFrom retries 0 retries addresses.

(** [for (let i = 0; i < data.length; i += 20)
      childAddrs.push(toHex(data.slice(i, i + 20)))] *)
Definition childAddrs (d : bytes) : list Address :=
  map (fun k => slice (20 * k) (20 * k + 20) d) (seq 0 ((length d + 19) / 20)).

End Network.
End Net.

(** Sequential [for (const x of xs) await f(x)] threading a local state. *)
Fixpoint foldM {W A S} (f : A -> S -> M W S) (l : list A) (s : S) : M W S :=
  match l with
  | [] => ret s
  | x :: l' => let! s' := f x s in foldM f l' s'
  end.

(** [dst.set(src, offset)] on a [Uint8Array] (in range). *)
Definition Uint8Array_set (dst src : bytes) (offset : nat) : bytes :=
  take offset dst ++ src ++ drop (offset + length src) dst.

(** [const out = new Uint8Array(total); let offset = 0;
     for (const part of parts) { out.set(part, offset); offset += part.length }] *)
Definition concatBuffers (parts : list bytes) : bytes :=
  let total := foldl (fun sum c => sum + length c) 0 parts in
  (foldl (fun st c => (Uint8Array_set st.1 c st.2, st.2 + length c))
         (replicate total x00, 0) parts).1.

(** [Math.ceil(a / b)] on non-negative integers, [b > 0]. *)
Definition ceilDiv (a b : nat) : nat := (a + b - 1) / b.

(** ** loader.js *)
Module Loader.
Section Loader.
Context {World : Type} `{RR : RemoteReader World}.
Variable USE_MULTICALL : bool.
Variable BATCH_SIZE : nat.

Abbreviation fetchChunkData := (Net.fetchChunkData 200 2000).
Abbreviation fetchChunksBatch := (Net.fetchChunksBatch USE_MULTICALL 200 2000).

(** *** Phase 1: collect all leaf addresses *)

(** The closure variables [leaves] and [currentIndex]. *)
Record Scan := { leaves : list Leaf; currentIndex : nat }.

(** [nodeDepth] is [Number(depth)] of a [uint8].  The progress calls
    ([updateChunkScanned], [setPhase]) only touch the page and are left
    out. *)
Fixpoint traverseNode (nodeDepth : nat) (a : Address) (sc : Scan) : M World Scan :=
  match nodeDepth with
  | O =>
      ret {| leaves := leaves sc ++ [{| index := currentIndex sc; address := a |}];
             currentIndex := S (currentIndex sc) |}
  | S d =>
      try_catch
        (let! got := fetchChunkData a 3 in
         match got with
         | None => throw TypeError
         | Some payload => foldM (traverseNode d) (Net.childAddrs payload) sc
         end)
        (fun err => log (LogTraverseFailed a) ;; throw err)
  end.

Definition collectLeafAddresses (rootChunk : Address) (depth : nat)
  : M World (list Leaf) :=
  let! sc := traverseNode depth rootChunk {| leaves := []; currentIndex := 0 |} in
  ret (leaves sc).

(** *** Phase 2: batch loading *)

(** The arrays [chunks] and [failed] of [loadChunksInBatches].  An entry of
    [failed] is a leaf or [undefined] ([None]). *)
Record Loaded := { chunks : list Chunk; failed : list (option Leaf) }.

(** [results.forEach((result, idx) => { const leaf = batch[idx]; ... })].
    The arrays are mutated in place, so what was pushed before an exception
    stays pushed: the fold returns the arrays together with the exception,
    if any.  [batch[idx]] is [undefined] only when the reader returns more
    slots than calls, which Multicall3 never does: then [leaf.index]
    raises, in the second branch after [failed.push(leaf)].  The log line
    of the second branch gives the number [leaf.index + 1]; its error text
    is left out. *)
Fixpoint processResults (batch : list Leaf) (results : list FetchResult)
    (idx : nat) (acc : Loaded) : M World (Loaded * option JsError) :=
  match results with
  | [] => ret (acc, None)
  | result :: rest =>
      let leaf := batch !! idx in
      match success result, data result with
      | true, Some d =>
          match leaf with
          | None => ret (acc, Some TypeError)
          | Some lf =>
              processResults batch rest (S idx)
                {| chunks := chunks acc ++ [{| chunkIndex := index lf; chunkData := d |}];
                   failed := failed acc |}
          end
      | _, _ =>
          let acc' := {| chunks := chunks acc; failed := failed acc ++ [leaf] |} in
          match leaf with
          | None => ret (acc', Some TypeError)
          | Some lf =>
              log (LogChunkFailed (index lf + 1)) ;;
              processResults batch rest (S idx) acc'
          end
      end
  end.

(** The [catch] clause of the batch: every leaf of the batch is pushed to
    [failed]. *)
Definition batchFailed (i : nat) (batch : list Leaf) (acc : Loaded) : M World Loaded :=
  log (LogBatchFailed i) ;;
  ret {| chunks := chunks acc; failed := failed acc ++ map Some batch |}.

(** [for (let i = 0; i < leaves.length; i += BATCH_SIZE)], with [fuel]
    bounding the number of iterations. *)
Fixpoint loadFrom (fuel i : nat) (lvs : list Leaf) (acc : Loaded) : M World Loaded :=
  match fuel with
  | O => ret acc
  | S fuel' =>
      if i <? length lvs then
        let batch := slice i (Nat.min (i + BATCH_SIZE) (length lvs)) lvs in
        let batchAddresses := map address batch in
        let! acc1 :=
          try_catch
            (let! results := fetchChunksBatch batchAddresses 2 in
             match results with
             | None => throw TypeError
             | Some rs =>
                 let! r := processResults batch rs 0 acc in
                 match r with
                 | (acc', None) => ret acc'
                 | (acc', Some _) => batchFailed i batch acc'
                 end
             end)
            (fun _ => batchFailed i batch acc) in
        (if i + BATCH_SIZE <? length lvs then sleep 100 else ret tt) ;;
        loadFrom fuel' (i + BATCH_SIZE) lvs acc1
      else ret acc
  end.

Definition loadChunksInBatches (lvs : list Leaf) : M World Loaded :=
  loadFrom (length lvs) 0 lvs {| chunks := []; failed := [] |}.

(** *** Phase 3: retry failed chunks *)

(** One round: [for (const leaf of toRetry) { ... }].  On an [undefined]
    entry [updateChunkRetrying(leaf.index)] raises, outside the [try].
    With [retries = 3] [fetchChunkData] never yields [undefined]. *)
Fixpoint retryPass (toRetry : list (option Leaf)) (cs : list Chunk)
    (stillFailed : list (option Leaf))
  : M World (list Chunk * list (option Leaf)) :=
  match toRetry with
  | [] => ret (cs, stillFailed)
  | None :: _ => throw TypeError
  | Some leaf :: rest =>
      let! st :=
        try_catch
          (let! got := fetchChunkData (address leaf) 3 in
           match got with
           | Some d => ret (cs ++ [{| chunkIndex := index leaf; chunkData := d |}], stillFailed)
           | None => throw TypeError
           end)
          (fun _ => ret (cs, stillFailed ++ [Some leaf])) in
      sleep 100 ;;
      retryPass rest st.1 st.2
  end.

(** [while (toRetry.length > 0 && retryRound < 5)] *)
Fixpoint retryRounds (fuel retryRound : nat) (toRetry : list (option Leaf))
    (cs : list Chunk) : M World (list Chunk * list (option Leaf)) :=
  match fuel with
  | O => ret (cs, toRetry)
  | S fuel' =>
      if (0 <? length toRetry) && (retryRound <? 5) then
        let retryRound := S retryRound in
        log (LogRetryRound retryRound (length toRetry)) ;;
        sleep (500 * Z.of_nat retryRound) ;;
        let! st := retryPass toRetry cs [] in
        retryRounds fuel' retryRound st.2 st.1
      else ret (cs, toRetry)
  end.

(** The function returns nothing; [chunks] is mutated in place and is the
    value of the model.  The final [toRetry] is a local of the function. *)
Definition retryFailedChunks (fl : list (option Leaf)) (cs : list Chunk)
  : M World (list Chunk) :=
  if length fl =? 0 then ret cs
  else
    let! st := retryRounds 5 0 fl cs in
    (if 0 <? length st.2 then log (LogPermanentlyFailed (length st.2)) else ret tt) ;;
    ret st.1.

(** *** Assembly *)

(** [chunks.sort((a, b) => a.index - b.index)] (a stable sort). *)
Fixpoint insertChunk (c : Chunk) (l : list Chunk) : list Chunk :=
  match l with
  | [] => [c]
  | x :: r => if chunkIndex c <=? chunkIndex x then c :: l else x :: insertChunk c r
  end.

Definition sortByIndex (l : list Chunk) : list Chunk := foldr insertChunk [] l.

Definition assemble (cs : list Chunk) : bytes :=
  concatBuffers (map chunkData cs).

Definition fetchTreeSequential (rootChunk : Address) (depth totalSize : nat)
  : M World bytes :=
  let! lvs := collectLeafAddresses rootChunk depth in
  let! ld := loadChunksInBatches lvs in
  let! cs := (if 0 <? length (failed ld)
              then retryFailedChunks (failed ld) (chunks ld)
              else ret (chunks ld)) in
  ret (assemble (sortByIndex cs)).

End Loader.
End Loader.

(** ** deploy-nft.js: the chunker *)
Module Deploy.
(** [for (let i = 0; i < buf.length; i += size)
      chunks.push(buf.subarray(i, Math.min(i + size, buf.length)))],
    for [size > 0]. *)
Definition chunkBuffer (buf : bytes) (size : nat) : list bytes :=
  map (fun k => slice (k * size) (Nat.min (k * size + size) (length buf)) buf)
      (seq 0 ((length buf + size - 1) / size)).
End Deploy.

(** ** video-loader.js *)
Module VideoLoader.

(** An entry of the segment map in the header. *)
Record Segment := { segType : string; byteStart : nat; byteEnd : nat }.

(** [{...seg, adjustedByteStart, adjustedByteEnd, adjustedChunkStart,
    adjustedChunkEnd}] *)
Record AdjSegment := {
  seg : Segment;
  adjustedByteStart : nat;
  adjustedByteEnd : nat;
  adjustedChunkStart : nat;
  adjustedChunkEnd : nat
}.

(** What the header parses to: an array of segment entries, or a value
    that is no array, of which only [if (segmentMap)] is asked.  An array
    with entries of another shape is outside the model. *)
Inductive Json :=
| JArray (segments : list Segment)
| JOther (truthy : bool).

(** The variables of the streaming path: the globals [chunkDataMap] and
    [headerLength], and the locals of [streamVideoWithSegments]. *)
Record Stream := {
  chunkDataMap : gmap nat bytes;
  headerLength : nat;
  segmentsParsed : bool;
  adjustedSegments : list AdjSegment;
  nextSegmentToAppend : nat
}.

(** [chunkDataMap.set(k, d)] *)
Definition setChunk (k : nat) (d : bytes) (s : Stream) : Stream :=
  {| chunkDataMap := <[k := d]> (chunkDataMap s);
     headerLength := headerLength s;
     segmentsParsed := segmentsParsed s;
     adjustedSegments := adjustedSegments s;
     nextSegmentToAppend := nextSegmentToAppend s |}.

(** [headerLength = hl] *)
Definition setHeaderLength (hl : nat) (s : Stream) : Stream :=
  {| chunkDataMap := chunkDataMap s;
     headerLength := hl;
     segmentsParsed := segmentsParsed s;
     adjustedSegments := adjustedSegments s;
     nextSegmentToAppend := nextSegmentToAppend s |}.

(** [adjustedSegments = segs; segmentsParsed = true] *)
Definition setSegments (segs : list AdjSegment) (s : Stream) : Stream :=
  {| chunkDataMap := chunkDataMap s;
     headerLength := headerLength s;
     segmentsParsed := true;
     adjustedSegments := segs;
     nextSegmentToAppend := nextSegmentToAppend s |}.

(** [nextSegmentToAppend++] *)
Definition advance (s : Stream) : Stream :=
  {| chunkDataMap := chunkDataMap s;
     headerLength := headerLength s;
     segmentsParsed := segmentsParsed s;
     adjustedSegments := adjustedSegments s;
     nextSegmentToAppend := S (nextSegmentToAppend s) |}.

(** [new DataView(b.buffer, b.byteOffset, 4).getUint32(0)] (big-endian);
    [None] is the [RangeError] of a view over fewer than four bytes. *)
Definition getUint32 (b : bytes) : option nat :=
  match b with
  | b0 :: b1 :: b2 :: b3 :: _ =>
      Some (((Byte.to_nat b0 * 256 + Byte.to_nat b1) * 256 + Byte.to_nat b2) * 256
            + Byte.to_nat b3)
  | _ => None
  end.

(** [arr[i] = v] on a JavaScript array: an index past the end extends the
    array with holes. *)
Definition arraySet {A} (l : list (option A)) (i : nat) (v : A) : list (option A) :=
  if i <? length l then <[i := Some v]> l
  else l ++ replicate (i - length l) None ++ [Some v].

(** [data.length >= 8] and bytes 4..7 spell [ftyp]. *)
Definition isRawMP4 (d : bytes) : bool :=
  match d with
  | _ :: _ :: _ :: _ :: c4 :: c5 :: c6 :: c7 :: _ =>
      Byte.eqb c4 x66 && Byte.eqb c5 x74 && Byte.eqb c6 x79 && Byte.eqb c7 x70
  | _ => false
  end.

Section VideoLoader.
Context {World : Type} `{RR : RemoteReader World} `{MP : MediaPlayer World}.
Variable USE_MULTICALL : bool.
Variable BATCH_SIZE : nat.
(** [config.chunkSize || 15000], never zero. *)
Variable CHUNK_SIZE : nat.
(** The [try] block that ends [parseHeaderFromChunks]:
    [JSON.parse(new TextDecoder().decode(headerBytes))], then the log line
    that reads [parsed.length].  [None] is an exception, which the function
    catches to return [null]: the [SyntaxError] of [JSON.parse], or the
    [TypeError] of the log line when the text is [null]. *)
Variable JSON_parse : bytes -> option Json.
(** Whether the promise of [setupMediaSource] resolves. *)
Variable mediaSourceOpens : bool.

Abbreviation fetchChunkData := (Net.fetchChunkData 300 3000).
Abbreviation fetchChunksBatch := (Net.fetchChunksBatch USE_MULTICALL 300 3000).

(** Here the leaves are bare addresses. *)
Fixpoint traverseNode (nodeDepth : nat) (a : Address) (lvs : list Address)
  : M World (list Address) :=
  match nodeDepth with
  | O => ret (lvs ++ [a])
  | S d =>
      try_catch
        (let! got := fetchChunkData a 3 in
         match got with
         | None => throw TypeError
         | Some payload => foldM (traverseNode d) (Net.childAddrs payload) lvs
         end)
        (fun err => log (LogTraverseFailed a) ;; throw err)
  end.

Definition collectLeafAddresses (rootChunk : Address) (depth : nat)
  : M World (list Address) :=
  traverseNode depth rootChunk [].

(** The copy loop of [parseHeaderFromChunks]: [st] is
    [(headerBytes, headerBytesOffset)]. *)
Definition copyHeader (m : gmap nat bytes) (hl chunksNeeded : nat) : bytes :=
  (foldl (fun st i =>
            if st.2 <? hl then
              match m !! i with
              | Some chunk =>
                  let startInChunk := if i =? 0 then 4 else 0 in
                  let available := length chunk - startInChunk in
                  let needed := hl - st.2 in
                  let toCopy := Nat.min available needed in
                  (Uint8Array_set st.1 (slice startInChunk (startInChunk + toCopy) chunk) st.2,
                   st.2 + toCopy)
              | None => st
              end
            else st)
         (replicate hl x00, 0) (seq 0 chunksNeeded)).1.

(** Returns the new value of the global [headerLength] and the parsed
    segment map ([None] for [null]). *)
Definition parseHeaderFromChunks (m : gmap nat bytes) (hl0 : nat)
  : nat * option Json :=
  match m !! 0 with
  | None => (hl0, None)
  | Some chunk0 =>
      match getUint32 chunk0 with
      | None => (hl0, None)
      | Some hl =>
          let headerEnd := 4 + hl in
          let chunksNeeded := ceilDiv headerEnd CHUNK_SIZE in
          if forallb (fun i => bool_decide (is_Some (m !! i))) (seq 0 chunksNeeded)
          then (hl, JSON_parse (copyHeader m hl chunksNeeded))
          else (hl, None)
      end
  end.

Definition adjustSegmentOffsets (hl : nat) (segments : list Segment) : list AdjSegment :=
  let headerSize := 4 + hl in
  map (fun sg =>
         {| seg := sg;
            adjustedByteStart := byteStart sg + headerSize;
            adjustedByteEnd := byteEnd sg + headerSize;
            adjustedChunkStart := (byteStart sg + headerSize) / CHUNK_SIZE;
            adjustedChunkEnd := ceilDiv (byteEnd sg + headerSize) CHUNK_SIZE |})
      segments.

Definition isSegmentComplete (sg : AdjSegment) (m : gmap nat bytes) : bool :=
  forallb (fun i => bool_decide (is_Some (m !! i)))
          (seq (adjustedChunkStart sg) (adjustedChunkEnd sg - adjustedChunkStart sg)).

(** [None] is the [TypeError] raised by [c.length] on a missing chunk.
    [startInData] and [segmentLength] are differences, and may be negative. *)
Definition extractSegmentData (hl : nat) (sg : AdjSegment) (m : gmap nat bytes)
  : option bytes :=
  let headerSize := 4 + hl in
  match mapM (fun i => m !! i)
             (seq (adjustedChunkStart sg) (adjustedChunkEnd sg - adjustedChunkStart sg)) with
  | None => None
  | Some cs =>
      let firstChunkOffset := adjustedChunkStart sg * CHUNK_SIZE in
      let startInData :=
        (Z.of_nat (byteStart (seg sg) + headerSize) - Z.of_nat firstChunkOffset)%Z in
      let segmentLength :=
        (Z.of_nat (byteEnd (seg sg)) - Z.of_nat (byteStart (seg sg)))%Z in
      let assembled := concatBuffers cs in
      Some (sliceZ startInData (startInData + segmentLength) assembled)
  end.

(** [results.forEach((result, idx) => { const chunkIndex = i + idx; ... })]
    of the streaming loop; [EvChunk] is the arrival of a chunk
    ([chunkDataMap.set], [loadedChunks++], [updateStats()]). *)
Fixpoint storeResults (i : nat) (results : list FetchResult) (idx : nat)
  : M (Stream * World) unit :=
  match results with
  | [] => ret tt
  | result :: rest =>
      match success result, data result with
      | true, Some d =>
          update (setChunk (i + idx) d) ;;
          emit (EvChunk (i + idx)) ;;
          storeResults i rest (S idx)
      | _, _ =>
          log (LogChunkFailed (i + idx + 1)) ;;
          storeResults i rest (S idx)
      end
  end.

(** [await appendSegment(segData)]; a rejected promise is thrown. *)
Definition appendSegment (segData : bytes) : M World unit :=
  fun w =>
    match appendBuffer segData w with
    | (true, w') => (Ok tt, w', [])
    | (false, w') => (Throw DOMException, w', [])
    end.

(** [while (nextSegmentToAppend < adjustedSegments.length) { ... }], in the
    batch loop and after it.  [EvAppend] marks the call
    [appendSegment(segData)]; a rejected append is caught and logged, and
    the cursor advances either way. *)
Fixpoint appendReady (fuel : nat) : M (Stream * World) unit :=
  match fuel with
  | O => ret tt
  | S fuel' =>
      let! s := vars in
      match adjustedSegments s !! nextSegmentToAppend s with
      | None => ret tt
      | Some sg =>
          if isSegmentComplete sg (chunkDataMap s) then
            match extractSegmentData (headerLength s) sg (chunkDataMap s) with
            | None => throw TypeError
            | Some segData =>
                emit (EvAppend (nextSegmentToAppend s) segData) ;;
                try_catch (inWorld (appendSegment segData))
                          (fun _ => log LogAppendFailed) ;;
                update advance ;;
                appendReady fuel'
            end
          else ret tt
      end
  end.

(** [if (!segmentsParsed) { segmentMap = parseHeaderFromChunks();
      if (segmentMap) { adjustedSegments = adjustSegmentOffsets(segmentMap);
                        segmentsParsed = true } }].
    On a value that is no array, [segments.map] is not a function. *)
Definition tryParseHeader : M (Stream * World) unit :=
  let! s := vars in
  if segmentsParsed s then ret tt
  else
    let parsed := parseHeaderFromChunks (chunkDataMap s) (headerLength s) in
    update (setHeaderLength parsed.1) ;;
    match parsed.2 with
    | None => ret tt
    | Some (JOther false) => ret tt
    | Some (JOther true) => throw TypeError
    | Some (JArray segments) =>
        update (setSegments (adjustSegmentOffsets parsed.1 segments))
    end.

(** The batch loop of [streamVideoWithSegments].  An exception of the [try]
    block is caught with the variables as the block left them. *)
Fixpoint streamFrom (fuel i : nat) (leafAddresses : list Address)
  : M (Stream * World) unit :=
  match fuel with
  | O => ret tt
  | S fuel' =>
      if i <? length leafAddresses then
        let batchEnd := Nat.min (i + BATCH_SIZE) (length leafAddresses) in
        let batch := slice i batchEnd leafAddresses in
        try_catch
          (let! results := inWorld (fetchChunksBatch batch 2) in
           match results with
           | None => throw TypeError
           | Some rs =>
               storeResults i rs 0 ;;
               tryParseHeader ;;
               let! s := vars in
               (if segmentsParsed s
                then appendReady (length (adjustedSegments s))
                else ret tt) ;;
               (if batchEnd <? length leafAddresses then sleep 100 else ret tt)
           end)
          (fun _ => log (LogBatchFailed i)) ;;
        streamFrom fuel' (i + BATCH_SIZE) leafAddresses
      else ret tt
  end.

(** The variables as the page loads them; [init] runs the streaming path
    once. *)
Definition freshStream : Stream :=
  {| chunkDataMap := ∅; headerLength := 0; segmentsParsed := false;
     adjustedSegments := []; nextSegmentToAppend := 0 |}.

Definition setupMediaSource : M World unit :=
  if mediaSourceOpens then ret tt else throw MediaSourceError.

(** [if (mediaSource.readyState === 'open') { try { mediaSource.endOfStream() }
      catch (e) { ... } }]; [EvEndOfStream] marks the call. *)
Definition endStream : M World unit :=
  fun w => if readyStateOpen w then (Ok tt, w, [EvEndOfStream]) else (Ok tt, w, []).

(** Returns the final value of the variables (the JavaScript function
    returns nothing). *)
Definition streamVideoWithSegments (rootChunk : Address) (depth totalSize : nat)
  : M World Stream :=
  let! leafAddresses := collectLeafAddresses rootChunk depth in
  setupMediaSource ;;
  withVars freshStream
    (streamFrom (length leafAddresses) 0 leafAddresses ;;
     let! s := vars in
     appendReady (length (adjustedSegments s)) ;;
     inWorld endStream ;;
     vars).

(** [results.forEach] of [fallbackLoad], writing into
    [chunks = new Array(n)]; a result without data only gives the log line
    of chunk [chunkIndex + 1]. *)
Fixpoint placeResults (i : nat) (results : list FetchResult) (idx : nat)
    (cs : list (option bytes)) : M World (list (option bytes)) :=
  match results with
  | [] => ret cs
  | result :: rest =>
      match success result, data result with
      | true, Some d => placeResults i rest (S idx) (arraySet cs (i + idx) d)
      | _, _ =>
          log (LogChunkFailed (i + idx + 1)) ;;
          placeResults i rest (S idx) cs
      end
  end.

Fixpoint fallbackFrom (fuel i : nat) (leafAddresses : list Address)
    (cs : list (option bytes)) : M World (list (option bytes)) :=
  match fuel with
  | O => ret cs
  | S fuel' =>
      if i <? length leafAddresses then
        let batchEnd := Nat.min (i + BATCH_SIZE) (length leafAddresses) in
        let batch := slice i batchEnd leafAddresses in
        let! cs1 :=
          try_catch
            (let! results := fetchChunksBatch batch 2 in
             match results with
             | None => throw TypeError
             | Some rs =>
                 let! cs' := placeResults i rs 0 cs in
                 (if batchEnd <? length leafAddresses then sleep 100 else ret tt) ;;
                 ret cs'
             end)
            (fun _ => log (LogBatchFailed i) ;; ret cs) in
        fallbackFrom fuel' (i + BATCH_SIZE) leafAddresses cs1
      else ret cs
  end.

(** The choice of [videoData] once [finalData] is assembled. *)
Definition stripHeader (finalData : bytes) : bytes :=
  if isRawMP4 finalData then finalData
  else
    match getUint32 finalData with
    | Some hdrLen =>
        if (hdrLen <? length finalData) && (hdrLen <? 10000)
        then drop (4 + hdrLen) finalData
        else finalData
    | None => finalData
    end.

(** [EvBlob] is the blob handed to the [<video>] element. *)
Definition fallbackLoad (rootChunk : Address) (depth totalSize : nat) : M World unit :=
  let! leafAddresses := collectLeafAddresses rootChunk depth in
  let! cs := fallbackFrom (length leafAddresses) 0 leafAddresses
               (replicate (length leafAddresses) None) in
  let validChunks := omap id cs in
  let finalData := concatBuffers validChunks in
  emit (EvBlob (stripHeader finalData)).

(** The part of [init] that follows the resolution of the site:
    [forceRaw] is [params.get('raw') === 'true'], [supportedMime] says
    whether [MediaSource] supports one of the candidate types. *)
Definition init (forceRaw supportedMime : bool) (rootChunk : Address)
    (depth totalSize : nat) : M World unit :=
  try_catch
    (if forceRaw then fallbackLoad rootChunk depth totalSize
     else if supportedMime then
       try_catch
         (streamVideoWithSegments rootChunk depth totalSize ;; ret tt)
         (fun _ => fallbackLoad rootChunk depth totalSize)
     else fallbackLoad rootChunk depth totalSize)
    (fun _ => log LogError ;; ret tt).

End VideoLoader.
End VideoLoader.

(** ** Specification vocabulary *)

(** A fixed tree is a fixed assignment of payloads to addresses. *)
Module Tree.
Section Tree.
Variable store : Address -> option bytes.

(** Leaves below [a] at depth [d], depth-first and left to right. *)
Fixpoint treeLeaves (d : nat) (a : Address) : list Address :=
  match d with
  | O => [a]
  | S d' =>
      match store a with
      | Some payload => flat_map (treeLeaves d') (Net.childAddrs payload)
      | None => []
      end
  end.

(** Every branch node below [a] has a payload. *)
Fixpoint treeReadable (d : nat) (a : Address) : Prop :=
  match d with
  | O => True
  | S d' =>
      match store a with
      | Some payload => Forall (treeReadable d') (Net.childAddrs payload)
      | None => False
      end
  end.

(** Leaf descriptors numbered from [start]. *)
Definition numbered (start : nat) (l : list Address) : list Leaf :=
  imap (fun i a => {| index := start + i; address := a |}) l.

End Tree.
End Tree.

(** A tree as it is deployed, described without the loaders: a leaf page,
    or a node page with its children, in their order. *)
Inductive FTree :=
| TLeaf (a : Address)
| TNode (a : Address) (children : list FTree).

Definition rootOf (t : FTree) : Address :=
  match t with TLeaf a => a | TNode a _ => a end.

(** The leaves of the tree, depth-first and left to right. *)
Fixpoint leavesOf (t : FTree) : list Address :=
  match t with
  | TLeaf a => [a]
  | TNode _ children => flat_map leavesOf children
  end.

(** [t] has its leaves at depth [d], and [store] holds it: the page of a
    node is made of the addresses of its children, twenty bytes each, laid
    end to end in their order. *)
Fixpoint deployedAt (store : Address -> option bytes) (d : nat) (t : FTree) : Prop :=
  match d, t with
  | O, TLeaf _ => True
  | S d', TNode a children =>
      store a = Some (concat (map rootOf children)) /\
      Forall (fun c => length (rootOf c) = 20) children /\
      Forall (deployedAt store d') children
  | _, _ => False
  end.

(** Assumptions on a reader, as predicates. *)
Section ReaderLaws.
Context {World : Type} `{RR : RemoteReader World}.

(** Whatever a read returns is the payload the tree holds at that address;
    reads may still fail, at any time. *)
Definition consistent (store : Address -> option bytes) : Prop :=
  forall a w d w', readContract a w = (Some d, w') -> store a = Some d.

(** [aggregate3] answers one slot per call. *)
Definition aligned : Prop :=
  forall addrs w rs w', aggregate3 addrs w = (Some rs, w') -> length rs = length addrs.

(** [aggregate3] answers one slot per call, and a slot that carries data
    carries the payload the tree holds at the address of its call. *)
Definition consistentSlots (store : Address -> option bytes) : Prop :=
  forall addrs w rs w', aggregate3 addrs w = (Some rs, w') ->
    Forall2 (fun a s => forall d, slotSuccess s = true -> returnData s = Encoded d ->
                                  store a = Some d) addrs rs.

Definition slotOf (store : Address -> option bytes) (a : Address) : Slot :=
  match store a with
  | Some d => {| slotSuccess := true; returnData := Encoded d |}
  | None => {| slotSuccess := false; returnData := Empty0x |}
  end.

(** An error-free reader serving [store], from the worlds in [good] on. *)
Record errorFree (store : Address -> option bytes) (good : World -> Prop) : Prop := {
  ef_read : forall a w, good w ->
    exists w', readContract a w = (store a, w') /\ good w';
  ef_aggregate : forall addrs w, good w ->
    exists w', aggregate3 addrs w = (Some (map (slotOf store) addrs), w') /\ good w'
}.

(** The reads of [a] are rejected in every world. *)
Definition alwaysFails (a : Address) : Prop :=
  forall w, (readContract a w).1 = None.

(** [aggregate3] fails [k] times in a row from [w], leaving [w']. *)
Fixpoint aggregateFails (k : nat) (addrs : list Address) (w : World) : option World :=
  match k with
  | O => Some w
  | S k' =>
      match aggregate3 addrs w with
      | (None, w') => aggregateFails k' addrs w'
      | (Some _, _) => None
      end
  end.

(** [readContract a] fails [k] times in a row from [w], leaving [w']. *)
Fixpoint readFails (k : nat) (a : Address) (w : World) : option World :=
  match k with
  | O => Some w
  | S k' =>
      match readContract a w with
      | (None, w') => readFails k' a w'
      | (Some _, _) => None
      end
  end.

(** The walk from [a] at depth [d] meets a branch node whose three reads
    all fail: either [a] itself, or a node below one of its children,
    the earlier children having been walked. *)
Inductive unreadableBranch : nat -> Address -> Loader.Scan -> World -> Prop :=
| unreadable_here d a sc w w' :
    readFails 3 a w = Some w' ->
    unreadableBranch (S d) a sc w
| unreadable_below d a sc w payload w1 e1 pre c post sc1 w2 e2 :
    Net.fetchChunkData 200 2000 a 3 w = (Ok (Some payload), w1, e1) ->
    Net.childAddrs payload = pre ++ c :: post ->
    foldM (Loader.traverseNode d) pre sc w1 = (Ok sc1, w2, e2) ->
    unreadableBranch d c sc1 w2 ->
    unreadableBranch (S d) a sc w.

(** One retry round over the queue: the chunks it adds, the leaves it
    keeps, the world and the events. *)
Inductive PassRun : list Leaf -> World -> list Chunk -> list Leaf -> World
                    -> list Event -> Prop :=
| pass_nil w : PassRun [] w [] [] w []
| pass_ok leaf rest w d w1 e1 new still w2 e2 :
    Net.fetchChunkData 200 2000 (address leaf) 3 w = (Ok (Some d), w1, e1) ->
    PassRun rest w1 new still w2 e2 ->
    PassRun (leaf :: rest) w
            ({| chunkIndex := index leaf; chunkData := d |} :: new) still w2
            (e1 ++ EvSleep 100 :: e2)
| pass_fail leaf rest w w1 e1 new still w2 e2 :
    Net.fetchChunkData 200 2000 (address leaf) 3 w = (Throw RpcError, w1, e1) ->
    PassRun rest w1 new still w2 e2 ->
    PassRun (leaf :: rest) w new (leaf :: still) w2 (e1 ++ EvSleep 100 :: e2).

(** The rounds after round [r]: round [r + 1] is announced, waits
    [500 * (r + 1)] ms and makes one pass over the queue; the rounds stop
    when the queue is empty or five rounds are done.  The last index is the
    number of the last round run. *)
Inductive RoundsRun : nat -> list Leaf -> World -> list Chunk -> list Leaf -> World
                      -> list Event -> nat -> Prop :=
| rounds_stop r q w :
    q = [] \/ r = 5 ->
    RoundsRun r q w [] q w [] r
| rounds_step r q w new1 still1 w1 e1 new2 rem w2 e2 k :
    q <> [] -> r < 5 ->
    PassRun q w new1 still1 w1 e1 ->
    RoundsRun (S r) still1 w1 new2 rem w2 e2 k ->
    RoundsRun r q w (new1 ++ new2) rem w2
              (EvLog (LogRetryRound (S r) (length q))
                 :: EvSleep (500 * Z.of_nat (S r)) :: e1 ++ e2) k.

(** A failure injector for [a]: counted in fetches of three reads, [a] fails
    its next [left w] fetches and then succeeds, and fetching any other address
    leaves the count alone. *)
Record failsThenSucceeds (a : Address) (left : World -> nat) : Prop := {
  fts_ok : forall w, left w = 0 ->
    exists d w1 e1, Net.fetchChunkData 200 2000 a 3 w = (Ok (Some d), w1, e1);
  fts_fail : forall w n, left w = S n ->
    exists w1 e1, Net.fetchChunkData 200 2000 a 3 w = (Throw RpcError, w1, e1)
                  /\ left w1 = n;
  fts_other : forall b w, b <> a ->
    left (world_of (Net.fetchChunkData 200 2000 b 3 w)) = left w
}.

End ReaderLaws.

(** The chunk pushed for a leaf and its result, if
    [result.success && result.data] holds. *)
Definition chunkOf (leaf : Leaf) (r : FetchResult) : option Chunk :=
  match success r, data r with
  | true, Some d => Some {| chunkIndex := index leaf; chunkData := d |}
  | _, _ => None
  end.

(** The chunks, resp. the failed leaves, of a batch and its results. *)
Definition okChunks (batch : list Leaf) (rs : list FetchResult) : list Chunk :=
  omap (fun p => chunkOf p.1 p.2) (zip batch rs).

Definition koLeaves (batch : list Leaf) (rs : list FetchResult) : list Leaf :=
  omap (fun p => match chunkOf p.1 p.2 with Some _ => None | None => Some p.1 end)
       (zip batch rs).

(** The leaves of [lvs] whose index is not among those of [missing], in
    the order of [lvs]. *)
Definition fetched (lvs missing : list Leaf) : list Leaf :=
  List.filter (fun l => negb (bool_decide (index l ∈ map index missing))) lvs.

(** Slot [k] of the array is a hole, or holds the payload of leaf [k]. *)
Definition holdsPayloads (store : Address -> option bytes) (addrs : list Address)
    (cs : list (option bytes)) : Prop :=
  Forall2 (fun a c => c = None \/ (is_Some c /\ c = store a)) addrs cs.

(** The chunk a leaf contributes when its payload is read from the tree. *)
Definition payloadChunk (store : Address -> option bytes) (l : Leaf) : Chunk :=
  {| chunkIndex := index l; chunkData := default [] (store (address l)) |}.

(** Ascending by index. *)
Definition sortedChunks (cs : list Chunk) : Prop :=
  StronglySorted (fun a b => chunkIndex a <= chunkIndex b) cs.

(** The events of [k] failed single reads of [a], attempts numbered from [i],
    each followed by its backoff [min (base * 2^j) cap]. *)
Definition failedAttempts (base cap : Z) (a : Address) (i k : nat) : list Event :=
  flat_map (fun j => [EvRead a; EvSleep (Z.min (base * 2 ^ Z.of_nat j) cap)]) (seq i k).

(** The events of [k] failed aggregate calls, each followed by its backoff
    [min (300 * 2^j) 3000]. *)
Definition failedAggregates (addrs : list Address) (i k : nat) : list Event :=
  flat_map (fun j => [EvAggregate addrs; EvSleep (Z.min (300 * 2 ^ Z.of_nat j) 3000)])
           (seq i k).

(** Events of the network layer: calls and delays. *)
Definition netEvent (e : Event) : Prop :=
  match e with
  | EvRead _ | EvAggregate _ | EvSleep _ => True
  | _ => False
  end.

(** ** A simulated chain

    The pages deployed on the chain are fixed; the world is the condition of
    the network.  A read of an address fails while its fault counter is
    positive (each failed read uses one fault up) and when no page is
    deployed there; the aggregate call fails as a whole while [aggDown] is
    positive, and otherwise answers one slot per address, failed for an
    address without a page or with pending faults. *)
Module Sim.

Record Network := { faults : list (Address * nat); aggDown : nat }.

Definition addr_eqb (a b : Address) : bool :=
  (length a =? length b) && forallb (fun p => Byte.eqb p.1 p.2) (zip a b).

Fixpoint assoc {V} (a : Address) (l : list (Address * V)) : option V :=
  match l with
  | [] => None
  | (b, v) :: r => if addr_eqb a b then Some v else assoc a r
  end.

Definition faultsOf (a : Address) (n : Network) : nat := default 0 (assoc a (faults n)).

Section Chain.
Variable pages : list (Address * bytes).

Definition read (a : Address) (n : Network) : option bytes * Network :=
  match faultsOf a n with
  | S k => (None, {| faults := (a, k) :: faults n; aggDown := aggDown n |})
  | O => (assoc a pages, n)
  end.

Definition slot (n : Network) (a : Address) : Slot :=
  match faultsOf a n, assoc a pages with
  | O, Some d => {| slotSuccess := true; returnData := Encoded d |}
  | _, _ => {| slotSuccess := false; returnData := Empty0x |}
  end.

Definition aggregate (addrs : list Address) (n : Network)
  : option (list Slot) * Network :=
  match aggDown n with
  | S k => (None, {| faults := faults n; aggDown := k |})
  | O => (Some (map (slot n) addrs), n)
  end.

Definition reader : RemoteReader Network :=
  {| readContract := read; aggregate3 := aggregate |}.

(** The tree the chain holds. *)
Definition store (a : Address) : option bytes := assoc a pages.

(** A reader whose aggregate call answers one slot too many, a failed
    one. *)
Definition surplusReader : RemoteReader Network :=
  {| readContract := read;
     aggregate3 := fun addrs n =>
       (Some (map (slot n) addrs ++ [{| slotSuccess := false; returnData := Empty0x |}]), n) |}.

End Chain.

(** A page that plays a video: the network, and whether its media source
    is open. *)
Record Browser := { network : Network; sourceOpen : bool }.

Definition onNetwork {A} (f : Network -> A * Network) (b : Browser) : A * Browser :=
  match f (network b) with
  | (r, n) => (r, {| network := n; sourceOpen := sourceOpen b |})
  end.

Definition browserReader (pages : list (Address * bytes)) : RemoteReader Browser :=
  {| readContract := fun a => onNetwork (read pages a);
     aggregate3 := fun addrs => onNetwork (aggregate pages addrs) |}.

(** A media source that takes every buffer but those in [refused]; the
    refusal of a buffer closes it. *)
Definition player (refused : bytes -> bool) : MediaPlayer Browser :=
  {| appendBuffer := fun d b =>
       if refused d then (false, {| network := network b; sourceOpen := false |})
       else (true, b);
     readyStateOpen := sourceOpen |}.

(** A network without faults. *)
Definition calm : Network := {| faults := []; aggDown := 0 |}.

(** A page on that network, its media source open. *)
Definition tab : Browser := {| network := calm; sourceOpen := true |}.

Definition isCalm (n : Network) : Prop := n = calm.

(** A 20-byte address ending in the given byte. *)
Definition addr (b : byte) : Address := replicate 19 x00 ++ [b].

End Sim.

(** ** Concrete chains used in the examples *)
Module Scenario.
Import Sim.

(** Nine bytes of content, in chunks of two bytes. *)
Definition content : bytes := [x61; x62; x63; x64; x65; x66; x67; x68; x69].

Definition leaf0 : Address := addr x10.
Definition leaf1 : Address := addr x11.
Definition leaf2 : Address := addr x12.
Definition leaf3 : Address := addr x13.
Definition leaf4 : Address := addr x14.
Definition nodeA : Address := addr xa0.
Definition nodeB : Address := addr xa1.
Definition root : Address := addr xff.

(** Depth 2: the root points to [nodeA] (leaves 0, 1, 2) and [nodeB]
    (leaves 3, 4). *)
Definition pages : list (Address * bytes) :=
  [ (leaf0, [x61; x62]); (leaf1, [x63; x64]); (leaf2, [x65; x66]);
    (leaf3, [x67; x68]); (leaf4, [x69]);
    (nodeA, leaf0 ++ leaf1 ++ leaf2);
    (nodeB, leaf3 ++ leaf4);
    (root, nodeA ++ nodeB) ].

(** The same tree with no page deployed at [leaf1]. *)
Definition pagesHole : list (Address * bytes) :=
  [ (leaf0, [x61; x62]); (leaf2, [x65; x66]);
    (leaf3, [x67; x68]); (leaf4, [x69]);
    (nodeA, leaf0 ++ leaf1 ++ leaf2);
    (nodeB, leaf3 ++ leaf4);
    (root, nodeA ++ nodeB) ].

(** The same tree with no page deployed at [nodeB]. *)
Definition pagesNoBranch : list (Address * bytes) :=
  [ (leaf0, [x61; x62]); (leaf1, [x63; x64]); (leaf2, [x65; x66]);
    (leaf3, [x67; x68]); (leaf4, [x69]);
    (nodeA, leaf0 ++ leaf1 ++ leaf2);
    (root, nodeA ++ nodeB) ].

(** The tree of [pages]. *)
Definition tree : FTree :=
  TNode root [ TNode nodeA [TLeaf leaf0; TLeaf leaf1; TLeaf leaf2];
               TNode nodeB [TLeaf leaf3; TLeaf leaf4] ].

Definition leaves5 : list Leaf :=
  Tree.numbered 0 [leaf0; leaf1; leaf2; leaf3; leaf4].

Definition leafD1 : Leaf := {| index := 1; address := leaf1 |}.

Definition fiveAddresses : list Address := [leaf0; leaf1; leaf2; leaf3; leaf4].

(** [leaf1] fails its next [n] reads. *)
Definition flaky (n : nat) : Network := {| faults := [(leaf1, n)]; aggDown := 0 |}.

(** The aggregate call is down twice, and [leaf1] fails its next two reads. *)
Definition outage : Network := {| faults := [(leaf1, 2)]; aggDown := 2 |}.

(** The reads of a walk of the tree. *)
Definition scanEvents : list Event := [EvRead root; EvRead nodeA; EvRead nodeB].

End Scenario.

(** ** deploy-nft.js: the tree builder *)
Module DeployTree.

(** The chain as the deployer sees it.  [transactionCount] is
    [provider.getTransactionCount(wallet.address, 'latest')] and [deployPage]
    is the function of that name, retries and verification included: it
    returns [receipt.contractAddress], or throws ([None]).  [pageAt] is what
    [Page.read()] answers at an address. *)
Class PageDeployer (Chain : Type) := {
  transactionCount : Chain -> option nat;
  deployPage : bytes -> nat -> Chain -> option Address * Chain;
  pageAt : Chain -> Address -> option bytes
}.

Section DeployTree.
Context {Chain : Type} `{PD : PageDeployer Chain}.
Variable GROUP_SIZE : nat.

Definition getTransactionCount : M Chain nat :=
  fun ch =>
    match transactionCount ch with
    | Some n => (Ok n, ch, [])
    | None => (Throw RpcError, ch, [])
    end.

Definition deploy (content : bytes) (nonce : nat) : M Chain Address :=
  fun ch =>
    match deployPage content nonce ch with
    | (Some a, ch') => (Ok a, ch', [])
    | (None, ch') => (Throw RpcError, ch', [])
    end.

(** [for (let i = 0; i < level.length; i += GROUP_SIZE) { ... }]:
    [Buffer.concat(group.map(a => Buffer.from(ethers.getBytes(a))))] is the
    concatenation of the addresses of the group. *)
Fixpoint groupsFrom (fuel i : nat) (level : list Address) (baseNonce : nat)
    (parent : list Address) : M Chain (list Address) :=
  match fuel with
  | O => ret parent
  | S fuel' =>
      if i <? length level then
        let group := slice i (i + GROUP_SIZE) level in
        let ni := i / GROUP_SIZE in
        sleep (Z.of_nat ni * 50) ;;
        let! a := deploy (concat group) (baseNonce + ni) in
        groupsFrom fuel' (i + GROUP_SIZE) level baseNonce (parent ++ [a])
      else ret parent
  end.

(** [while (level.length > 1) { depth++; ...; level = parent }] *)
Fixpoint buildFrom (fuel : nat) (level : list Address) (depth : nat)
  : M Chain (list Address * nat) :=
  match fuel with
  | O => ret (level, depth)
  | S fuel' =>
      if 1 <? length level then
        let! baseNonce := getTransactionCount in
        let! parent := groupsFrom (length level) 0 level baseNonce [] in
        buildFrom fuel' parent (S depth)
      else ret (level, depth)
  end.

(** [{ rootChunk: level[0], depth }]; for [GROUP_SIZE >= 2] every level is
    shorter than the one below, so the [while] loop runs fewer times than
    there are addresses. *)
Definition buildTree (addresses : list Address) : M Chain (option Address * nat) :=
  let! r := buildFrom (length addresses) addresses 0 in
  ret (head r.1, r.2).

End DeployTree.
End DeployTree.

(** A deployment puts the content at a fresh 20-byte address and leaves the
    other pages as they are. *)
Definition deploysPages {Chain} `{PD : DeployTree.PageDeployer Chain} : Prop :=
  forall c n ch a ch',
    DeployTree.deployPage c n ch = (Some a, ch') ->
    length a = 20 /\ DeployTree.pageAt ch a = None /\
    DeployTree.pageAt ch' a = Some c /\
    forall b, b <> a -> DeployTree.pageAt ch' b = DeployTree.pageAt ch b.

(** The next [k] deployments succeed, whatever is deployed. *)
Fixpoint deploysNext {Chain} `{PD : DeployTree.PageDeployer Chain}
    (k : nat) (ch : Chain) : Prop :=
  match k with
  | O => True
  | S k' =>
      is_Some (DeployTree.transactionCount ch) /\
      forall c n, exists a ch',
        DeployTree.deployPage c n ch = (Some a, ch') /\ deploysNext k' ch'
  end.

(** [s'] holds every page of [s]. *)
Definition extends (s s' : Address -> option bytes) : Prop :=
  forall a d, s a = Some d -> s' a = Some d.

(** ** extension/lib/site-loader.js *)
Module SiteLoader.
Section SiteLoader.
Context {World : Type} `{RR : RemoteReader World}.

(** [readChunk]: the body of the [try] ([rpcCall] of [read()], the test
    for an empty result, [decodeBytes]) is the read of the remote reader; the
    backoff [300 * 2^i] has no cap. *)
Fixpoint readChunkFrom (remaining i retries : nat) (a : Address)
  : M World (option bytes) :=
  match remaining with
  | O => ret None
  | S remaining' =>
      try_catch
        (let! d := Net.rpcRead a in ret (Some d))
        (fun err =>
           if i =? retries - 1 then throw err
           else
             sleep (300 * 2 ^ Z.of_nat i) ;;
             readChunkFrom remaining' (S i) retries a)
  end.

Definition readChunk (a : Address) (retries : nat) : M World (option bytes) :=
  readChunkFrom retries 0 retries a.

(** [collectLeaves(address, depth, leaves, rpcUrl, onProgress)]: the array
    [leaves] is threaded through the walk; no error is caught. *)
Fixpoint collectLeaves (depth : nat) (a : Address) (leaves : list Address)
  : M World (list Address) :=
  match depth with
  | O => ret (leaves ++ [a])
  | S d =>
      let! got := readChunk a 3 in
      match got with
      | None => throw TypeError
      | Some nodeData => foldM (collectLeaves d) (Net.childAddrs nodeData) leaves
      end
  end.

(** Phase 2 of [loadContent]:
    [for (let i = 0; i < leaves.length; i++) { allData.push(await
    readChunk(leaves[i])); if (i < leaves.length - 1) await sleep(50) }] *)
Fixpoint readLeaves (leaves : list Address) (allData : list (option bytes))
  : M World (list (option bytes)) :=
  match leaves with
  | [] => ret allData
  | a :: rest =>
      let! data := readChunk a 3 in
      (if 0 <? length rest then sleep 50 else ret tt) ;;
      readLeaves rest (allData ++ [data])
  end.

(** Returns the field [data] of the result; [chunk.length] raises on an
    [undefined] entry. *)
Definition loadContent (rootChunk : Address) (depth totalSize : nat) : M World bytes :=
  let! leaves := collectLeaves depth rootChunk [] in
  let! allData := readLeaves leaves [] in
  match mapM id allData with
  | Some parts => ret (concatBuffers parts)
  | None => throw TypeError
  end.

End SiteLoader.
End SiteLoader.

(** The events of [k] failed reads of [readChunk], each followed by its
    backoff [300 * 2^j]. *)
Definition failedReads (a : Address) (i k : nat) : list Event :=
  flat_map (fun j => [EvRead a; EvSleep (300 * 2 ^ Z.of_nat j)]) (seq i k).

(** The leaf phase on a healthy network: one read per leaf, 50 ms apart. *)
Definition leafReads (leaves : list Address) : list Event :=
  match leaves with
  | [] => []
  | a :: rest => EvRead a :: flat_map (fun b => [EvSleep 50; EvRead b]) rest
  end.


(** ** Vocabulary of the traces *)

(** What a single fetch may put on the wire: reads of its own address and
    waits of 200 to 2000 ms. *)
Definition fetchEvent (a : Address) (e : Event) : Prop :=
  match e with
  | EvRead b => b = a
  | EvSleep ms => (200 <= ms <= 2000)%Z
  | _ => False
  end.

(** The addresses an event asks the chain for. *)
Definition requested (e : Event) : list Address :=
  match e with
  | EvRead a => [a]
  | EvAggregate l => l
  | _ => []
  end.

(** Calls to the chain, and awaited delays. *)
Definition isCall (e : Event) : bool :=
  match e with EvRead _ | EvAggregate _ => true | _ => false end.

Definition isPause (e : Event) : bool :=
  match e with EvSleep _ => true | _ => false end.

(** The events that reach the player. *)
Definition playerEvent (e : Event) : bool :=
  match e with
  | EvAppend _ _ | EvEndOfStream | EvBlob _ => true
  | _ => false
  end.

(** The indices of the segments handed to [appendSegment], in the order of
    the calls. *)
Definition appendIndex (ev : Event) : option nat :=
  match ev with EvAppend i _ => Some i | _ => None end.

Definition appended (e : list Event) : list nat := omap appendIndex e.

(** The indices of the chunks stored in the chunk map, in the order of
    their arrival. *)
Definition arrival (ev : Event) : option nat :=
  match ev with EvChunk k => Some k | _ => None end.

Definition arrivals (e : list Event) : list nat := omap arrival e.

(** A replay of a trace against the segment map [sm]: [arr] holds the
    chunks arrived so far, and every segment handed to [appendSegment] is a
    segment of the map whose covering chunks have all arrived before. *)
Fixpoint timely (sm : list VideoLoader.AdjSegment) (arr : list nat) (e : list Event)
  : Prop :=
  match e with
  | [] => True
  | EvChunk k :: r => timely sm (k :: arr) r
  | EvAppend j _ :: r =>
      (exists sg : VideoLoader.AdjSegment, sm !! j = Some sg /\
         forall k : nat,
           VideoLoader.adjustedChunkStart sg <= k < VideoLoader.adjustedChunkEnd sg ->
           k ∈ arr) /\
      timely sm arr r
  | _ :: r => timely sm arr r
  end.

(** Segment [i] with bytes [d] is a complete segment of the state [s], and
    [d] is what [extractSegmentData] makes of it. *)
Definition releasable (CHUNK_SIZE : nat) (s : VideoLoader.Stream) (i : nat) (d : bytes)
  : Prop :=
  exists sg, VideoLoader.adjustedSegments s !! i = Some sg /\
    VideoLoader.isSegmentComplete sg (VideoLoader.chunkDataMap s) = true /\
    VideoLoader.extractSegmentData CHUNK_SIZE (VideoLoader.headerLength s) sg
      (VideoLoader.chunkDataMap s) = Some d.

(** The events of the release loop: calls of [appendSegment] on complete
    segments of [s], and the log lines of the calls that were rejected. *)
Definition releases (CHUNK_SIZE : nat) (s : VideoLoader.Stream) (e : list Event) : Prop :=
  forall ev, ev ∈ e ->
    ev = EvLog LogAppendFailed \/
    exists i d, ev = EvAppend i d /\ releasable CHUNK_SIZE s i d.

(** The segments in use are what [adjustSegmentOffsets] makes of an array
    that [JSON.parse] returned. *)
Definition fromHeader (CHUNK_SIZE : nat) (JSON_parse : bytes -> option VideoLoader.Json)
    (s : VideoLoader.Stream) : Prop :=
  VideoLoader.segmentsParsed s = true ->
  exists header segments,
    JSON_parse header = Some (VideoLoader.JArray segments) /\
    VideoLoader.adjustedSegments s
    = VideoLoader.adjustSegmentOffsets CHUNK_SIZE (VideoLoader.headerLength s) segments.

(** Whether the header parsed to an array. *)
Definition isSegmentMap (parsed : option VideoLoader.Json) : bool :=
  match parsed with Some (VideoLoader.JArray _) => true | _ => false end.

(** [s'] is a later state than [s]: chunks were added, and a parsed
    segment map is kept. *)
Definition later (s s' : VideoLoader.Stream) : Prop :=
  VideoLoader.chunkDataMap s ⊆ VideoLoader.chunkDataMap s' /\
  (VideoLoader.segmentsParsed s = true ->
   VideoLoader.segmentsParsed s' = true /\
   VideoLoader.adjustedSegments s' = VideoLoader.adjustedSegments s /\
   VideoLoader.headerLength s' = VideoLoader.headerLength s).

(** Before the segment map is parsed there are no segments and nothing was
    appended; the cursor never passes the end of the map. *)
Definition steady (s : VideoLoader.Stream) : Prop :=
  (VideoLoader.segmentsParsed s = false ->
   VideoLoader.adjustedSegments s = [] /\ VideoLoader.nextSegmentToAppend s = 0) /\
  VideoLoader.nextSegmentToAppend s <= length (VideoLoader.adjustedSegments s).



(** ** A simulated deployer

    The chain is the list of its pages, newest first; the page deployed
    when the chain holds [n] pages gets the address ending in byte [n].  A
    deployment fails when the address is taken, or when 256 pages are
    deployed. *)
Module SimChain.

Definition Chain : Type := list (Address * bytes).

Definition deployPage (c : bytes) (nonce : nat) (ch : Chain) : option Address * Chain :=
  match Byte.of_nat (length ch) with
  | Some b =>
      match Sim.assoc (Sim.addr b) ch with
      | None => (Some (Sim.addr b), (Sim.addr b, c) :: ch)
      | Some _ => (None, ch)
      end
  | None => (None, ch)
  end.

Definition deployer : DeployTree.PageDeployer Chain :=
  {| DeployTree.transactionCount := fun ch => Some (length ch);
     DeployTree.deployPage := deployPage;
     DeployTree.pageAt := fun ch a => Sim.assoc a ch |}.

(** Five leaf pages holding [Scenario.content] in chunks of two bytes. *)
Definition leafAddresses : list Address :=
  [Sim.addr x00; Sim.addr x01; Sim.addr x02; Sim.addr x03; Sim.addr x04].

Definition leafPages : Chain :=
  [ (Sim.addr x04, [x69]); (Sim.addr x03, [x67; x68]); (Sim.addr x02, [x65; x66]);
    (Sim.addr x01, [x63; x64]); (Sim.addr x00, [x61; x62]) ].

(** The run of [buildTree] over them, with groups of two. *)
Definition built : Outcome (option Address * nat) * Chain * list Event :=
  Eval vm_compute in DeployTree.buildTree (PD := deployer) 2 leafAddresses leafPages.

End SimChain.

(** ** Media used in the examples *)
Module Media.
Import Sim Scenario.

(** Nine bytes in chunks of four, with an empty header, and a segment of
    two bytes in the second chunk. *)
Definition twoChunks : gmap nat bytes :=
  <[1 := [x65; x66; x67; x68]]> (<[0 := [x00; x00; x00; x00]]> ∅).

Definition threeChunks : gmap nat bytes := <[2 := [x69]]> twoChunks.

Definition oneSegment : list VideoLoader.Segment :=
  [ {| VideoLoader.segType := "media"; VideoLoader.byteStart := 1;
       VideoLoader.byteEnd := 3 |} ].

Definition adjustedSegment : VideoLoader.AdjSegment :=
  {| VideoLoader.seg := {| VideoLoader.segType := "media"; VideoLoader.byteStart := 1;
                           VideoLoader.byteEnd := 3 |};
     VideoLoader.adjustedByteStart := 5; VideoLoader.adjustedByteEnd := 7;
     VideoLoader.adjustedChunkStart := 1; VideoLoader.adjustedChunkEnd := 2 |}.

Definition nineBytes : list bytes :=
  [ [x00; x00; x00; x00]; [x65; x66; x67; x68]; [x69] ].

(** Seven bytes in chunks of four, with an empty header: the last chunk
    is short. *)
Definition sevenBytes : gmap nat bytes :=
  <[1 := [x61; x62; x63]]> (<[0 := [x00; x00; x00; x00]]> ∅).

(** Eleven bytes in chunks of four: the length 5, a header of five bytes
    that spans the second and the third chunk, and one byte more. *)
Definition headerChunks : list bytes :=
  [ [x00; x00; x00; x05]; [x61; x62; x63; x64]; [x65; x66; x67] ].

Definition headerMap : gmap nat bytes :=
  <[2 := [x65; x66; x67]]>
    (<[1 := [x61; x62; x63; x64]]> (<[0 := [x00; x00; x00; x05]]> ∅)).

(** A segment map of two segments, and its text: 86 bytes,
    [[{ type: init, byteStart: 0, byteEnd: 3 },
      { type: media, byteStart: 3, byteEnd: 7 }]] with its quotes and
    without its spaces. *)
Definition twoSegments : list VideoLoader.Segment :=
  [ {| VideoLoader.segType := "init"; VideoLoader.byteStart := 0;
       VideoLoader.byteEnd := 3 |};
    {| VideoLoader.segType := "media"; VideoLoader.byteStart := 3;
       VideoLoader.byteEnd := 7 |} ].

Definition segmentText : bytes :=
  [ x5b; x7b; x22; x74; x79; x70; x65; x22; x3a; x22; x69; x6e; x69; x74; x22; x2c;
    x22; x62; x79; x74; x65; x53; x74; x61; x72; x74; x22; x3a; x30; x2c; x22; x62;
    x79; x74; x65; x45; x6e; x64; x22; x3a; x33; x7d; x2c; x7b; x22; x74; x79; x70;
    x65; x22; x3a; x22; x6d; x65; x64; x69; x61; x22; x2c; x22; x62; x79; x74; x65;
    x53; x74; x61; x72; x74; x22; x3a; x33; x2c; x22; x62; x79; x74; x65; x45; x6e;
    x64; x22; x3a; x37; x7d; x5d ].

(** Seven bytes of video. *)
Definition video : bytes := [x61; x62; x63; x64; x65; x66; x67].

(** The deployed content: the length 86, the segment map, the video. *)
Definition videoContent : bytes := [x00; x00; x00; x56] ++ segmentText ++ video.

(** Its 97 bytes in chunks of 32, under a root of depth 1: the header ends
    in the third chunk, which also holds the first segment; the second
    segment ends in the fourth. *)
Definition videoChunks : list bytes :=
  Eval vm_compute in Deploy.chunkBuffer videoContent 32.

Definition videoPages : list (Address * bytes) :=
  Eval vm_compute in
    zip [leaf0; leaf1; leaf2; leaf3] videoChunks
    ++ [(root, leaf0 ++ leaf1 ++ leaf2 ++ leaf3)].

(** The same video under a header of two bytes, in chunks of four: the
    text [{]], which is no JSON, or the text [{}], which is no array. *)
Definition noJson : bytes := [x7b; x5d].

Definition emptyObject : bytes := [x7b; x7d].

Definition noJsonChunks : list bytes :=
  Eval vm_compute in Deploy.chunkBuffer ([x00; x00; x00; x02] ++ noJson ++ video) 4.

Definition noJsonPages : list (Address * bytes) :=
  Eval vm_compute in
    zip [leaf0; leaf1; leaf2; leaf3] noJsonChunks
    ++ [(root, leaf0 ++ leaf1 ++ leaf2 ++ leaf3)].

Definition objectChunks : list bytes :=
  Eval vm_compute in Deploy.chunkBuffer ([x00; x00; x00; x02] ++ emptyObject ++ video) 4.

Definition objectPages : list (Address * bytes) :=
  Eval vm_compute in
    zip [leaf0; leaf1; leaf2; leaf3] objectChunks
    ++ [(root, leaf0 ++ leaf1 ++ leaf2 ++ leaf3)].

(** A raw MP4 file of thirteen bytes, in chunks of four: its first four
    bytes are the size of the [ftyp] box, not the length of a header. *)
Definition rawChunks : list bytes :=
  Eval vm_compute in
    Deploy.chunkBuffer ([x00; x00; x00; x08; x66; x74; x79; x70] ++ [x61; x62; x63; x64; x65]) 4.

Definition rawPages : list (Address * bytes) :=
  Eval vm_compute in
    zip [leaf0; leaf1; leaf2; leaf3] rawChunks
    ++ [(root, leaf0 ++ leaf1 ++ leaf2 ++ leaf3)].


(** A media source that takes every buffer, and one that refuses the
    first segment of the video. *)
Definition willing : MediaPlayer Browser := player (fun _ => false).

Definition refusing : MediaPlayer Browser :=
  player (fun d => addr_eqb d [x61; x62; x63]).

(** [JSON.parse] on the header texts of the examples: the segment map, the
    empty object, and texts that are no JSON. *)
Definition parseExample (header : bytes) : option VideoLoader.Json :=
  if addr_eqb header segmentText then Some (VideoLoader.JArray twoSegments)
  else if addr_eqb header emptyObject then Some (VideoLoader.JOther true)
  else None.

End Media.

(** * Proofs *)

(** ** The network layer *)
Section NetFacts.
Context {World : Type} `{RR : RemoteReader World}.
Variable USE_MULTICALL : bool.
Variables base cap : Z.

Local Abbreviation fetchFrom := (Net.fetchChunkDataFrom base cap).
Local Abbreviation fetchData := (Net.fetchChunkData base cap).
Local Abbreviation fetchEach := (Net.fetchChunksIndividually base cap).
Local Abbreviation fetchBatch := (Net.fetchChunksBatch USE_MULTICALL base cap).
Local Abbreviation mcFrom := (Net.multicallFrom base cap).

Lemma fetchFrom_success a k : forall rem i r w w1 d w2,
  readFails k a w = Some w1 ->
  readContract a w1 = (Some d, w2) ->
  k < rem -> i + rem = r ->
  fetchFrom rem i r a w
  = (Ok (Some d), w2, failedAttempts base cap a i k ++ [EvRead a]).
Proof.
  induction k as [|k IH]; intros rem i r w w1 d w2 Hf Hr Hlt Hir.
  - destruct rem as [|rem]; [lia|]. simpl in Hf. injection Hf as <-.
    simpl. unfold try_catch, bind, Net.rpcRead. rewrite Hr. reflexivity.
  - destruct rem as [|rem]; [lia|]. simpl in Hf.
    destruct (readContract a w) as [[d0|] w0] eqn:E; [discriminate|].
    simpl. unfold try_catch, bind at 1, Net.rpcRead. rewrite E.
    destruct (Nat.eqb_spec i (r - 1)) as [->|_]; [lia|].
    unfold bind, sleep, emit.
    rewrite (IH rem (S i) r w0 w1 d w2 Hf Hr ltac:(lia) ltac:(lia)).
    reflexivity.
Qed.

Lemma fetchFrom_exhausted a : forall rem i r w w',
  readFails rem a w = Some w' ->
  0 < rem -> i + rem = r ->
  fetchFrom rem i r a w
  = (Throw RpcError, w', failedAttempts base cap a i (rem - 1) ++ [EvRead a]).
Proof.
  induction rem as [|rem IH]; intros i r w w' Hf Hpos Hir; [lia|].
  simpl in Hf. destruct (readContract a w) as [[d0|] w0] eqn:E; [discriminate|].
  simpl. unfold try_catch, bind at 1, Net.rpcRead. rewrite E.
  destruct (Nat.eqb_spec i (r - 1)) as [Heq|Hne].
  - assert (rem = 0) as -> by lia. simpl in Hf. injection Hf as <-. reflexivity.
  - destruct rem as [|rem]; [lia|].
    unfold bind, sleep, emit.
    rewrite (IH (S i) r w0 w' Hf ltac:(lia) ltac:(lia)).
    simpl. rewrite Nat.sub_0_r. reflexivity.
Qed.

(** A run of [fetchChunkData] is a number of failed reads followed either
    by a successful read or, once the attempts are used up, by a throw. *)
Lemma fetchFrom_cases a : forall rem i r w,
  0 < rem -> i + rem = r ->
  (exists k w1 d w2, k < rem /\ readFails k a w = Some w1 /\
                     readContract a w1 = (Some d, w2)) \/
  (exists w', readFails rem a w = Some w').
Proof.
  induction rem as [|rem IH]; intros i r w Hpos Hir; [lia|].
  destruct (readContract a w) as [[d0|] w0] eqn:E.
  - left. exists 0, w, d0, w0. simpl. split; [lia|]. split; [reflexivity|exact E].
  - destruct rem as [|rem].
    + right. exists w0. simpl. rewrite E. reflexivity.
    + destruct (IH (S i) r w0 ltac:(lia) ltac:(lia))
        as [(k & w1 & d & w2 & Hk & Hf & Hr)|(w' & Hf)].
      * left. exists (S k), w1, d, w2. split; [lia|]. split; [|exact Hr].
        simpl. rewrite E. exact Hf.
      * right. exists w'. change (readFails (S (S rem)) a w)
          with (match readContract a w with
                | (None, w') => readFails (S rem) a w'
                | (Some _, _) => None end).
        rewrite E. exact Hf.
Qed.

Lemma fetchData_cases a r w :
  0 < r ->
  (exists k w1 d w2, k < r /\ readFails k a w = Some w1 /\
      readContract a w1 = (Some d, w2) /\
      fetchData a r w = (Ok (Some d), w2, failedAttempts base cap a 0 k ++ [EvRead a])) \/
  (exists w', readFails r a w = Some w' /\
      fetchData a r w
      = (Throw RpcError, w', failedAttempts base cap a 0 (r - 1) ++ [EvRead a])).
Proof.
  intros Hr. unfold Net.fetchChunkData.
  destruct (fetchFrom_cases a r 0 r w Hr eq_refl)
    as [(k & w1 & d & w2 & Hk & Hf & Hrd)|(w' & Hf)].
  - left. exists k, w1, d, w2. repeat split; try assumption.
    eapply fetchFrom_success; eauto.
  - right. exists w'. split; [assumption|].
    eapply fetchFrom_exhausted; eauto.
Qed.

Lemma failedAttempts_net a i k : Forall netEvent (failedAttempts base cap a i k).
Proof.
  unfold failedAttempts. apply Forall_flat_map, Forall_forall.
  intros j _. repeat constructor.
Qed.

Lemma failedAggregates_net addrs i k : Forall netEvent (failedAggregates addrs i k).
Proof.
  unfold failedAggregates. apply Forall_flat_map, Forall_forall.
  intros j _. repeat constructor.
Qed.

Lemma fetchData_zero a w : fetchData a 0 w = (Ok None, w, []).
Proof. reflexivity. Qed.

(** With a positive number of attempts the result is never [undefined]. *)
Lemma fetchData_defined a r w got w' e :
  0 < r -> fetchData a r w = (Ok got, w', e) -> exists d, got = Some d.
Proof.
  intros Hr Hrun.
  destruct (fetchData_cases a r w Hr)
    as [(k & w1 & d & w2 & _ & _ & _ & Heq)|(w2 & _ & Heq)];
    rewrite Heq in Hrun; [|discriminate].
  injection Hrun as <- _ _. eauto.
Qed.

Lemma fetchData_net a r w : Forall netEvent (events (fetchData a r w)).
Proof.
  destruct r as [|r]; [constructor|].
  destruct (fetchData_cases a (S r) w ltac:(lia))
    as [(k & w1 & d & w2 & _ & _ & _ & Heq)|(w2 & _ & Heq)];
    rewrite Heq; unfold events; simpl;
    (apply Forall_app; split; [apply failedAttempts_net|repeat constructor]).
Qed.

Lemma fetchData_consistent store a r w d w' e :
  consistent store -> fetchData a r w = (Ok (Some d), w', e) -> store a = Some d.
Proof.
  intros Hc Hrun. destruct r as [|r]; [discriminate|].
  destruct (fetchData_cases a (S r) w ltac:(lia))
    as [(k & w1 & d1 & w2 & _ & _ & Hrd & Heq)|(w2 & _ & Heq)];
    rewrite Heq in Hrun; [|discriminate].
  injection Hrun as -> _ _. eapply Hc; eauto.
Qed.

Lemma readFails_always a k w :
  alwaysFails a -> exists w', readFails k a w = Some w'.
Proof.
  intros Ha. revert w. induction k as [|k IH]; intros w; [eauto|].
  simpl. specialize (Ha w). destruct (readContract a w) as [[d|] w0]; [discriminate|].
  apply IH.
Qed.

Lemma fetchData_alwaysFails a r w :
  alwaysFails a -> 0 < r ->
  exists w', fetchData a r w
    = (Throw RpcError, w', failedAttempts base cap a 0 (r - 1) ++ [EvRead a]).
Proof.
  intros Ha Hr. destruct (readFails_always a r w Ha) as [w' Hf].
  exists w'. unfold Net.fetchChunkData. eapply fetchFrom_exhausted; eauto.
Qed.

(** The per-address fallback never throws and answers one result per
    address. *)
Lemma fetchEach_total r : forall addrs w,
  exists rs w' e, fetchEach addrs r w = (Ok rs, w', e) /\
    length rs = length addrs /\ Forall netEvent e.
Proof.
  induction addrs as [|a addrs IH]; intros w.
  - exists [], w, []. repeat split; constructor.
  - simpl. unfold bind at 1, try_catch, bind at 1.
    pose proof (fetchData_net a r w) as Hnet.
    destruct (fetchData a r w) as [[[got|err] w1] e1] eqn:E; unfold events in Hnet;
      simpl in Hnet; simpl;
      destruct (IH w1) as (rs & w2 & e2 & Hrun & Hlen & Hn);
      unfold bind; rewrite Hrun; simpl;
      eexists _, _, _; (split; [reflexivity|]); simpl;
      (split; [congruence|]); rewrite ?app_nil_r;
      apply Forall_app; split; assumption.
Qed.

Lemma fetchEach_consistent store r : forall addrs w rs w' e,
  consistent store ->
  fetchEach addrs r w = (Ok rs, w', e) ->
  Forall2 (fun a res => forall d, data res = Some d -> store a = Some d) addrs rs.
Proof.
  induction addrs as [|a addrs IH]; intros w rs w' e Hc Hrun.
  - injection Hrun as <- _ _. constructor.
  - simpl in Hrun. unfold bind at 1, try_catch, bind at 1 in Hrun.
    destruct (fetchData a r w) as [[[got|err] w1] e1] eqn:E; simpl in Hrun;
      destruct (fetchEach_total r addrs w1) as (rs1 & w2 & e2 & Hrun1 & _ & _);
      unfold bind in Hrun; rewrite Hrun1 in Hrun; simpl in Hrun;
      injection Hrun as <- _ _; constructor; try (eapply IH; eauto); simpl.
    + intros d ->. eapply fetchData_consistent; eauto.
    + discriminate.
Qed.

Lemma mcFrom_success addrs k : forall rem i r w w1 rs w2,
  aggregateFails k addrs w = Some w1 ->
  aggregate3 addrs w1 = (Some rs, w2) ->
  k < rem -> i + rem = r ->
  mcFrom rem i r addrs w
  = (Ok (Some (map Net.parseSlot rs)), w2,
     failedAggregates addrs i k ++ [EvAggregate addrs]).
Proof.
  induction k as [|k IH]; intros rem i r w w1 rs w2 Hf Hr Hlt Hir.
  - destruct rem as [|rem]; [lia|]. simpl in Hf. injection Hf as <-.
    simpl. unfold try_catch, bind, Net.rpcAggregate. rewrite Hr. reflexivity.
  - destruct rem as [|rem]; [lia|]. simpl in Hf.
    destruct (aggregate3 addrs w) as [[d0|] w0] eqn:E; [discriminate|].
    simpl. unfold try_catch, bind at 1, Net.rpcAggregate. rewrite E.
    destruct (Nat.eqb_spec i (r - 1)) as [->|_]; [lia|].
    unfold bind, sleep, emit.
    rewrite (IH rem (S i) r w0 w1 rs w2 Hf Hr ltac:(lia) ltac:(lia)).
    reflexivity.
Qed.

Lemma mcFrom_exhausted addrs : forall rem i r w w1 rs w2 e,
  aggregateFails rem addrs w = Some w1 ->
  fetchEach addrs r w1 = (Ok rs, w2, e) ->
  0 < rem -> i + rem = r ->
  mcFrom rem i r addrs w
  = (Ok (Some rs), w2,
     failedAggregates addrs i (rem - 1) ++ EvAggregate addrs :: e).
Proof.
  induction rem as [|rem IH]; intros i r w w1 rs w2 e Hf Hrun Hpos Hir; [lia|].
  simpl in Hf. destruct (aggregate3 addrs w) as [[d0|] w0] eqn:E; [discriminate|].
  simpl. unfold try_catch, bind at 1, Net.rpcAggregate. rewrite E.
  destruct (Nat.eqb_spec i (r - 1)) as [Heq|Hne].
  - assert (rem = 0) as -> by lia. simpl in Hf. injection Hf as <-.
    unfold bind. rewrite Hrun. simpl. rewrite app_nil_r. reflexivity.
  - destruct rem as [|rem]; [lia|].
    unfold bind, sleep, emit.
    rewrite (IH (S i) r w0 w1 rs w2 e Hf Hrun ltac:(lia) ltac:(lia)).
    simpl. rewrite Nat.sub_0_r. reflexivity.
Qed.

Lemma aggregate_cases addrs : forall rem w,
  (exists k w1 rs w2, k < rem /\ aggregateFails k addrs w = Some w1 /\
                      aggregate3 addrs w1 = (Some rs, w2)) \/
  (exists w', aggregateFails rem addrs w = Some w').
Proof.
  induction rem as [|rem IH]; intros w.
  - right. exists w. reflexivity.
  - destruct (aggregate3 addrs w) as [[rs|] w0] eqn:E.
    + left. exists 0, w, rs, w0. simpl. split; [lia|]. split; [reflexivity|exact E].
    + destruct (IH w0) as [(k & w1 & rs & w2 & Hk & Hf & Hr)|(w' & Hf)].
      * left. exists (S k), w1, rs, w2. split; [lia|]. split; [|exact Hr].
        simpl. rewrite E. exact Hf.
      * right. exists w'. simpl. rewrite E. exact Hf.
Qed.

(** [fetchChunksBatch] never throws; with a positive number of attempts it
    returns an array, of the length of its input when the reader is
    aligned. *)
Lemma fetchBatch_total addrs r w :
  0 < r ->
  exists rs w' e, fetchBatch addrs r w = (Ok (Some rs), w', e) /\
    Forall netEvent e /\ (aligned -> length rs = length addrs).
Proof.
  intros Hr. unfold Net.fetchChunksBatch.
  destruct (negb USE_MULTICALL || (length addrs =? 0)) eqn:Hsw.
  - destruct (fetchEach_total r addrs w) as (rs & w' & e & Hrun & Hlen & Hn).
    exists rs, w', e. unfold bind. rewrite Hrun. simpl. rewrite app_nil_r. auto.
  - destruct (aggregate_cases addrs r w)
      as [(k & w1 & rs & w2 & Hk & Hf & Hrd)|(w1 & Hf)].
    + eexists _, _, _. split; [eapply mcFrom_success; eauto|].
      split.
      * apply Forall_app; split; [apply failedAggregates_net|repeat constructor].
      * intros Hal. rewrite length_map. eapply Hal; eauto.
    + destruct (fetchEach_total r addrs w1) as (rs & w' & e & Hrun & Hlen & Hn).
      eexists _, _, _. split; [eapply mcFrom_exhausted; eauto|].
      split; [|auto].
      apply Forall_app; split; [apply failedAggregates_net|].
      constructor; [exact I|assumption].
Qed.

Lemma parseSlot_data s d :
  data (Net.parseSlot s) = Some d ->
  slotSuccess s = true /\ returnData s = Encoded d.
Proof.
  unfold Net.parseSlot. destruct (slotSuccess s), (returnData s); simpl; try discriminate.
  intros [= ->]. auto.
Qed.

Lemma consistentSlots_aligned store : consistentSlots store -> aligned.
Proof. intros Hs addrs w rs w' H. symmetry. eapply Forall2_length, Hs, H. Qed.

(** Over a reader consistent with the tree, whatever [fetchChunksBatch]
    returns as the data of an address is the payload of that address. *)
Lemma fetchBatch_consistent store addrs r w rs w' e :
  consistent store -> consistentSlots store ->
  fetchBatch addrs r w = (Ok (Some rs), w', e) ->
  Forall2 (fun a res => forall d, data res = Some d -> store a = Some d) addrs rs.
Proof.
  intros Hc Hs Hrun. unfold Net.fetchChunksBatch in Hrun.
  destruct (negb USE_MULTICALL || (length addrs =? 0)).
  - unfold bind in Hrun.
    destruct (fetchEach addrs r w) as [[[rs0|err] w0] e0] eqn:E; [|discriminate].
    injection Hrun as <- _ _. eapply fetchEach_consistent; eauto.
  - destruct (aggregate_cases addrs r w)
      as [(k & w1 & slots & w2 & Hk & Hf & Hrd)|(w1 & Hf)].
    + destruct r as [|r]; [lia|].
      rewrite (mcFrom_success addrs k (S r) 0 (S r) w w1 slots w2 Hf Hrd Hk eq_refl) in Hrun.
      injection Hrun as <- _ _.
      apply Forall2_fmap_r. eapply Forall2_impl; [exact (Hs _ _ _ _ Hrd)|].
      intros a s Hd d Hdata. apply parseSlot_data in Hdata as [H1 H2]. auto.
    + destruct r as [|r].
      * simpl in Hrun. discriminate.
      * destruct (fetchEach_total (S r) addrs w1) as (rs0 & w0 & e0 & Hrun0 & _ & _).
        rewrite (mcFrom_exhausted addrs (S r) 0 (S r) w w1 rs0 w0 e0 Hf Hrun0
                   ltac:(lia) eq_refl) in Hrun.
        injection Hrun as <- _ _. eapply fetchEach_consistent; eauto.
Qed.

End NetFacts.

(** ** Discovery *)
Section DiscoveryFacts.
Context {World : Type} `{RR : RemoteReader World}.

Local Abbreviation traverseNode := (Loader.traverseNode (World := World)).
Local Abbreviation fetchData := (Net.fetchChunkData (World := World) 200 2000).

Lemma numbered_app start l1 l2 :
  Tree.numbered start (l1 ++ l2)
  = Tree.numbered start l1 ++ Tree.numbered (start + length l1) l2.
Proof.
  unfold Tree.numbered. rewrite imap_app. f_equal.
  apply imap_ext. intros i a _. simpl. f_equal. lia.
Qed.

Lemma numbered_index start l :
  map index (Tree.numbered start l) = seq start (length l).
Proof.
  revert start. induction l as [|a l IH]; intros start; [reflexivity|].
  change (a :: l) with ([a] ++ l). rewrite numbered_app. simpl.
  rewrite IH. f_equal; [lia|f_equal; lia].
Qed.

Lemma numbered_address start l : map address (Tree.numbered start l) = l.
Proof.
  revert start. induction l as [|a l IH]; intros start; [reflexivity|].
  change (a :: l) with ([a] ++ l). rewrite numbered_app. simpl.
  rewrite IH. reflexivity.
Qed.

Lemma numbered_length start l : length (Tree.numbered start l) = length l.
Proof. unfold Tree.numbered. apply length_imap. Qed.

(** Inversion of one branch step that returns. *)
Lemma traverse_branch_ok d a sc w sc' w' e :
  traverseNode (S d) a sc w = (Ok sc', w', e) ->
  exists payload w1 e1 e2,
    fetchData a 3 w = (Ok (Some payload), w1, e1) /\
    foldM (traverseNode d) (Net.childAddrs payload) sc w1 = (Ok sc', w', e2) /\
    e = e1 ++ e2.
Proof.
  simpl. unfold try_catch, bind at 1.
  destruct (fetchData a 3 w) as [[[[payload|]|err] w1] e1] eqn:E; simpl.
  - destruct (foldM _ _ sc w1) as [[[sc2|err] w2] e2] eqn:F.
    + intros [= <- <- <-]. eauto 10.
    + unfold bind, log, emit, throw. simpl. discriminate.
  - unfold bind, log, emit, throw. simpl. discriminate.
  - unfold bind, log, emit, throw. simpl. discriminate.
Qed.

Lemma foldM_cons_ok {A S} (f : A -> S -> M World S) x l s w s' w' e :
  foldM f (x :: l) s w = (Ok s', w', e) ->
  exists s1 w1 e1 e2, f x s w = (Ok s1, w1, e1) /\
    foldM f l s1 w1 = (Ok s', w', e2) /\ e = e1 ++ e2.
Proof.
  simpl. unfold bind. destruct (f x s w) as [[[s1|err] w1] e1]; [|discriminate].
  destruct (foldM f l s1 w1) as [[[s2|err] w2] e2] eqn:F; [|discriminate].
  intros [= <- <- <-]. exists s1, w1, e1, e2. auto.
Qed.

Section Sound.
Variable store : Address -> option bytes.
Hypothesis Hc : consistent store.

Lemma traverse_sound : forall d a sc w sc' w' e,
  traverseNode d a sc w = (Ok sc', w', e) ->
  Loader.leaves sc' = Loader.leaves sc
               ++ Tree.numbered (Loader.currentIndex sc) (Tree.treeLeaves store d a) /\
  Loader.currentIndex sc' = Loader.currentIndex sc + length (Tree.treeLeaves store d a).
Proof using Hc.
  induction d as [|d IH]; intros a sc w sc' w' e Hrun.
  - injection Hrun as <- _ _. simpl. split; [|lia].
    unfold Tree.numbered. simpl. rewrite Nat.add_0_r. reflexivity.
  - apply traverse_branch_ok in Hrun
      as (payload & w1 & e1 & e2 & Hfetch & Hfold & _).
    apply (fetchData_consistent 200 2000 store) in Hfetch; [|exact Hc].
    simpl. rewrite Hfetch. clear Hfetch.
    revert sc w1 e2 Hfold.
    induction (Net.childAddrs payload) as [|c cs IHc]; intros sc w1 e2 Hfold.
    + injection Hfold as <- _ _. simpl. rewrite app_nil_r. split; [reflexivity|lia].
    + apply foldM_cons_ok in Hfold as (s1 & w2 & e3 & e4 & Hc1 & Hrest & _).
      apply IH in Hc1 as [Hl1 Hi1].
      apply IHc in Hrest as [Hl2 Hi2].
      simpl. rewrite numbered_app, length_app. split.
      * rewrite Hl2, Hl1, Hi1, <- app_assoc. reflexivity.
      * lia.
Qed.

Lemma collect_sound root depth w lvs w' e :
  Loader.collectLeafAddresses root depth w = (Ok lvs, w', e) ->
  lvs = Tree.numbered 0 (Tree.treeLeaves store depth root).
Proof using Hc.
  unfold Loader.collectLeafAddresses, bind.
  destruct (Loader.traverseNode depth root _ w) as [[[sc|err] w1] e1] eqn:E;
    [|discriminate].
  intros [= <- _ _]. apply traverse_sound in E as [-> _]. reflexivity.
Qed.
End Sound.

Section Total.
Variable store : Address -> option bytes.
Variable good : World -> Prop.
Hypothesis Hef : errorFree store good.

Lemma fetchData_errorFree base cap a payload r w :
  good w -> store a = Some payload -> 0 < r ->
  exists w', Net.fetchChunkData base cap a r w = (Ok (Some payload), w', [EvRead a])
             /\ good w'.
Proof using Hef.
  intros Hg Hs Hr. destruct (ef_read _ _ Hef a w Hg) as (w' & Hrd & Hg').
  rewrite Hs in Hrd. exists w'. split; [|exact Hg'].
  unfold Net.fetchChunkData.
  apply (fetchFrom_success base cap a 0 r 0 r w w payload w'); auto.
Qed.

Lemma traverse_total : forall d a sc w,
  good w -> Tree.treeReadable store d a ->
  exists w' e,
    traverseNode d a sc w
    = (Ok {| Loader.leaves :=
               Loader.leaves sc
               ++ Tree.numbered (Loader.currentIndex sc) (Tree.treeLeaves store d a);
             Loader.currentIndex :=
               Loader.currentIndex sc + length (Tree.treeLeaves store d a) |},
       w', e) /\ good w'.
Proof using Hef.
  induction d as [|d IH]; intros a sc w Hg Hread.
  - eexists w, _. split; [|exact Hg]. simpl. unfold ret.
    unfold Tree.numbered. simpl. rewrite Nat.add_0_r, Nat.add_1_r. reflexivity.
  - simpl in Hread. destruct (store a) as [payload|] eqn:Hs; [|contradiction].
    destruct (fetchData_errorFree 200 2000 a payload 3 w Hg Hs ltac:(lia))
      as (w1 & Hfetch & Hg1).
    simpl. unfold try_catch, bind at 1. rewrite Hfetch, Hs. simpl.
    assert (exists w' e,
               foldM (traverseNode d) (Net.childAddrs payload) sc w1
               = (Ok {| Loader.leaves :=
                          Loader.leaves sc
                          ++ Tree.numbered (Loader.currentIndex sc)
                               (flat_map (Tree.treeLeaves store d) (Net.childAddrs payload));
                        Loader.currentIndex :=
                          Loader.currentIndex sc
                          + length (flat_map (Tree.treeLeaves store d)
                                      (Net.childAddrs payload)) |}, w', e)
               /\ good w') as (w' & e & Hfold & Hg').
    { clear Hfetch. revert sc w1 Hg1.
      induction Hread as [|c cs Hc _ IHc]; intros sc w1 Hg1.
      - eexists w1, _. split; [|exact Hg1]. simpl. unfold ret.
        rewrite app_nil_r, Nat.add_0_r. destruct sc; reflexivity.
      - destruct (IH c sc w1 Hg1 Hc) as (w2 & e1 & Hrun & Hg2).
        simpl. unfold bind. rewrite Hrun.
        match goal with
        | |- context [foldM _ cs ?sc1 w2] =>
            destruct (IHc sc1 w2 Hg2) as (w3 & e2 & Hrest & Hg3)
        end.
        rewrite Hrest. simpl.
        eexists w3, _. split; [|exact Hg3].
        rewrite numbered_app, length_app, <- app_assoc, Nat.add_assoc. reflexivity. }
    rewrite Hfold. eauto.
Qed.

Lemma collect_total root depth w :
  good w -> Tree.treeReadable store depth root ->
  exists w' e,
    Loader.collectLeafAddresses root depth w
    = (Ok (Tree.numbered 0 (Tree.treeLeaves store depth root)), w', e) /\ good w'.
Proof using Hef.
  intros Hg Hread.
  destruct (traverse_total depth root
              {| Loader.leaves := []; Loader.currentIndex := 0 |} w Hg Hread)
    as (w' & e & Hrun & Hg').
  unfold Loader.collectLeafAddresses, bind. rewrite Hrun. simpl.
  eexists w', _. split; [reflexivity|exact Hg'].
Qed.
End Total.

(** Whatever the reads return, the indices of a finished walk are
    consecutive from the counter. *)
Lemma traverse_indices : forall d a sc w sc' w' e,
  traverseNode d a sc w = (Ok sc', w', e) ->
  exists new, Loader.leaves sc' = Loader.leaves sc ++ new /\
    map index new = seq (Loader.currentIndex sc) (length new) /\
    Loader.currentIndex sc' = Loader.currentIndex sc + length new.
Proof.
  induction d as [|d IH]; intros a sc w sc' w' e Hrun.
  - injection Hrun as <- _ _. simpl. eexists [_]. split; [reflexivity|].
    split; [reflexivity|simpl; lia].
  - apply traverse_branch_ok in Hrun
      as (payload & w1 & e1 & e2 & _ & Hfold & _).
    revert sc w1 e2 Hfold.
    induction (Net.childAddrs payload) as [|c cs IHc]; intros sc w1 e2 Hfold.
    + injection Hfold as <- _ _. exists []. rewrite app_nil_r. simpl.
      split; [reflexivity|]. split; [reflexivity|lia].
    + apply foldM_cons_ok in Hfold as (s1 & w2 & e3 & e4 & Hc1 & Hrest & _).
      apply IH in Hc1 as (n1 & Hl1 & Hx1 & Hi1).
      apply IHc in Hrest as (n2 & Hl2 & Hx2 & Hi2).
      exists (n1 ++ n2). rewrite Hl2, Hl1, <- app_assoc. split; [reflexivity|].
      rewrite map_app, length_app, seq_app, Hx1, Hx2, Hi1. split; [reflexivity|lia].
Qed.

Lemma collect_indices root depth w lvs w' e :
  Loader.collectLeafAddresses root depth w = (Ok lvs, w', e) ->
  map index lvs = seq 0 (length lvs).
Proof.
  unfold Loader.collectLeafAddresses, bind.
  destruct (Loader.traverseNode depth root _ w) as [[[sc|err] w1] e1] eqn:E;
    [|discriminate].
  intros [= <- _ _]. apply traverse_indices in E as (new & Hl & Hx & _).
  simpl in Hl. rewrite Hl. exact Hx.
Qed.

(** *** Unreadable branch nodes *)

Lemma foldM_throw {A S} (f : A -> S -> M World S) pre c post s w s1 w1 e1 err w2 e2 :
  foldM f pre s w = (Ok s1, w1, e1) ->
  f c s1 w1 = (Throw err, w2, e2) ->
  foldM f (pre ++ c :: post) s w = (Throw err, w2, e1 ++ e2).
Proof.
  revert s w e1. induction pre as [|x pre IH]; intros s w e1 Hpre Hc.
  - injection Hpre as <- <- <-. simpl. unfold bind. rewrite Hc. reflexivity.
  - apply foldM_cons_ok in Hpre as (s0 & w0 & e0 & e3 & Hx & Hrest & ->).
    simpl. unfold bind. rewrite Hx.
    rewrite (IH _ _ _ Hrest Hc). rewrite app_assoc. reflexivity.
Qed.

Lemma foldM_throw_inv {A S} (f : A -> S -> M World S) : forall l s w err w2 e,
  foldM f l s w = (Throw err, w2, e) ->
  exists pre c post s1 w1 e1 e2,
    l = pre ++ c :: post /\ foldM f pre s w = (Ok s1, w1, e1) /\
    f c s1 w1 = (Throw err, w2, e2) /\ e = e1 ++ e2.
Proof.
  induction l as [|x l IH]; intros s w err w2 e Hrun; [discriminate|].
  simpl in Hrun. unfold bind in Hrun.
  destruct (f x s w) as [[[s0|err0] w0] e0] eqn:Hx.
  - destruct (foldM f l s0 w0) as [[[s3|err3] w3] e3] eqn:Hl; [discriminate|].
    injection Hrun as <- <- <-.
    destruct (IH _ _ _ _ _ Hl) as (pre & c & post & s1 & w1 & e1 & e2 & -> & Hp & Hc & ->).
    exists (x :: pre), c, post, s1, w1, (e0 ++ e1), e2.
    split; [reflexivity|]. split; [|split; [exact Hc|apply app_assoc]].
    simpl. unfold bind. rewrite Hx, Hp. reflexivity.
  - injection Hrun as <- <- <-.
    exists [], x, l, s, w, [], e0. repeat split. exact Hx.
Qed.

Lemma traverse_unreadable : forall d a sc w,
  unreadableBranch d a sc w ->
  exists w' e, traverseNode d a sc w = (Throw RpcError, w', e).
Proof.
  intros d a sc w H. induction H as
    [d a sc w w' Hf
    |d a sc w payload w1 e1 pre c post sc1 w2 e2 Hfetch Hsplit Hpre _ (w3 & e3 & IH)].
  - simpl. unfold try_catch, bind at 1.
    pose proof (fetchFrom_exhausted 200 2000 a 3 0 3 w w' Hf ltac:(lia) eq_refl) as Hx.
    unfold Net.fetchChunkData. rewrite Hx. unfold bind, log, emit, throw. simpl. eauto.
  - simpl. unfold try_catch, bind at 1. rewrite Hfetch. simpl. rewrite Hsplit.
    rewrite (foldM_throw _ _ _ _ _ _ _ _ _ _ _ _ Hpre IH).
    unfold bind, log, emit, throw. simpl. eauto.
Qed.

Lemma traverse_throw_inv : forall d a sc w err w' e,
  traverseNode d a sc w = (Throw err, w', e) ->
  err = RpcError /\ unreadableBranch d a sc w.
Proof.
  induction d as [|d IH]; intros a sc w err w' e Hrun; [discriminate|].
  simpl in Hrun. unfold try_catch, bind at 1 in Hrun.
  destruct (fetchData_cases 200 2000 a 3 w ltac:(lia))
    as [(k & w1 & payload & w2 & _ & _ & _ & Heq)|(w2 & Hf & Heq)];
    rewrite Heq in Hrun; simpl in Hrun.
  - destruct (foldM _ _ sc w2) as [[[s3|err3] w3] e3] eqn:Hfold; [discriminate|].
    unfold bind, log, emit, throw in Hrun. simpl in Hrun.
    injection Hrun as <- <- <-.
    apply foldM_throw_inv in Hfold
      as (pre & c & post & s1 & w4 & e1 & e2 & Hsplit & Hp & Hc & _).
    apply IH in Hc as [-> Hun]. split; [reflexivity|].
    eapply unreadable_below; eauto.
  - unfold bind, log, emit, throw in Hrun. simpl in Hrun.
    injection Hrun as <- <- <-. split; [reflexivity|].
    eapply unreadable_here; eauto.
Qed.

End DiscoveryFacts.

(** *** Deployed trees *)
Section DeployedTrees.

(** Twenty-byte addresses laid end to end are cut apart again by the
    loaders. *)
Lemma childAddrs_concat (g : list Address) :
  Forall (fun a => length a = 20) g -> Net.childAddrs (concat g) = g.
Proof.
  intros Hg. unfold Net.childAddrs.
  assert (length (concat g) = 20 * length g) as Hlen.
  { induction Hg as [|a g Ha _ IH]; [reflexivity|]. simpl. rewrite length_app. lia. }
  rewrite Hlen.
  replace ((20 * length g + 19) / 20) with (length g).
  2:{ symmetry. replace (20 * length g + 19) with (19 + length g * 20) by lia.
      rewrite Nat.div_add by lia. reflexivity. }
  clear Hlen. induction Hg as [|a g Ha _ IH]; [reflexivity|].
  simpl length. rewrite <- cons_seq. rewrite map_cons. f_equal.
  - unfold slice. change (concat (a :: g)) with (a ++ concat g).
    replace (20 * 0 + 20 - 20 * 0) with (length a) by lia.
    rewrite drop_0. apply take_app_length.
  - rewrite <- fmap_S_seq. change (S <$> seq 0 (length g)) with (map S (seq 0 (length g))).
    rewrite map_map. change (concat (a :: g)) with (a ++ concat g).
    rewrite <- IH at 2.
    apply map_ext. intros k. unfold slice.
    replace (20 * S k) with (length a + 20 * k) by lia.
    rewrite <- drop_drop, drop_app_length. f_equal. lia.
Qed.

(** For a deployed tree, the leaves the loaders reach from the root are the
    leaves of the tree, in their order, and every node on the way is
    readable. *)
Lemma deployed_leaves store : forall d t,
  deployedAt store d t ->
  Tree.treeReadable store d (rootOf t) /\
  Tree.treeLeaves store d (rootOf t) = leavesOf t.
Proof.
  induction d as [|d IH]; intros [a|a children] Hd; simpl in Hd; try contradiction.
  - split; [exact I|reflexivity].
  - destruct Hd as (Hs & H20 & Hall). simpl. rewrite Hs.
    rewrite childAddrs_concat by (apply Forall_fmap; exact H20).
    split.
    + apply Forall_fmap. eapply Forall_impl; [exact Hall|].
      intros c Hc. apply (IH c Hc).
    + clear Hs H20. induction Hall as [|c l Hc _ IHl]; [reflexivity|].
      simpl. rewrite (proj2 (IH c Hc)), IHl. reflexivity.
Qed.

End DeployedTrees.

(** ** Batch loading, retry rounds and assembly *)
Section LoaderFacts.
Context {World : Type} `{RR : RemoteReader World}.
Variable USE_MULTICALL : bool.
Variable BATCH_SIZE : nat.

Local Abbreviation fetchData := (Net.fetchChunkData (World := World) 200 2000).
Local Abbreviation fetchBatch := (Net.fetchChunksBatch (World := World) USE_MULTICALL 200 2000).
Local Abbreviation loadFrom := (Loader.loadFrom (World := World) USE_MULTICALL BATCH_SIZE).

(** The log lines of the failed leaves of a batch. *)
Local Abbreviation failLogs batch rs :=
  (map (fun l => EvLog (LogChunkFailed (index l + 1))) (koLeaves batch rs)).

Lemma okChunks_cons l batch r rs :
  okChunks (l :: batch) (r :: rs)
  = match chunkOf l r with
    | Some c => c :: okChunks batch rs
    | None => okChunks batch rs
    end.
Proof. reflexivity. Qed.

Lemma koLeaves_cons l batch r rs :
  koLeaves (l :: batch) (r :: rs)
  = match chunkOf l r with
    | Some c => koLeaves batch rs
    | None => l :: koLeaves batch rs
    end.
Proof. unfold koLeaves. simpl. destruct (chunkOf l r); reflexivity. Qed.

(** With no more results than leaves, the loop over the results raises
    nothing: it pushes the chunks of the results that carry data, and the
    leaves of the others, each with its log line. *)
Lemma processResults_spec : forall rs batch idx acc (w : World),
  length rs <= length (drop idx batch) ->
  Loader.processResults batch rs idx acc w
  = (Ok ({| Loader.chunks := Loader.chunks acc ++ okChunks (drop idx batch) rs;
            Loader.failed := Loader.failed acc
                             ++ map Some (koLeaves (drop idx batch) rs) |}, None),
     w, failLogs (drop idx batch) rs).
Proof.
  induction rs as [|r rs IH]; intros batch idx acc w Hlen.
  - simpl. unfold okChunks, koLeaves. rewrite zip_with_nil_r. simpl.
    rewrite !app_nil_r. destruct acc; reflexivity.
  - simpl in Hlen. destruct (batch !! idx) as [leaf|] eqn:Hl.
    2:{ apply lookup_ge_None in Hl. rewrite (drop_ge _ _ Hl) in Hlen. simpl in Hlen. lia. }
    rewrite (drop_S _ _ _ Hl) in *. simpl in Hlen.
    rewrite okChunks_cons, koLeaves_cons.
    cbn [Loader.processResults]. rewrite Hl. unfold chunkOf.
    destruct (success r), (data r); simpl;
      try (rewrite IH by lia; simpl; rewrite <- !app_assoc; reflexivity);
      unfold bind, log, emit; rewrite IH by lia; simpl; rewrite <- !app_assoc;
      reflexivity.
Qed.

(** In any case the loop returns, with the exception it met, if any; it
    leaves the network alone and only logs. *)
Lemma processResults_total : forall rs batch idx acc (w : World),
  exists acc' err e,
    Loader.processResults batch rs idx acc w = (Ok (acc', err), w, e) /\
    Forall (fun ev => exists n, ev = EvLog (LogChunkFailed n)) e.
Proof.
  induction rs as [|r rs IH]; intros batch idx acc w.
  - exists acc, None, []. split; [reflexivity|constructor].
  - cbn [Loader.processResults].
    destruct (batch !! idx) as [leaf|], (success r), (data r);
      try (eexists _, _, []; split; [reflexivity|constructor]);
      try apply IH;
      match goal with
      | |- context [Loader.processResults batch rs (S idx) ?a] =>
          destruct (IH batch (S idx) a w) as (acc' & err & e & Hrun & He)
      end;
      unfold bind, log, emit; rewrite Hrun; simpl;
      eexists _, _, _; (split; [reflexivity|]); constructor; eauto.
Qed.

Lemma chunkOf_index l r c : chunkOf l r = Some c -> chunkIndex c = index l.
Proof.
  unfold chunkOf. destruct (success r), (data r); try discriminate.
  intros [= <-]. reflexivity.
Qed.

Lemma ok_ko_perm : forall batch rs,
  length rs = length batch ->
  map chunkIndex (okChunks batch rs) ++ map index (koLeaves batch rs)
  ≡ₚ map index batch.
Proof.
  induction batch as [|l batch IH]; intros [|r rs] Hlen; try discriminate.
  - reflexivity.
  - injection Hlen as Hlen. specialize (IH rs Hlen).
    rewrite okChunks_cons, koLeaves_cons.
    destruct (chunkOf l r) as [c|] eqn:Hc.
    + apply chunkOf_index in Hc. simpl. rewrite Hc. constructor. exact IH.
    + simpl. rewrite <- Permutation_middle. constructor. exact IH.
Qed.

Lemma batch_split (lvs : list Leaf) i :
  drop i lvs
  = slice i (Nat.min (i + BATCH_SIZE) (length lvs)) lvs ++ drop (i + BATCH_SIZE) lvs.
Proof.
  unfold slice.
  destruct (Nat.le_ge_cases (i + BATCH_SIZE) (length lvs)) as [Hle|Hge].
  - rewrite Nat.min_l by exact Hle.
    replace (i + BATCH_SIZE - i) with BATCH_SIZE by lia.
    rewrite <- (take_drop BATCH_SIZE (drop i lvs)) at 1.
    rewrite drop_drop. reflexivity.
  - rewrite Nat.min_r by exact Hge.
    rewrite (drop_ge lvs (i + BATCH_SIZE)) by exact Hge. rewrite app_nil_r.
    rewrite take_ge; [reflexivity|]. rewrite length_drop. lia.
Qed.

Lemma koLeaves_sublist : forall batch rs, koLeaves batch rs `sublist_of` batch.
Proof.
  induction batch as [|l batch IH]; intros [|r rs]; try apply sublist_nil_l.
  rewrite koLeaves_cons. destruct (chunkOf l r).
  - apply sublist_cons, IH.
  - apply sublist_skip, IH.
Qed.

(** The chunk of a result carries what the reader gave for the address of
    its leaf. *)
Lemma okChunks_data store : forall (batch : list Leaf) rs,
  Forall2 (fun a res => forall d, data res = Some d -> store a = Some d)
          (map address batch) rs ->
  Forall (fun c => exists l, l ∈ batch /\ chunkIndex c = index l /\
                             store (address l) = Some (chunkData c))
         (okChunks batch rs).
Proof.
  induction batch as [|l batch IH]; intros rs H.
  - constructor.
  - inversion H as [|a r la lr Hd Hrest]; subst.
    rewrite okChunks_cons.
    assert (Forall (fun c => exists l0, l0 ∈ l :: batch /\ chunkIndex c = index l0 /\
                                        store (address l0) = Some (chunkData c))
                   (okChunks batch lr)) as Htl.
    { eapply Forall_impl; [exact (IH lr Hrest)|].
      intros c (l0 & Hin & Hi & Hs). exists l0. split; [right; exact Hin|auto]. }
    destruct (chunkOf l r) as [c|] eqn:Hc; [|exact Htl].
    constructor; [|exact Htl]. exists l. split; [left|].
    unfold chunkOf in Hc. destruct (success r), (data r) as [d|] eqn:Hdata; try discriminate.
    injection Hc as <-. simpl. split; [reflexivity|]. apply Hd. reflexivity.
Qed.

(** The batch phase never throws; for an aligned reader every leaf from
    position [i] on ends either in [chunks] or in [failed], once; a leaf
    that ends in [failed] has its log line; and over a reader consistent
    with the tree a chunk holds the payload of its leaf. *)
Lemma loadFrom_spec :
  aligned -> 0 < BATCH_SIZE ->
  forall fuel i lvs acc w,
    length lvs - i <= fuel ->
    exists ok ko w' e,
      loadFrom fuel i lvs acc w
      = (Ok {| Loader.chunks := Loader.chunks acc ++ ok;
               Loader.failed := Loader.failed acc ++ map Some ko |}, w', e) /\
      map chunkIndex ok ++ map index ko ≡ₚ map index (drop i lvs) /\
      ko `sublist_of` drop i lvs /\
      (forall l, l ∈ ko -> EvLog (LogChunkFailed (index l + 1)) ∈ e) /\
      (forall store, consistent store -> consistentSlots store ->
         Forall (fun c => exists l, l ∈ drop i lvs /\ chunkIndex c = index l /\
                                    store (address l) = Some (chunkData c)) ok).
Proof.
  intros Hal HB. induction fuel as [|fuel IH]; intros i lvs acc w Hfuel.
  - exists [], [], w, []. simpl. rewrite !app_nil_r. split; [destruct acc; reflexivity|].
    rewrite drop_ge by lia. split; [reflexivity|]. split; [reflexivity|].
    split; [intros l Hl; inversion Hl|]. intros; constructor.
  - simpl. destruct (Nat.ltb_spec i (length lvs)) as [Hi|Hi].
    + set (batch := slice i (Nat.min (i + BATCH_SIZE) (length lvs)) lvs).
      destruct (fetchBatch_total USE_MULTICALL 200 2000 (map address batch) 2 w ltac:(lia))
        as (rs & w1 & e1 & Hrun & _ & Hlen).
      specialize (Hlen Hal). rewrite length_map in Hlen.
      unfold bind at 1, try_catch, bind at 1. rewrite Hrun. simpl.
      unfold bind at 1. rewrite processResults_spec by (rewrite drop_0; lia).
      simpl. rewrite drop_0.
      set (acc1 := {| Loader.chunks := _; Loader.failed := _ |}).
      destruct (IH (i + BATCH_SIZE) lvs acc1 w1 ltac:(lia))
        as (ok & ko & w2 & e2 & Hrest & Hperm & Hsub & Hlog & Hdata).
      assert (forall store, consistent store -> consistentSlots store ->
                Forall (fun c => exists l, l ∈ drop i lvs /\ chunkIndex c = index l /\
                                           store (address l) = Some (chunkData c))
                       (okChunks batch rs ++ ok)) as Hdata'.
      { intros store Hc Hs. rewrite (batch_split lvs i). fold batch.
        apply Forall_app. split.
        - eapply Forall_impl;
            [apply (okChunks_data store),
                   (fetchBatch_consistent USE_MULTICALL 200 2000 store _ _ _ _ _ _ Hc Hs Hrun)|].
          intros c (l & Hin & Hx). exists l. split; [|exact Hx].
          apply elem_of_app. left. exact Hin.
        - eapply Forall_impl; [exact (Hdata store Hc Hs)|].
          intros c (l & Hin & Hx). exists l. split; [|exact Hx].
          apply elem_of_app. right. exact Hin. }
      assert (exists p, (if i + BATCH_SIZE <? length lvs then sleep 100 else ret tt) w1
                        = (Ok tt, w1, p)) as [p Hp]
        by (destruct (i + BATCH_SIZE <? length lvs); eexists; reflexivity).
      unfold bind. rewrite Hp, Hrest.
      exists (okChunks batch rs ++ ok), (koLeaves batch rs ++ ko), w2.
      eexists. split; [subst acc1; simpl; rewrite map_app, <- !app_assoc; reflexivity|].
      split.
      { rewrite (batch_split lvs i). fold batch.
        rewrite !map_app, <- (ok_ko_perm batch rs Hlen), <- Hperm. solve_Permutation. }
      split.
      { rewrite (batch_split lvs i). fold batch.
        apply sublist_app; [apply koLeaves_sublist|exact Hsub]. }
      split; [|exact Hdata'].
      intros l Hl. rewrite !elem_of_app.
      apply elem_of_app in Hl as [Hl|Hl].
      * right. left. apply list_elem_of_fmap. eauto.
      * do 4 right. apply Hlog, Hl.
    + exists [], [], w, []. rewrite !app_nil_r. split; [destruct acc; reflexivity|].
      rewrite drop_ge by lia. split; [reflexivity|]. split; [reflexivity|].
      split; [intros l Hl; inversion Hl|]. intros; constructor.
Qed.

Lemma loadChunks_spec lvs w :
  aligned -> 0 < BATCH_SIZE ->
  exists ld fl w' e,
    Loader.loadChunksInBatches USE_MULTICALL BATCH_SIZE lvs w = (Ok ld, w', e) /\
    Loader.failed ld = map Some fl /\
    map chunkIndex (Loader.chunks ld) ++ map index fl ≡ₚ map index lvs /\
    fl `sublist_of` lvs /\
    (forall l, l ∈ fl -> EvLog (LogChunkFailed (index l + 1)) ∈ e) /\
    (forall store, consistent store -> consistentSlots store ->
       Forall (fun c => exists l, l ∈ lvs /\ chunkIndex c = index l /\
                                  store (address l) = Some (chunkData c))
              (Loader.chunks ld)).
Proof.
  intros Hal HB. unfold Loader.loadChunksInBatches.
  destruct (loadFrom_spec Hal HB (length lvs) 0 lvs
              {| Loader.chunks := []; Loader.failed := [] |} w ltac:(lia))
    as (ok & ko & w' & e & Hrun & Hperm & Hsub & Hlog & Hdata).
  rewrite Hrun. eexists _, ko, _, _. split; [reflexivity|]. split; [reflexivity|].
  rewrite drop_0 in *. auto.
Qed.

(** *** Retry rounds *)

Lemma retryPass_run : forall (q : list Leaf) cs sf w,
  exists new still w' e,
    Loader.retryPass (map Some q) cs sf w
    = (Ok (cs ++ new, sf ++ map Some still), w', e) /\
    PassRun q w new still w' e.
Proof.
  induction q as [|leaf rest IH]; intros cs sf w.
  - exists [], [], w, []. simpl. rewrite !app_nil_r. split; [reflexivity|constructor].
  - destruct (fetchData_cases 200 2000 (address leaf) 3 w ltac:(lia))
      as [(k & w1 & d & w2 & _ & _ & _ & Heq)|(w2 & _ & Heq)].
    + destruct (IH (cs ++ [{| chunkIndex := index leaf; chunkData := d |}]) sf w2)
        as (new & still & w3 & e3 & Hrun & Hpass).
      pose proof (pass_ok _ _ _ _ _ _ _ _ _ _ Heq Hpass) as HP.
      eexists _, _, _, _. split; [|exact HP].
      simpl. unfold bind at 1, try_catch, bind at 1. rewrite Heq. simpl.
      unfold bind, sleep, emit. simpl. rewrite Hrun.
      rewrite <- !app_assoc. reflexivity.
    + destruct (IH cs (sf ++ [Some leaf]) w2) as (new & still & w3 & e3 & Hrun & Hpass).
      pose proof (pass_fail _ _ _ _ _ _ _ _ _ Heq Hpass) as HP.
      eexists _, _, _, _. split; [|exact HP].
      simpl. unfold bind at 1, try_catch, bind at 1. rewrite Heq. simpl.
      unfold bind, sleep, emit, ret. simpl. rewrite Hrun.
      rewrite <- !app_assoc. reflexivity.
Qed.

(** An [undefined] entry of the queue makes the round raise, once the
    leaves before it have been fetched. *)
Lemma retryPass_undefined : forall (q : list Leaf) rest cs sf w,
  exists w' e, Loader.retryPass (map Some q ++ None :: rest) cs sf w
               = (Throw TypeError, w', e).
Proof.
  induction q as [|leaf q IH]; intros rest cs sf w.
  - exists w, []. reflexivity.
  - simpl. unfold bind at 1.
    destruct (try_catch _ _ w) as [[[st|err] w1] e1] eqn:E.
    + unfold bind, sleep, emit. simpl.
      destruct (IH rest st.1 st.2 w1) as (w' & e & Hrun). rewrite Hrun.
      eexists _, _. reflexivity.
    + exfalso. unfold try_catch, bind in E.
      destruct (Net.fetchChunkData 200 2000 (address leaf) 3 w) as [[[[d|]|err0] w0] e0];
        simpl in E; discriminate.
Qed.

Lemma retryRounds_run : forall fuel r (q : list Leaf) cs w,
  r <= 5 -> 5 - r <= fuel ->
  exists new rem w' e k,
    Loader.retryRounds fuel r (map Some q) cs w = (Ok (cs ++ new, map Some rem), w', e) /\
    RoundsRun r q w new rem w' e k.
Proof.
  induction fuel as [|fuel IH]; intros r q cs w Hr Hfuel.
  - exists [], q, w, [], r. simpl. rewrite app_nil_r.
    split; [reflexivity|]. constructor. right. lia.
  - simpl. rewrite length_map.
    destruct (Nat.ltb_spec 0 (length q)) as [Hq|Hq]; simpl.
    + destruct (Nat.ltb_spec r 5) as [Hr5|Hr5].
      * destruct (retryPass_run q cs [] w) as (new1 & still & w1 & e1 & Hpass & HP).
        destruct (IH (S r) still (cs ++ new1) w1 ltac:(lia) ltac:(lia))
          as (new2 & rem & w2 & e2 & k & Hrest & HR).
        unfold bind, log, sleep, emit. simpl. rewrite Hpass. simpl. rewrite Hrest.
        exists (new1 ++ new2), rem, w2. eexists _, k. split.
        -- rewrite app_assoc. reflexivity.
        -- eapply rounds_step; eauto. destruct q; [simpl in Hq; lia|discriminate].
      * exists [], q, w, [], r. rewrite app_nil_r.
        split; [reflexivity|]. constructor. right. lia.
    + exists [], q, w, [], r. rewrite app_nil_r.
      split; [reflexivity|]. constructor. left. destruct q; [reflexivity|simpl in Hq; lia].
Qed.

Lemma PassRun_perm q w new still w' e :
  PassRun q w new still w' e ->
  map chunkIndex new ++ map index still ≡ₚ map index q.
Proof.
  induction 1 as [|leaf rest w d w1 e1 new still w2 e2 _ _ IH
                  |leaf rest w w1 e1 new still w2 e2 _ _ IH]; simpl.
  - reflexivity.
  - constructor. exact IH.
  - rewrite <- Permutation_middle. constructor. exact IH.
Qed.

Lemma PassRun_sublist q w new still w' e :
  PassRun q w new still w' e -> still `sublist_of` q.
Proof.
  induction 1; [constructor|apply sublist_cons; assumption|apply sublist_skip; assumption].
Qed.

Lemma PassRun_alwaysFails q w new still w' e l :
  PassRun q w new still w' e ->
  alwaysFails (address l) -> l ∈ q -> l ∈ still.
Proof.
  intros HP Ha. induction HP as [|leaf rest w d w1 e1 new still w2 e2 Hf _ IH
                                 |leaf rest w w1 e1 new still w2 e2 Hf _ IH];
    intros Hin.
  - exact Hin.
  - apply elem_of_cons in Hin as [->|Hin]; [|auto].
    destruct (fetchData_alwaysFails 200 2000 (address leaf) 3 w Ha ltac:(lia)) as [w3 Hx].
    rewrite Hx in Hf. discriminate.
  - apply elem_of_cons in Hin as [->|Hin]; [left|right; auto].
Qed.

Lemma RoundsRun_bound r q w new rem w' e k :
  RoundsRun r q w new rem w' e k -> r <= 5 ->
  r <= k /\ k <= 5 /\ (rem = [] \/ k = 5).
Proof.
  induction 1 as [r q w Hstop|r q w new1 still1 w1 e1 new2 rem w2 e2 k _ Hr _ _ IH];
    intros Hle.
  - split; [lia|]. split; [lia|]. destruct Hstop as [-> | ->]; auto.
  - destruct (IH ltac:(lia)) as (? & ? & ?). split; [lia|]. auto.
Qed.

Lemma RoundsRun_perm r q w new rem w' e k :
  RoundsRun r q w new rem w' e k ->
  map chunkIndex new ++ map index rem ≡ₚ map index q.
Proof.
  induction 1 as [r q w Hstop|r q w new1 still1 w1 e1 new2 rem w2 e2 k _ _ HP _ IH].
  - reflexivity.
  - rewrite map_app, <- app_assoc, IH. apply (PassRun_perm _ _ _ _ _ _ HP).
Qed.

Lemma RoundsRun_sublist r q w new rem w' e k :
  RoundsRun r q w new rem w' e k -> rem `sublist_of` q.
Proof.
  induction 1 as [r q w Hstop|r q w new1 still1 w1 e1 new2 rem w2 e2 k _ _ HP _ IH].
  - reflexivity.
  - etransitivity; [exact IH|]. eapply PassRun_sublist; eauto.
Qed.

Lemma RoundsRun_alwaysFails r q w new rem w' e k l :
  RoundsRun r q w new rem w' e k -> r <= 5 ->
  alwaysFails (address l) -> l ∈ q -> l ∈ rem /\ k = 5.
Proof.
  intros HR. induction HR as
    [r q w Hstop|r q w new1 still1 w1 e1 new2 rem w2 e2 k _ Hr HP _ IH];
    intros Hle Ha Hin.
  - split; [exact Hin|]. destruct Hstop as [-> | ->]; [|reflexivity].
    apply elem_of_nil in Hin. contradiction.
  - apply IH; [lia|exact Ha|]. eapply PassRun_alwaysFails; eauto.
Qed.

(** Over a reader consistent with the tree, the chunk of a retried leaf
    holds the payload of the leaf. *)
Lemma PassRun_data store q w new still w' e :
  consistent store -> PassRun q w new still w' e ->
  Forall (fun c => exists l, l ∈ q /\ chunkIndex c = index l /\
                             store (address l) = Some (chunkData c)) new.
Proof.
  intros Hc. induction 1 as [|leaf rest w d w1 e1 new still w2 e2 Hf _ IH
                             |leaf rest w w1 e1 new still w2 e2 _ _ IH].
  - constructor.
  - constructor.
    + exists leaf. split; [left|]. split; [reflexivity|]. simpl.
      eapply fetchData_consistent; eauto.
    + eapply Forall_impl; [exact IH|]. intros c (l & Hin & Hx). exists l.
      split; [right; exact Hin|exact Hx].
  - eapply Forall_impl; [exact IH|]. intros c (l & Hin & Hx). exists l.
    split; [right; exact Hin|exact Hx].
Qed.

Lemma RoundsRun_data store r q w new rem w' e k :
  consistent store -> RoundsRun r q w new rem w' e k ->
  Forall (fun c => exists l, l ∈ q /\ chunkIndex c = index l /\
                             store (address l) = Some (chunkData c)) new.
Proof.
  intros Hc. induction 1 as
    [r q w Hstop|r q w new1 still1 w1 e1 new2 rem w2 e2 k _ _ HP _ IH].
  - constructor.
  - apply Forall_app. split; [eapply PassRun_data; eauto|].
    eapply Forall_impl; [exact IH|]. intros c (l & Hin & Hx). exists l.
    split; [|exact Hx]. eapply elem_of_sublist; [exact Hin|].
    eapply PassRun_sublist; eauto.
Qed.

(** [retryFailedChunks] in terms of the rounds. *)
Lemma retryFailed_run (fl : list Leaf) cs w :
  fl <> [] ->
  exists new rem w' e k,
    RoundsRun 0 fl w new rem w' e k /\
    Loader.retryRounds 5 0 (map Some fl) cs w = (Ok (cs ++ new, map Some rem), w', e) /\
    Loader.retryFailedChunks (map Some fl) cs w
    = (Ok (cs ++ new), w',
       e ++ (if 0 <? length rem then [EvLog (LogPermanentlyFailed (length rem))] else [])).
Proof.
  intros Hne.
  destruct (retryRounds_run 5 0 fl cs w ltac:(lia) ltac:(lia))
    as (new & rem & w' & e & k & Hrun & HR).
  exists new, rem, w', e, k. split; [exact HR|]. split; [exact Hrun|].
  unfold Loader.retryFailedChunks.
  destruct fl as [|l fl]; [congruence|].
  change (length (map Some (l :: fl)) =? 0) with false. cbv iota.
  unfold bind at 1. rewrite Hrun. simpl. rewrite length_map.
  destruct (0 <? length rem); unfold bind, log, emit, ret; simpl; rewrite ?app_nil_r;
    reflexivity.
Qed.

(** A queue with an [undefined] entry makes [retryFailedChunks] throw. *)
Lemma retryFailed_undefined (q : list Leaf) rest cs w :
  exists w' e, Loader.retryFailedChunks (map Some q ++ None :: rest) cs w
               = (Throw TypeError, w', e).
Proof.
  unfold Loader.retryFailedChunks.
  replace (length (map Some q ++ None :: rest) =? 0) with false
    by (symmetry; apply Nat.eqb_neq; rewrite length_app; simpl; lia).
  cbn [Loader.retryRounds].
  replace (0 <? length (map Some q ++ None :: rest)) with true
    by (symmetry; apply Nat.ltb_lt; rewrite length_app; simpl; lia).
  simpl. destruct (retryPass_undefined q rest cs [] w) as (w' & e & Hrun).
  unfold bind, log, sleep, emit. simpl. rewrite Hrun. eexists _, _. reflexivity.
Qed.

(** *** Sorting and assembly *)

Lemma insertChunk_perm c l : Loader.insertChunk c l ≡ₚ c :: l.
Proof.
  induction l as [|x l IH]; simpl; [reflexivity|].
  destruct (chunkIndex c <=? chunkIndex x); [reflexivity|].
  rewrite IH. apply perm_swap.
Qed.

Lemma sortByIndex_perm l : Loader.sortByIndex l ≡ₚ l.
Proof.
  induction l as [|x l IH]; simpl; [reflexivity|].
  rewrite insertChunk_perm. constructor. exact IH.
Qed.

Lemma insertChunk_sorted c l :
  sortedChunks l -> sortedChunks (Loader.insertChunk c l).
Proof.
  unfold sortedChunks. induction 1 as [|x l Hs IH Hx]; simpl.
  - repeat constructor.
  - destruct (Nat.leb_spec (chunkIndex c) (chunkIndex x)) as [Hle|Hgt].
    + constructor; [constructor; assumption|].
      constructor; [exact Hle|].
      eapply Forall_impl; [exact Hx|]. simpl. intros; lia.
    + constructor; [exact IH|].
      rewrite (insertChunk_perm c l). constructor; [lia|exact Hx].
Qed.

Lemma sortByIndex_sorted l : sortedChunks (Loader.sortByIndex l).
Proof.
  induction l as [|x l IH]; simpl; [constructor|].
  apply insertChunk_sorted, IH.
Qed.

Lemma insertChunk_head c l :
  Forall (fun x => chunkIndex c <= chunkIndex x) l -> Loader.insertChunk c l = c :: l.
Proof.
  destruct 1 as [|x l Hx _]; simpl; [reflexivity|].
  destruct (Nat.leb_spec (chunkIndex c) (chunkIndex x)); [reflexivity|lia].
Qed.

Lemma sortByIndex_id l : sortedChunks l -> Loader.sortByIndex l = l.
Proof.
  unfold sortedChunks. induction 1 as [|x l _ IH Hx]; simpl; [reflexivity|].
  rewrite IH. apply insertChunk_head, Hx.
Qed.

Lemma sum_lengths (parts : list bytes) n :
  foldl (fun sum c => sum + length c) n parts = n + length (concat parts).
Proof.
  revert n. induction parts as [|c parts IH]; intros n; simpl; [lia|].
  rewrite IH, length_app. lia.
Qed.

Lemma concat_loop (parts : list bytes) : forall (pre : bytes) k,
  foldl (fun st c => (Uint8Array_set st.1 c st.2, st.2 + length c))
        (pre ++ replicate (length (concat parts) + k) x00, length pre) parts
  = (pre ++ concat parts ++ replicate k x00, length pre + length (concat parts)).
Proof.
  induction parts as [|c parts IH]; intros pre k; simpl.
  - rewrite Nat.add_0_r. reflexivity.
  - unfold Uint8Array_set at 2. rewrite take_app_length.
    rewrite drop_app_add, length_app, <- Nat.add_assoc, drop_replicate_add.
    replace (pre ++ c ++ replicate (length (concat parts) + k) x00)
      with ((pre ++ c) ++ replicate (length (concat parts) + k) x00)
      by (rewrite <- app_assoc; reflexivity).
    replace (length pre + length c) with (length (pre ++ c))
      by (rewrite length_app; reflexivity).
    rewrite IH. rewrite length_app, <- !app_assoc. f_equal. lia.
Qed.

Lemma concatBuffers_concat (parts : list bytes) : concatBuffers parts = concat parts.
Proof.
  unfold concatBuffers. rewrite sum_lengths. simpl.
  pose proof (concat_loop parts [] 0) as H. simpl in H.
  rewrite Nat.add_0_r in H. rewrite H. simpl. apply app_nil_r.
Qed.

Lemma assemble_concat cs : Loader.assemble cs = concat (map chunkData cs).
Proof. apply concatBuffers_concat. Qed.

Lemma sorted_indices cs :
  sortedChunks cs -> NoDup (map chunkIndex cs) ->
  StronglySorted lt (map chunkIndex cs).
Proof.
  unfold sortedChunks. induction 1 as [|x l _ IH Hx]; simpl; intros Hnd.
  - constructor.
  - apply NoDup_cons in Hnd as [Hnin Hnd]. constructor; [auto|].
    apply Forall_forall. intros i Hi. apply list_elem_of_fmap in Hi
      as (c & -> & Hc).
    rewrite Forall_forall in Hx. specialize (Hx c Hc).
    assert (chunkIndex x <> chunkIndex c); [|lia].
    intros Heq. apply Hnin. rewrite Heq. apply list_elem_of_fmap. eauto.
Qed.

(** *** An error-free reader *)
Section ErrorFree.
Variable store : Address -> option bytes.
Variable good : World -> Prop.
Hypothesis Hef : errorFree store good.

Lemma fetchEach_errorFree base cap r : forall addrs w,
  good w -> Forall (fun a => is_Some (store a)) addrs -> 0 < r ->
  exists w' e,
    Net.fetchChunksIndividually base cap addrs r w
    = (Ok (map (fun a => {| success := true; data := store a |}) addrs), w', e)
    /\ good w'.
Proof using Hef.
  induction addrs as [|a addrs IH]; intros w Hg Hall Hr.
  - exists w, []. split; [reflexivity|exact Hg].
  - apply Forall_cons in Hall as [[payload Hs] Hall].
    destruct (fetchData_errorFree store good Hef base cap a payload r w Hg Hs Hr)
      as (w1 & Hfetch & Hg1).
    destruct (IH w1 Hg1 Hall Hr) as (w2 & e2 & Hrest & Hg2).
    simpl. unfold bind at 1, try_catch, bind at 1. rewrite Hfetch. simpl.
    unfold bind. rewrite Hrest. simpl. rewrite Hs.
    eexists w2, _. split; [reflexivity|exact Hg2].
Qed.

Lemma fetchBatch_errorFree addrs r w :
  good w -> Forall (fun a => is_Some (store a)) addrs -> 0 < r ->
  exists w' e,
    fetchBatch addrs r w
    = (Ok (Some (map (fun a => {| success := true; data := store a |}) addrs)), w', e)
    /\ good w'.
Proof using Hef.
  intros Hg Hall Hr. unfold Net.fetchChunksBatch.
  destruct (negb USE_MULTICALL || (length addrs =? 0)).
  - destruct (fetchEach_errorFree 200 2000 r addrs w Hg Hall Hr)
      as (w' & e & Hrun & Hg').
    unfold bind. rewrite Hrun. simpl. eexists w', _. split; [reflexivity|exact Hg'].
  - destruct (ef_aggregate _ _ Hef addrs w Hg) as (w' & Hagg & Hg').
    rewrite (mcFrom_success 200 2000 addrs 0 r 0 r w w _ w' eq_refl Hagg Hr eq_refl).
    eexists w', _. split; [|exact Hg'].
    rewrite map_map. do 4 f_equal.
    apply Forall_fmap_ext. eapply Forall_impl; [exact Hall|].
    intros a [payload Hs]. unfold Net.parseSlot, slotOf. rewrite Hs. reflexivity.
Qed.

Lemma batch_all_ok : forall batch : list Leaf,
  Forall (fun l => is_Some (store (address l))) batch ->
  okChunks batch
    (map (fun a => {| success := true; data := store a |}) (map address batch))
  = map (payloadChunk store) batch /\
  koLeaves batch
    (map (fun a => {| success := true; data := store a |}) (map address batch))
  = [].
Proof.
  induction 1 as [|l batch [payload Hs] _ [IH1 IH2]]; [split; reflexivity|].
  rewrite !map_cons, okChunks_cons, koLeaves_cons, IH1, IH2.
  unfold chunkOf, payloadChunk. simpl. rewrite Hs. split; reflexivity.
Qed.

Lemma loadFrom_errorFree :
  0 < BATCH_SIZE ->
  forall fuel i lvs acc w,
    good w -> Forall (fun l => is_Some (store (address l))) lvs ->
    length lvs - i <= fuel ->
    exists w' e,
      loadFrom fuel i lvs acc w
      = (Ok {| Loader.chunks :=
                 Loader.chunks acc ++ map (payloadChunk store) (drop i lvs);
               Loader.failed := Loader.failed acc |}, w', e) /\ good w'.
Proof using Hef.
  intros HB. induction fuel as [|fuel IH]; intros i lvs acc w Hg Hall Hfuel.
  - exists w, []. simpl. rewrite drop_ge by lia. simpl. rewrite app_nil_r.
    split; [destruct acc; reflexivity|exact Hg].
  - simpl. destruct (Nat.ltb_spec i (length lvs)) as [Hi|Hi].
    + set (batch := slice i (Nat.min (i + BATCH_SIZE) (length lvs)) lvs).
      assert (Forall (fun l => is_Some (store (address l))) batch) as Hb.
      { unfold batch, slice. apply Forall_take, Forall_drop, Hall. }
      destruct (fetchBatch_errorFree (map address batch) 2 w Hg) as (w1 & e1 & Hrun & Hg1);
        [apply Forall_map; exact Hb|lia|].
      unfold bind at 1, try_catch, bind at 1. rewrite Hrun. simpl.
      unfold bind at 1. rewrite processResults_spec by (rewrite drop_0, !length_map; lia).
      simpl. rewrite drop_0.
      destruct (batch_all_ok batch Hb) as [-> ->]. simpl. rewrite !app_nil_r.
      set (acc1 := {| Loader.chunks := _; Loader.failed := _ |}).
      destruct (IH (i + BATCH_SIZE) lvs acc1 w1 Hg1 Hall ltac:(lia))
        as (w2 & e2 & Hrest & Hg2).
      unfold bind.
      destruct (i + BATCH_SIZE <? length lvs); unfold sleep, emit, ret; simpl;
        rewrite Hrest; simpl; eexists w2, _; (split; [|exact Hg2]);
        rewrite (batch_split lvs i); fold batch;
        rewrite map_app, <- app_assoc; reflexivity.
    + exists w, []. rewrite drop_ge by lia. simpl. rewrite app_nil_r.
      split; [destruct acc; reflexivity|exact Hg].
Qed.
End ErrorFree.

Lemma payloads_of store : forall (lvs : list Leaf) ps,
  Forall2 (fun a p => store a = Some p) (map address lvs) ps ->
  map (fun l => chunkData (payloadChunk store l)) lvs = ps.
Proof.
  induction lvs as [|l lvs IH]; intros ps H; inversion H as [|a p la lp Hs Hrest]; subst.
  - reflexivity.
  - simpl. rewrite Hs. simpl. f_equal. apply IH, Hrest.
Qed.

Lemma sorted_of_seq cs start :
  map chunkIndex cs = seq start (length cs) -> sortedChunks cs.
Proof.
  unfold sortedChunks. revert start.
  induction cs as [|c cs IH]; intros start Hseq; [constructor|].
  simpl in Hseq. injection Hseq as Hc Hrest. constructor; [eapply IH; eauto|].
  apply Forall_forall. intros x Hx.
  assert (chunkIndex x ∈ seq (S start) (length cs)) as Hin
    by (rewrite <- Hrest; apply list_elem_of_fmap; eauto).
  apply elem_of_seq in Hin. lia.
Qed.

Lemma chunkBuffer_take (buf : bytes) size n :
  concat (map (fun k => slice (k * size) (Nat.min (k * size + size) (length buf)) buf)
              (seq 0 n))
  = take (n * size) buf.
Proof.
  induction n as [|n IH]; [reflexivity|].
  rewrite seq_S, map_app, concat_app, IH. simpl. rewrite app_nil_r.
  replace (size + n * size) with (n * size + size) by lia.
  rewrite <- take_take_drop. f_equal. unfold slice.
  destruct (Nat.le_ge_cases (n * size + size) (length buf)) as [Hle|Hge].
  - rewrite Nat.min_l by exact Hle. f_equal. lia.
  - rewrite Nat.min_r by exact Hge.
    rewrite !take_ge; [reflexivity| |]; rewrite length_drop; lia.
Qed.

(** The chunker loses nothing. *)
Lemma chunkBuffer_concat (buf : bytes) size :
  0 < size -> concat (Deploy.chunkBuffer buf size) = buf.
Proof.
  intros Hs. unfold Deploy.chunkBuffer. rewrite chunkBuffer_take.
  apply take_ge.
  pose proof (Nat.div_mod (length buf + size - 1) size ltac:(lia)) as Hd.
  pose proof (Nat.mod_upper_bound (length buf + size - 1) size ltac:(lia)) as Hm.
  nia.
Qed.

(** *** A leaf that fails a number of rounds and then succeeds *)

Lemma PassRun_other q w new still w' e a left :
  PassRun q w new still w' e ->
  failsThenSucceeds a left ->
  a ∉ map address q ->
  left w' = left w.
Proof.
  intros HP Hfts. induction HP as [|leaf rest w d w1 e1 new still w2 e2 Hf _ IH
                                   |leaf rest w w1 e1 new still w2 e2 Hf _ IH];
    intros Hnin; [reflexivity| |];
    simpl in Hnin; apply not_elem_of_cons in Hnin as [Hne Hnin];
    rewrite (IH Hnin);
    pose proof (fts_other _ _ Hfts (address leaf) w ltac:(congruence)) as Ho;
    rewrite Hf in Ho; exact Ho.
Qed.

Lemma PassRun_budget q w new still w' e l left :
  PassRun q w new still w' e ->
  failsThenSucceeds (address l) left ->
  NoDup (map address q) -> l ∈ q ->
  (left w = 0 -> index l ∈ map chunkIndex new /\ l ∉ still) /\
  (forall n, left w = S n -> l ∈ still /\ left w' = n).
Proof.
  intros HP Hfts. induction HP as [|leaf rest w d w1 e1 new still w2 e2 Hf HP IH
                                   |leaf rest w w1 e1 new still w2 e2 Hf HP IH];
    intros Hnd Hin.
  - apply elem_of_nil in Hin. contradiction.
  - simpl in Hnd. apply NoDup_cons in Hnd as [Hnin Hnd].
    apply elem_of_cons in Hin as [->|Hin].
    + split.
      * intros _. split; [simpl; left|].
        intros Hs. apply Hnin, list_elem_of_fmap. exists leaf. split; [reflexivity|].
        eapply elem_of_sublist; [exact Hs|]. eapply PassRun_sublist; eauto.
      * intros n Hn. destruct (fts_fail _ _ Hfts w n Hn) as (w3 & e3 & Hx & _).
        rewrite Hx in Hf. discriminate.
    + assert (address leaf <> address l) as Hne.
      { intros Heq. apply Hnin. rewrite Heq. apply list_elem_of_fmap. eauto. }
      pose proof (fts_other _ _ Hfts (address leaf) w Hne) as Ho.
      rewrite Hf in Ho. unfold world_of in Ho. simpl in Ho.
      destruct (IH Hnd Hin) as [IH0 IHS]. rewrite Ho in IH0, IHS. split.
      * intros H0. destruct (IH0 H0) as [Hi Hs]. split; [simpl; right; exact Hi|exact Hs].
      * exact IHS.
  - simpl in Hnd. apply NoDup_cons in Hnd as [Hnin Hnd].
    apply elem_of_cons in Hin as [->|Hin].
    + split.
      * intros H0. destruct (fts_ok _ _ Hfts w H0) as (d & w3 & e3 & Hx).
        rewrite Hx in Hf. discriminate.
      * intros n Hn. destruct (fts_fail _ _ Hfts w n Hn) as (w3 & e3 & Hx & Hl).
        rewrite Hx in Hf. injection Hf as -> _. split; [left|].
        rewrite (PassRun_other _ _ _ _ _ _ _ _ HP Hfts Hnin). exact Hl.
    + assert (address leaf <> address l) as Hne.
      { intros Heq. apply Hnin. rewrite Heq. apply list_elem_of_fmap. eauto. }
      pose proof (fts_other _ _ Hfts (address leaf) w Hne) as Ho.
      rewrite Hf in Ho. unfold world_of in Ho. simpl in Ho.
      destruct (IH Hnd Hin) as [IH0 IHS]. rewrite Ho in IH0, IHS. split.
      * intros H0. destruct (IH0 H0) as [Hi Hs]. split; [exact Hi|].
        intros Hc. apply elem_of_cons in Hc as [->|Hc]; [congruence|auto].
      * intros n Hn. destruct (IHS n Hn) as [Hs Hl]. split; [right; exact Hs|exact Hl].
Qed.

Lemma RoundsRun_budget r q w new rem w' e k l left :
  RoundsRun r q w new rem w' e k -> r <= 5 ->
  failsThenSucceeds (address l) left ->
  NoDup (map address q) -> l ∈ q ->
  (r + left w < 5 -> index l ∈ map chunkIndex new /\ l ∉ rem) /\
  (5 <= r + left w -> l ∈ rem).
Proof.
  intros HR. induction HR as
    [r q w Hstop|r q w new1 still1 w1 e1 new2 rem w2 e2 k Hq Hr HP HR IH];
    intros Hle Hfts Hnd Hin.
  - destruct Hstop as [-> | ->]; [apply elem_of_nil in Hin; contradiction|].
    split; [lia|]. intros _. exact Hin.
  - destruct (PassRun_budget _ _ _ _ _ _ _ _ HP Hfts Hnd Hin) as [H0 HS].
    assert (NoDup (map address still1)) as Hnd1.
    { eapply sublist_NoDup; [exact Hnd|]. apply fmap_sublist.
      eapply PassRun_sublist; eauto. }
    destruct (left w) as [|n] eqn:Hl.
    + destruct (H0 eq_refl) as [Hi Hs]. split; [|lia].
      intros _. split.
      * rewrite map_app. apply elem_of_app. left. exact Hi.
      * intros Hc. apply Hs. eapply elem_of_sublist; [exact Hc|].
        eapply RoundsRun_sublist; eauto.
    + destruct (HS n eq_refl) as [Hs Hl1].
      destruct (IH ltac:(lia) Hfts Hnd1 Hs) as [IHa IHb]. rewrite Hl1 in IHa, IHb.
      split.
      * intros Hlt. destruct (IHa ltac:(lia)) as [Hi Hn]. split; [|exact Hn].
        rewrite map_app. apply elem_of_app. right. exact Hi.
      * intros Hge. apply IHb. lia.
Qed.

Lemma RoundsRun_started q w new rem w' e k :
  RoundsRun 0 q w new rem w' e k -> q <> [] -> 1 <= k.
Proof.
  inversion 1 as [r0 q0 w0 Hstop|r0 q0 w0 new1 still1 w1 e1 new2 rem0 w2 e2 k0 _ _ _ HR];
    subst; intros Hne.
  - destruct Hstop as [->|]; [congruence|lia].
  - apply RoundsRun_bound in HR; lia.
Qed.

(** *** Events of a batch *)

Lemma fetchEach_events_cons base cap a addrs r (w : World) :
  events (Net.fetchChunksIndividually base cap (a :: addrs) r w)
  = events (Net.fetchChunkData base cap a r w)
    ++ events (Net.fetchChunksIndividually base cap addrs r
                 (world_of (Net.fetchChunkData base cap a r w))).
Proof.
  simpl. unfold bind at 1, try_catch, bind at 1.
  destruct (Net.fetchChunkData base cap a r w) as [[[got|err] w1] e1]; simpl;
    destruct (fetchEach_total base cap r addrs w1) as (rs & w2 & e2 & Hrun & _ & _);
    unfold bind, events, world_of; simpl; rewrite Hrun; simpl;
    rewrite ?app_nil_r; reflexivity.
Qed.

Lemma loadFrom_events fuel i lvs acc (w : World) :
  i < length lvs ->
  exists rest,
    events (loadFrom (S fuel) i lvs acc w)
    = events (fetchBatch
                (map address (slice i (Nat.min (i + BATCH_SIZE) (length lvs)) lvs)) 2 w)
      ++ rest.
Proof.
  intros Hi. simpl. apply Nat.ltb_lt in Hi. rewrite Hi.
  set (batch := slice i (Nat.min (i + BATCH_SIZE) (length lvs)) lvs).
  destruct (fetchBatch_total USE_MULTICALL 200 2000 (map address batch) 2 w ltac:(lia))
    as (rs & w1 & e1 & Hrun & _ & _).
  unfold bind at 1, try_catch, bind at 1. rewrite Hrun. simpl.
  destruct (processResults_total rs batch 0 acc w1) as (acc' & err & e0 & Hproc & _).
  unfold bind at 1. rewrite Hproc. simpl.
  destruct err as [err|];
    unfold Loader.batchFailed, bind, log, emit, ret, events; simpl;
    match goal with
    | |- context [let (_, _) := ?x in _] => destruct x as [[r2 w2] e2]
    end; simpl; rewrite <- ?app_assoc; eauto.
Qed.

(** The whole load after a finished discovery. *)
Lemma fetchTree_run root depth total w lvs w1 e1 :
  aligned -> 0 < BATCH_SIZE ->
  Loader.collectLeafAddresses root depth w = (Ok lvs, w1, e1) ->
  exists ld fl w2 e2 new rem w3 e3,
    Loader.loadChunksInBatches USE_MULTICALL BATCH_SIZE lvs w1 = (Ok ld, w2, e2) /\
    Loader.failed ld = map Some fl /\
    map chunkIndex (Loader.chunks ld) ++ map index fl ≡ₚ map index lvs /\
    fl `sublist_of` lvs /\
    Loader.retryFailedChunks (Loader.failed ld) (Loader.chunks ld) w2
      = (Ok (Loader.chunks ld ++ new), w3, e3) /\
    map chunkIndex new ++ map index rem ≡ₚ map index fl /\
    rem `sublist_of` fl /\
    (rem <> [] ->
     exists e0, e3 = e0 ++ [EvLog (LogPermanentlyFailed (length rem))]) /\
    (forall l, l ∈ fl -> EvLog (LogChunkFailed (index l + 1)) ∈ e2) /\
    (forall store, consistent store -> consistentSlots store ->
       Forall (fun c => exists l, l ∈ lvs /\ chunkIndex c = index l /\
                                  store (address l) = Some (chunkData c))
              (Loader.chunks ld ++ new)) /\
    Loader.fetchTreeSequential USE_MULTICALL BATCH_SIZE root depth total w
      = (Ok (Loader.assemble (Loader.sortByIndex (Loader.chunks ld ++ new))), w3,
         e1 ++ e2 ++ e3).
Proof.
  intros Hal HB Hcol.
  destruct (loadChunks_spec lvs w1 Hal HB)
    as (ld & fl & w2 & e2 & Hload & Hfl & Hperm & Hsub & Hlog & Hdata).
  destruct fl as [|f fl].
  - exists ld, [], w2, e2, [], [], w2, []. rewrite Hfl.
    split; [exact Hload|]. split; [reflexivity|]. split; [exact Hperm|].
    split; [exact Hsub|].
    split; [simpl; rewrite app_nil_r; reflexivity|].
    split; [reflexivity|]. split; [reflexivity|].
    split; [congruence|]. split; [exact Hlog|].
    split; [rewrite app_nil_r; exact Hdata|].
    unfold Loader.fetchTreeSequential, bind. rewrite Hcol, Hload, Hfl. simpl.
    rewrite !app_nil_r. reflexivity.
  - destruct (retryFailed_run (f :: fl) (Loader.chunks ld) w2 ltac:(discriminate))
      as (new & rem & w3 & e3 & k & HR & _ & Hretry).
    exists ld, (f :: fl), w2, e2, new, rem, w3. eexists. rewrite Hfl.
    split; [exact Hload|]. split; [reflexivity|]. split; [exact Hperm|].
    split; [exact Hsub|].
    split; [exact Hretry|].
    split; [eapply RoundsRun_perm; eauto|].
    split; [eapply RoundsRun_sublist; eauto|].
    split.
    { intros Hne. exists e3. destruct rem; [congruence|]. reflexivity. }
    split; [exact Hlog|].
    split.
    { intros store Hc Hs. apply Forall_app. split; [exact (Hdata store Hc Hs)|].
      eapply Forall_impl; [exact (RoundsRun_data store _ _ _ _ _ _ _ _ Hc HR)|].
      intros c (l & Hin & Hx). exists l. split; [|exact Hx].
      eapply elem_of_sublist; [exact Hin|exact Hsub]. }
    unfold Loader.fetchTreeSequential, bind. rewrite Hcol, Hload, Hfl.
    change (0 <? length (map Some (f :: fl))) with true. cbv iota.
    rewrite Hretry. simpl. rewrite app_nil_r. reflexivity.
Qed.

End LoaderFacts.

(** *** What an incomplete load returns *)
Section Fetched.

Lemma sortedChunks_head c l x :
  sortedChunks (c :: l) -> x ∈ c :: l -> chunkIndex c <= chunkIndex x.
Proof.
  intros Hs Hx. apply StronglySorted_inv in Hs as [_ Hall].
  apply elem_of_cons in Hx as [-> | Hx]; [lia|].
  rewrite List.Forall_forall in Hall. apply Hall. apply list_elem_of_In. exact Hx.
Qed.

Lemma index_injective (l : list Chunk) x y :
  NoDup (map chunkIndex l) -> x ∈ l -> y ∈ l -> chunkIndex x = chunkIndex y -> x = y.
Proof.
  induction l as [|c l IH]; intros Hnd Hx Hy Heq; [inversion Hx|].
  simpl in Hnd. apply NoDup_cons in Hnd as [Hc Hnd].
  apply elem_of_cons in Hx as [-> | Hx]; apply elem_of_cons in Hy as [-> | Hy].
  - reflexivity.
  - exfalso. apply Hc. rewrite Heq. apply list_elem_of_fmap. eauto.
  - exfalso. apply Hc. rewrite <- Heq. apply list_elem_of_fmap. eauto.
  - apply IH; assumption.
Qed.

(** A duplicate-free set of chunks has one sorted arrangement only. *)
Lemma sorted_unique : forall l1 l2,
  sortedChunks l1 -> sortedChunks l2 -> l1 ≡ₚ l2 ->
  NoDup (map chunkIndex l1) -> l1 = l2.
Proof.
  induction l1 as [|c1 l1 IH]; intros l2 Hs1 Hs2 Hp Hnd.
  - apply Permutation_nil_l in Hp. congruence.
  - destruct l2 as [|c2 l2]; [apply Permutation_nil_r in Hp; discriminate|].
    assert (c1 ∈ c2 :: l2) as H12 by (rewrite <- Hp; constructor).
    assert (c2 ∈ c1 :: l1) as H21 by (rewrite Hp; constructor).
    assert (c1 = c2) as ->.
    { apply (index_injective (c1 :: l1)); [exact Hnd|constructor|exact H21|].
      pose proof (sortedChunks_head _ _ _ Hs1 H21).
      pose proof (sortedChunks_head _ _ _ Hs2 H12). lia. }
    f_equal. apply Permutation_cons_inv in Hp.
    apply IH; [| |exact Hp|].
    + apply StronglySorted_inv in Hs1 as [H _]. exact H.
    + apply StronglySorted_inv in Hs2 as [H _]. exact H.
    + simpl in Hnd. apply NoDup_cons in Hnd as [_ H]. exact H.
Qed.








End Fetched.

(** ** The simulated chain *)
Section SimFacts.
Variable pages : list (Address * bytes).

Lemma sim_aligned : aligned (RR := Sim.reader pages).
Proof.
  intros addrs w rs w'. simpl. unfold Sim.aggregate.
  destruct (Sim.aggDown w); [|discriminate].
  intros [= <- _]. apply length_map.
Qed.

Lemma sim_consistentSlots : consistentSlots (RR := Sim.reader pages) (Sim.store pages).
Proof.
  intros addrs w rs w' H. simpl in H. unfold Sim.aggregate in H.
  destruct (Sim.aggDown w); [|discriminate]. injection H as <- _.
  apply Forall2_fmap_r, Forall_Forall2_diag, Forall_forall.
  intros a _ d Hs Hd. unfold Sim.slot in *. unfold Sim.store.
  destruct (Sim.faultsOf a w), (Sim.assoc a pages); simpl in *; congruence.
Qed.

Lemma sim_consistent : consistent (RR := Sim.reader pages) (Sim.store pages).
Proof.
  intros a w d w'. simpl. unfold Sim.read.
  destruct (Sim.faultsOf a w); [|discriminate].
  intros [= Hd _]. exact Hd.
Qed.


Lemma browser_consistentSlots :
  consistentSlots (RR := Sim.browserReader pages) (Sim.store pages).
Proof.
  intros addrs [n o] rs w'. simpl. unfold Sim.onNetwork. simpl.
  destruct (Sim.aggregate pages addrs n) as [r n'] eqn:E.
  intros [= -> _]. exact (sim_consistentSlots addrs n rs n' E).
Qed.

Lemma browser_consistent : consistent (RR := Sim.browserReader pages) (Sim.store pages).
Proof.
  intros a [n o] d w'. simpl. unfold Sim.onNetwork. simpl.
  destruct (Sim.read pages a n) as [r n'] eqn:E.
  intros [= -> _]. exact (sim_consistent a n d n' E).
Qed.

Lemma sim_errorFree : errorFree (RR := Sim.reader pages) (Sim.store pages) Sim.isCalm.
Proof.
  split.
  - intros a w ->. exists Sim.calm. split; reflexivity.
  - intros addrs w ->. exists Sim.calm. split; [|reflexivity].
    reflexivity.
Qed.

Lemma addr_eqb_refl a : Sim.addr_eqb a a = true.
Proof.
  unfold Sim.addr_eqb. rewrite Nat.eqb_refl. simpl.
  induction a as [|x a IH]; [reflexivity|].
  simpl. rewrite IH, andb_true_r. apply Byte.byte_dec_lb. reflexivity.
Qed.

Lemma addr_eqb_eq : forall a b, Sim.addr_eqb a b = true -> a = b.
Proof.
  unfold Sim.addr_eqb. induction a as [|x a IH]; intros [|y b] H;
    try reflexivity; try discriminate.
  simpl in H. apply andb_true_iff in H as [Hlen H].
  apply andb_true_iff in H as [Hxy H]. apply Byte.byte_dec_bl in Hxy. subst y.
  f_equal. apply IH. rewrite Hlen, H. reflexivity.
Qed.

Lemma addr_eqb_neq a b : a <> b -> Sim.addr_eqb a b = false.
Proof.
  intros Hne. destruct (Sim.addr_eqb a b) eqn:E; [|reflexivity].
  apply addr_eqb_eq in E. contradiction.
Qed.

Lemma sim_read_fault a w k :
  Sim.faultsOf a w = S k ->
  exists w', Sim.read pages a w = (None, w') /\ Sim.faultsOf a w' = k /\
             forall b, b <> a -> Sim.faultsOf b w' = Sim.faultsOf b w.
Proof.
  intros Hf. unfold Sim.read. rewrite Hf. eexists. split; [reflexivity|].
  unfold Sim.faultsOf. simpl. rewrite addr_eqb_refl. split; [reflexivity|].
  intros b Hne. rewrite (addr_eqb_neq b a Hne). reflexivity.
Qed.

Lemma sim_read_clear a w :
  Sim.faultsOf a w = 0 -> Sim.read pages a w = (Sim.assoc a pages, w).
Proof. intros Hf. unfold Sim.read. rewrite Hf. reflexivity. Qed.

Lemma sim_readFails a : forall j w,
  j <= Sim.faultsOf a w ->
  exists w', readFails (RR := Sim.reader pages) j a w = Some w' /\
             Sim.faultsOf a w' = Sim.faultsOf a w - j /\
             forall b, b <> a -> Sim.faultsOf b w' = Sim.faultsOf b w.
Proof.
  induction j as [|j IH]; intros w Hj.
  - exists w. split; [reflexivity|]. split; [lia|reflexivity].
  - destruct (Sim.faultsOf a w) as [|k] eqn:Hf; [lia|].
    destruct (sim_read_fault a w k Hf) as (w1 & Hrd & Hk & Hother).
    destruct (IH w1 ltac:(lia)) as (w' & Hrest & Hk' & Hother').
    exists w'. simpl. rewrite Hrd. split; [exact Hrest|]. split; [lia|].
    intros b Hne. rewrite Hother', Hother; auto.
Qed.

Lemma sim_readFails_other a b : forall j w w',
  readFails (RR := Sim.reader pages) j b w = Some w' -> b <> a ->
  Sim.faultsOf a w' = Sim.faultsOf a w.
Proof.
  induction j as [|j IH]; intros w w' Hf Hne.
  - injection Hf as <-. reflexivity.
  - simpl in Hf. unfold Sim.read in Hf.
    destruct (Sim.faultsOf b w) as [|k] eqn:Hb.
    + destruct (Sim.assoc b pages); [discriminate|].
      apply IH in Hf; assumption.
    + apply IH in Hf; [|assumption]. rewrite Hf.
      unfold Sim.faultsOf. simpl. rewrite (addr_eqb_neq a b ltac:(congruence)). reflexivity.
Qed.

(** The simulated chain is a failure injector: an address with a page and
    [f] pending faults fails [f / 3] fetches and then succeeds. *)
Lemma sim_failsThenSucceeds a d :
  Sim.assoc a pages = Some d ->
  failsThenSucceeds (RR := Sim.reader pages) a (fun w => Sim.faultsOf a w / 3).
Proof.
  intros Hd. split.
  - intros w H0.
    assert (Sim.faultsOf a w < 3) as Hlt.
    { destruct (Nat.lt_ge_cases (Sim.faultsOf a w) 3) as [|Hge]; [assumption|].
      pose proof (Nat.Div0.div_le_mono 3 (Sim.faultsOf a w) 3 Hge) as Hm.
      rewrite Nat.div_same in Hm by lia. lia. }
    destruct (sim_readFails a (Sim.faultsOf a w) w ltac:(lia)) as (w1 & Hf & Hz & _).
    exists d, w1. eexists.
    unfold Net.fetchChunkData.
    eapply (fetchFrom_success (RR := Sim.reader pages) 200 2000 a
              (Sim.faultsOf a w) 3 0 3 w w1 d w1); [exact Hf| |lia|lia].
    simpl. rewrite sim_read_clear by lia. rewrite Hd. reflexivity.
  - intros w n Hn.
    assert (3 <= Sim.faultsOf a w) as Hge.
    { destruct (Nat.lt_ge_cases (Sim.faultsOf a w) 3) as [Hlt|]; [|assumption].
      rewrite Nat.div_small in Hn by exact Hlt. discriminate. }
    destruct (sim_readFails a 3 w Hge) as (w1 & Hf & Hz & _).
    exists w1. eexists. split.
    + unfold Net.fetchChunkData.
      eapply (fetchFrom_exhausted (RR := Sim.reader pages) 200 2000 a 3 0 3 w w1);
        [exact Hf|lia|lia].
    + rewrite Hz.
      pose proof (Nat.div_mod (Sim.faultsOf a w) 3 ltac:(lia)) as Hdm.
      pose proof (Nat.mod_upper_bound (Sim.faultsOf a w) 3 ltac:(lia)) as Hub.
      rewrite Hn in Hdm.
      symmetry. apply (Nat.div_unique _ 3 n (Sim.faultsOf a w mod 3)); lia.
  - intros b w Hne.
    destruct (fetchData_cases (RR := Sim.reader pages) 200 2000 b 3 w ltac:(lia))
      as [(k & w1 & d1 & w2 & _ & Hf & Hrd & Heq)|(w2 & Hf & Heq)];
      rewrite Heq; unfold world_of; cbn [fst snd].
    + simpl in Hrd. unfold Sim.read in Hrd.
      destruct (Sim.faultsOf b w1); [|discriminate]. injection Hrd as _ <-.
      rewrite (sim_readFails_other a b _ _ _ Hf Hne). reflexivity.
    + rewrite (sim_readFails_other a b _ _ _ Hf Hne). reflexivity.
Qed.

Lemma sim_alwaysFails a :
  Sim.assoc a pages = None -> alwaysFails (RR := Sim.reader pages) a.
Proof.
  intros Hn w. simpl. unfold Sim.read.
  destruct (Sim.faultsOf a w); [exact Hn|reflexivity].
Qed.

End SimFacts.

(** * The claims *)

Section LoadClaims.
Context {World : Type} `{RR : RemoteReader World}.
Variable USE_MULTICALL : bool.
Variable BATCH_SIZE : nat.

Local Abbreviation fetchTree :=
  (Loader.fetchTreeSequential (World := World) USE_MULTICALL BATCH_SIZE).


(** C10.  Every leaf index enters the collected chunks at most once: after
    the batch phase no index is both in [chunks] and in [failed], the retry
    rounds only add chunks for failed leaves, and the assembled buffer is
    the concatenation of chunks with strictly increasing indices. *)
Theorem chunks_collected_once root depth total w lvs w1 e1 :
  aligned -> 0 < BATCH_SIZE ->
  Loader.collectLeafAddresses root depth w = (Ok lvs, w1, e1) ->
  exists ld fl w2 e2 cs w3 e3,
    Loader.loadChunksInBatches USE_MULTICALL BATCH_SIZE lvs w1 = (Ok ld, w2, e2) /\
    Loader.failed ld = map Some fl /\
    NoDup (map chunkIndex (Loader.chunks ld) ++ map index fl) /\
    Loader.retryFailedChunks (Loader.failed ld) (Loader.chunks ld) w2
      = (Ok cs, w3, e3) /\
    NoDup (map chunkIndex cs) /\
    (forall i, i ∈ map chunkIndex cs -> i ∈ map index lvs) /\
    fetchTree root depth total w
      = (Ok (concat (map chunkData (Loader.sortByIndex cs))), w3, e1 ++ e2 ++ e3) /\
    StronglySorted lt (map chunkIndex (Loader.sortByIndex cs)).
Proof.
  intros Hal HB Hcol.
  destruct (fetchTree_run USE_MULTICALL BATCH_SIZE root depth total w lvs w1 e1 Hal HB Hcol)
    as (ld & fl & w2 & e2 & new & rem & w3 & e3 & Hload & Hfl & Hp1 & _ & Hretry & Hp2 & _
        & _ & _ & _ & Hrun).
  pose proof (collect_indices _ _ _ _ _ _ Hcol) as Hidx.
  assert (NoDup (map index lvs)) as Hnd by (rewrite Hidx; apply NoDup_seq).
  assert (map chunkIndex (Loader.chunks ld ++ new) ++ map index rem ≡ₚ map index lvs)
    as Hall by (rewrite map_app, <- app_assoc, Hp2; exact Hp1).
  assert (NoDup (map chunkIndex (Loader.chunks ld ++ new))) as Hnd2.
  { rewrite <- Hall in Hnd. apply NoDup_app in Hnd as [H _]. exact H. }
  exists ld, fl, w2, e2, (Loader.chunks ld ++ new), w3, e3.
  split; [exact Hload|]. split; [exact Hfl|]. split; [rewrite Hp1; exact Hnd|].
  split; [exact Hretry|]. split; [exact Hnd2|].
  split.
  { intros i Hi. rewrite <- Hall. apply elem_of_app. left. exact Hi. }
  split; [rewrite Hrun, assemble_concat; reflexivity|].
  apply sorted_indices; [apply sortByIndex_sorted|].
  rewrite sortByIndex_perm. exact Hnd2.
Qed.

(** C6.  A branch node whose three reads (backoff 200 ms, then 400 ms)
    all fail makes discovery throw: no leaf list is returned and the load
    throws with it.  A leaf payload that cannot be fetched is another
    matter: once discovery has returned, the load always returns. *)
Theorem unreadable_branch_aborts root depth total w :
  aligned -> 0 < BATCH_SIZE ->
  (unreadableBranch depth root {| Loader.leaves := []; Loader.currentIndex := 0 |} w ->
   exists w' e,
     Loader.collectLeafAddresses root depth w = (Throw RpcError, w', e) /\
     fetchTree root depth total w = (Throw RpcError, w', e)) /\
  (forall d a sc w0 w',
     readFails 3 a w0 = Some w' ->
     Loader.traverseNode (S d) a sc w0
     = (Throw RpcError, w',
        [EvRead a; EvSleep 200; EvRead a; EvSleep 400; EvRead a;
         EvLog (LogTraverseFailed a)])) /\
  (forall lvs w1 e1,
     Loader.collectLeafAddresses root depth w = (Ok lvs, w1, e1) ->
     exists buf w' e, fetchTree root depth total w = (Ok buf, w', e)).
Proof.
  intros Hal HB. split; [|split].
  - intros Hun. apply traverse_unreadable in Hun as (w' & e & Hrun).
    exists w', e. unfold Loader.fetchTreeSequential, Loader.collectLeafAddresses, bind.
    rewrite Hrun. split; reflexivity.
  - intros d a sc w0 w' Hf. simpl. unfold try_catch, bind at 1.
    pose proof (fetchFrom_exhausted 200 2000 a 3 0 3 w0 w' Hf ltac:(lia) eq_refl) as Hx.
    unfold Net.fetchChunkData. rewrite Hx. reflexivity.
  - intros lvs w1 e1 Hcol.
    destruct (fetchTree_run USE_MULTICALL BATCH_SIZE root depth total w lvs w1 e1 Hal HB Hcol)
      as (ld & fl & w2 & e2 & new & rem & w3 & e3 & _ & _ & _ & _ & _ & _ & _ & _ & _ & _
          & Hrun).
    eauto.
Qed.

(** C3.  For a fixed tree, whatever the state of the network, a discovery
    that returns yields the leaves of the tree depth-first and left to
    right, numbered 0, 1, ..., n-1; and with an error-free reader over a
    readable tree it does return.  The tree is fixed twice over: by the
    pages the addresses hold, and, for a tree deployed with twenty-byte
    addresses, by the tree itself, whose nodes list their children in
    order: the leaves returned are then the leaves of that tree, from left
    to right. *)
Theorem discovery_order store root depth w :
  consistent store ->
  (forall lvs w' e,
     Loader.collectLeafAddresses root depth w = (Ok lvs, w', e) ->
     lvs = Tree.numbered 0 (Tree.treeLeaves store depth root) /\
     map address lvs = Tree.treeLeaves store depth root /\
     map index lvs = seq 0 (length lvs)) /\
  (forall good,
     errorFree store good -> good w -> Tree.treeReadable store depth root ->
     exists w' e,
       Loader.collectLeafAddresses root depth w
       = (Ok (Tree.numbered 0 (Tree.treeLeaves store depth root)), w', e)) /\
  (forall t,
     deployedAt store depth t -> rootOf t = root ->
     (forall lvs w' e,
        Loader.collectLeafAddresses root depth w = (Ok lvs, w', e) ->
        map address lvs = leavesOf t /\
        map index lvs = seq 0 (length (leavesOf t)) /\
        forall k a, leavesOf t !! k = Some a ->
                    lvs !! k = Some {| index := k; address := a |}) /\
     (forall good,
        errorFree store good -> good w ->
        exists lvs w' e,
          Loader.collectLeafAddresses root depth w = (Ok lvs, w', e) /\
          map address lvs = leavesOf t)).
Proof.
  intros Hc.
  assert (forall lvs w' e,
     Loader.collectLeafAddresses root depth w = (Ok lvs, w', e) ->
     lvs = Tree.numbered 0 (Tree.treeLeaves store depth root) /\
     map address lvs = Tree.treeLeaves store depth root /\
     map index lvs = seq 0 (length lvs)) as Hsound.
  { intros lvs w' e Hrun.
    pose proof (collect_sound store Hc _ _ _ _ _ _ Hrun) as ->.
    split; [reflexivity|]. split; [apply numbered_address|].
    rewrite numbered_index, numbered_length. reflexivity. }
  split; [exact Hsound|]. split.
  - intros good Hef Hg Hread.
    destruct (collect_total store good Hef root depth w Hg Hread) as (w' & e & Hrun & _).
    eauto.
  - intros t Hd <-. destruct (deployed_leaves store depth t Hd) as [Hread Hleaves].
    split.
    + intros lvs w' e Hrun. destruct (Hsound lvs w' e Hrun) as (Hl & Ha & Hi).
      rewrite Hleaves in *. split; [exact Ha|].
      split; [rewrite Hi, <- Ha, length_map; reflexivity|].
      intros k a Hk. rewrite Hl. unfold Tree.numbered.
      rewrite list_lookup_imap, Hk. reflexivity.
    + intros good Hef Hg.
      destruct (collect_total store good Hef (rootOf t) depth w Hg Hread)
        as (w' & e & Hrun & _).
      eexists _, w', e. split; [exact Hrun|].
      rewrite numbered_address. exact Hleaves.
Qed.

(** C2.  Content cut into chunks of a fixed size and laid out as the leaves
    of a readable tree of any depth is reproduced exactly by discovery,
    fetch and assembly over an error-free reader. *)
Theorem load_roundtrip store good content size root depth total w :
  0 < size -> 0 < BATCH_SIZE ->
  errorFree store good -> good w ->
  Tree.treeReadable store depth root ->
  Forall2 (fun a payload => store a = Some payload)
          (Tree.treeLeaves store depth root) (Deploy.chunkBuffer content size) ->
  exists w' e, fetchTree root depth total w = (Ok content, w', e).
Proof.
  intros Hs HB Hef Hg Hread Hleaves.
  destruct (collect_total store good Hef root depth w Hg Hread) as (w1 & e1 & Hcol & Hg1).
  set (lvs := Tree.numbered 0 (Tree.treeLeaves store depth root)) in *.
  assert (Forall (fun l => is_Some (store (address l))) lvs) as Hall.
  { assert (Forall (fun a => is_Some (store a)) (Tree.treeLeaves store depth root)) as H
      by (clear -Hleaves; induction Hleaves; constructor; eauto).
    rewrite Forall_forall in H. apply Forall_forall. intros lf Hin. apply H.
    rewrite <- (numbered_address 0). apply list_elem_of_fmap. eauto. }
  destruct (loadFrom_errorFree USE_MULTICALL BATCH_SIZE store good Hef HB (length lvs) 0 lvs
              {| Loader.chunks := []; Loader.failed := [] |} w1 Hg1 Hall ltac:(lia))
    as (w2 & e2 & Hload & _).
  simpl in Hload. rewrite drop_0 in Hload.
  exists w2. eexists.
  unfold Loader.fetchTreeSequential, bind. rewrite Hcol.
  unfold Loader.loadChunksInBatches. rewrite Hload. simpl.
  rewrite sortByIndex_id, assemble_concat.
  - rewrite <- (chunkBuffer_concat content size Hs) at 1.
    rewrite map_map, (payloads_of store lvs (Deploy.chunkBuffer content size));
      [reflexivity|].
    unfold lvs. rewrite numbered_address. exact Hleaves.
  - apply (sorted_of_seq _ 0). rewrite map_map, length_map. simpl.
    change (fun x => index x) with index. unfold lvs.
    rewrite numbered_index, numbered_length. reflexivity.
Qed.

(** C4 (as amended).  The retry rounds of a non-empty queue: at most five
    rounds are run, round [r] being announced, waiting [500 * r] ms and
    fetching each queued leaf once (three reads at most) with a pause of
    100 ms after each leaf ([RoundsRun], [PassRun]); the leaves fetched leave
    the queue, the others stay for the next round.  A leaf that fails fewer
    than five rounds and then succeeds ends among the chunks; one that fails
    five rounds, or always, is still queued after exactly five rounds.  The
    leaves left are not returned: the function yields the chunks only and
    logs how many leaves failed for good. *)
Theorem retry_rounds fl cs w :
  fl <> [] ->
  exists new rem w' e k,
    RoundsRun 0 fl w new rem w' e k /\
    1 <= k <= 5 /\ (rem = [] \/ k = 5) /\
    Loader.retryFailedChunks (map Some fl) cs w
    = (Ok (cs ++ new), w',
       e ++ (if 0 <? length rem then [EvLog (LogPermanentlyFailed (length rem))] else [])) /\
    map chunkIndex new ++ map index rem ≡ₚ map index fl /\
    rem `sublist_of` fl /\
    (forall a w0, exists n, n < 3 /\
       events (Net.fetchChunkData 200 2000 a 3 w0)
       = failedAttempts 200 2000 a 0 n ++ [EvRead a]) /\
    (forall l, l ∈ fl -> alwaysFails (address l) -> l ∈ rem /\ k = 5) /\
    (forall l left,
       l ∈ fl -> NoDup (map address fl) -> failsThenSucceeds (address l) left ->
       (left w < 5 -> index l ∈ map chunkIndex new /\ l ∉ rem) /\
       (5 <= left w -> l ∈ rem)).
Proof.
  intros Hne.
  destruct (retryFailed_run fl cs w Hne) as (new & rem & w' & e & k & HR & _ & Hrun).
  exists new, rem, w', e, k.
  destruct (RoundsRun_bound _ _ _ _ _ _ _ _ HR ltac:(lia)) as (_ & Hk5 & Hend).
  pose proof (RoundsRun_started _ _ _ _ _ _ _ HR Hne) as Hk1.
  split; [exact HR|]. split; [lia|]. split; [exact Hend|]. split; [exact Hrun|].
  split; [eapply RoundsRun_perm; eauto|].
  split; [eapply RoundsRun_sublist; eauto|].
  split; [|split].
  - intros a w0.
    destruct (fetchData_cases 200 2000 a 3 w0 ltac:(lia))
      as [(n & w1 & d & w2 & Hn & _ & _ & Heq)|(w2 & _ & Heq)]; rewrite Heq.
    + exists n. split; [exact Hn|reflexivity].
    + exists 2. split; [lia|reflexivity].
  - intros l Hin Ha. eapply RoundsRun_alwaysFails; eauto. lia.
  - intros l left Hin Hnd Hfts.
    apply (RoundsRun_budget _ _ _ _ _ _ _ _ l left HR); auto. lia.
Qed.

(** C5 (as amended).  For the batch starting at leaf [i], the batch loader
    first runs [fetchChunksBatch] on the addresses of the batch with two
    attempts.  With aggregation on and a non-empty batch that is one
    aggregated read, repeated once after 300 ms if it fails, and, when both
    calls fail, the per-address fallback; with aggregation off it is the
    per-address fallback at once.  The fallback fetches the addresses one
    after the other, each with two reads at most, 200 ms apart.  In
    [fetchChunksBatch] itself, with [r] attempts, the backoff after the
    failed attempt [j] is [min (300 * 2^j) 3000] ms. *)
Theorem batch_fetch_attempts fuel i lvs acc w :
  i < length lvs ->
  let addrs := map address (slice i (Nat.min (i + BATCH_SIZE) (length lvs)) lvs) in
  exists e rest,
    events (Loader.loadFrom USE_MULTICALL BATCH_SIZE (S fuel) i lvs acc w) = e ++ rest /\
    (USE_MULTICALL = true -> addrs <> [] ->
       (exists rs w', aggregate3 addrs w = (Some rs, w') /\ e = [EvAggregate addrs]) \/
       (exists w1 rs w', aggregate3 addrs w = (None, w1) /\
          aggregate3 addrs w1 = (Some rs, w') /\
          e = [EvAggregate addrs; EvSleep 300; EvAggregate addrs]) \/
       (exists w1 w2, aggregate3 addrs w = (None, w1) /\
          aggregate3 addrs w1 = (None, w2) /\
          e = [EvAggregate addrs; EvSleep 300; EvAggregate addrs]
              ++ events (Net.fetchChunksIndividually 200 2000 addrs 2 w2))) /\
    (USE_MULTICALL = false \/ addrs = [] ->
       e = events (Net.fetchChunksIndividually 200 2000 addrs 2 w)) /\
    (forall a rest' w0,
       events (Net.fetchChunksIndividually 200 2000 (a :: rest') 2 w0)
       = events (Net.fetchChunkData 200 2000 a 2 w0)
         ++ events (Net.fetchChunksIndividually 200 2000 rest' 2
                      (world_of (Net.fetchChunkData 200 2000 a 2 w0))) /\
       (events (Net.fetchChunkData 200 2000 a 2 w0) = [EvRead a] \/
        events (Net.fetchChunkData 200 2000 a 2 w0) = [EvRead a; EvSleep 200; EvRead a])) /\
    (forall r k addrs' w0 w1 rs w2,
       USE_MULTICALL = true -> addrs' <> [] -> k < r ->
       aggregateFails k addrs' w0 = Some w1 ->
       aggregate3 addrs' w1 = (Some rs, w2) ->
       events (Net.fetchChunksBatch USE_MULTICALL 200 2000 addrs' r w0)
       = failedAggregates addrs' 0 k ++ [EvAggregate addrs']).
Proof.
  intros Hi addrs.
  destruct (loadFrom_events USE_MULTICALL BATCH_SIZE fuel i lvs acc w Hi) as [rest Hev].
  fold addrs in Hev.
  exists (events (Net.fetchChunksBatch USE_MULTICALL 200 2000 addrs 2 w)), rest.
  split; [exact Hev|]. split; [|split; [|split]].
  - intros Hmc Hne. unfold Net.fetchChunksBatch. rewrite Hmc.
    destruct addrs as [|a0 addrs0] eqn:Ha; [congruence|]. rewrite <- Ha. clear Hev.
    replace (negb true || (length addrs =? 0)) with false by (rewrite Ha; reflexivity).
    destruct (aggregate3 addrs w) as [[rs|] w1] eqn:E1.
    + left. exists rs, w1. split; [reflexivity|].
      rewrite (mcFrom_success 200 2000 addrs 0 2 0 2 w w rs w1 eq_refl E1 ltac:(lia) eq_refl).
      reflexivity.
    + right. destruct (aggregate3 addrs w1) as [[rs|] w2] eqn:E2.
      * left. exists w1, rs, w2. split; [reflexivity|]. split; [exact E2|].
        assert (aggregateFails 1 addrs w = Some w1) as Hf by (simpl; rewrite E1; reflexivity).
        rewrite (mcFrom_success 200 2000 addrs 1 2 0 2 w w1 rs w2 Hf E2 ltac:(lia) eq_refl).
        reflexivity.
      * right. exists w1, w2. split; [reflexivity|]. split; [exact E2|].
        destruct (fetchEach_total 200 2000 2 addrs w2) as (rs & w3 & e3 & Hrun & _ & _).
        assert (aggregateFails 2 addrs w = Some w2) as Hf
          by (simpl; rewrite E1, E2; reflexivity).
        rewrite (mcFrom_exhausted 200 2000 addrs 2 0 2 w w2 rs w3 e3 Hf Hrun ltac:(lia) eq_refl).
        rewrite Hrun. reflexivity.
  - intros Hoff. unfold Net.fetchChunksBatch.
    replace (negb USE_MULTICALL || (length addrs =? 0)) with true.
    + destruct (fetchEach_total 200 2000 2 addrs w) as (rs & w3 & e3 & Hrun & _ & _).
      unfold bind. rewrite Hrun. unfold events. simpl. apply app_nil_r.
    + destruct Hoff as [-> | ->]; [reflexivity|]. simpl. rewrite orb_true_r. reflexivity.
  - intros a rest' w0. split; [apply fetchEach_events_cons|].
    destruct (fetchData_cases 200 2000 a 2 w0 ltac:(lia))
      as [(n & w1 & d & w2 & Hn & _ & _ & Heq)|(w2 & _ & Heq)]; rewrite Heq.
    + destruct n as [|[|n]]; [left; reflexivity|right; reflexivity|lia].
    + right. reflexivity.
  - intros r k addrs' w0 w1 rs w2 Hmc Hne Hk Hf Hagg.
    unfold Net.fetchChunksBatch. rewrite Hmc.
    destruct addrs' as [|a0 addrs0] eqn:Ha; [congruence|]. rewrite <- Ha in *.
    replace (negb true || (length addrs' =? 0)) with false by (rewrite Ha; reflexivity).
    rewrite (mcFrom_success 200 2000 addrs' k r 0 r w0 w1 rs w2 Hf Hagg Hk eq_refl).
    reflexivity.
Qed.

End LoadClaims.

(** ** Runs on the simulated chain *)
Section LoadRuns.
Import Sim Scenario.



(** The leaf left out in that run, and its line in the log. *)
Example truncated_buffer_log :
  let run := Loader.fetchTreeSequential (RR := reader pagesHole) true 2 root 2 9 calm in
  fetched leaves5 [leafD1]
  = [ {| index := 0; address := leaf0 |}; {| index := 2; address := leaf2 |};
      {| index := 3; address := leaf3 |}; {| index := 4; address := leaf4 |} ] /\
  List.filter (fun ev => match ev with EvLog _ => true | _ => false end) (events run)
  = [ EvLog (LogChunkFailed 2);
      EvLog (LogRetryRound 1 1); EvLog (LogRetryRound 2 1); EvLog (LogRetryRound 3 1);
      EvLog (LogRetryRound 4 1); EvLog (LogRetryRound 5 1);
      EvLog (LogPermanentlyFailed 1) ].
Proof. vm_compute. split; reflexivity. Qed.

(** An aggregate call that answers one slot too many: the surplus slot has
    no leaf, the batch is thrown away as failed with an undefined entry in
    front of its leaves, and the retry rounds throw on that entry. *)
Example surplus_slot_breaks_the_load :
  (exists ld w' e,
     Loader.loadChunksInBatches (RR := surplusReader pages) true 5 leaves5 calm
     = (Ok ld, w', e) /\
     Loader.failed ld = None :: map Some leaves5 /\
     map chunkIndex (Loader.chunks ld) = [0; 1; 2; 3; 4]) /\
  outcome (Loader.fetchTreeSequential (RR := surplusReader pages) true 5 root 2 9 calm)
  = Throw TypeError.
Proof. vm_compute. split; [do 3 eexists; repeat split; reflexivity|reflexivity]. Qed.

Lemma chunks_collected_once_witness :
  exists ld fl w2 e2 cs w3 e3,
    Loader.loadChunksInBatches (RR := reader pagesHole) true 2 leaves5 calm
    = (Ok ld, w2, e2) /\
    Loader.failed ld = map Some fl /\
    NoDup (map chunkIndex (Loader.chunks ld) ++ map index fl) /\
    Loader.retryFailedChunks (RR := reader pagesHole)
      (Loader.failed ld) (Loader.chunks ld) w2 = (Ok cs, w3, e3) /\
    NoDup (map chunkIndex cs) /\
    (forall i, i ∈ map chunkIndex cs -> i ∈ map index leaves5) /\
    Loader.fetchTreeSequential (RR := reader pagesHole) true 2 root 2 9 calm
    = (Ok (concat (map chunkData (Loader.sortByIndex cs))), w3, scanEvents ++ e2 ++ e3) /\
    StronglySorted lt (map chunkIndex (Loader.sortByIndex cs)).
Proof.
  apply (chunks_collected_once (RR := reader pagesHole) true 2 root 2 9 calm
           leaves5 calm scanEvents).
  - apply sim_aligned.
  - lia.
  - vm_compute. reflexivity.
Defined.

Lemma unreadable_branch_aborts_witness :
  exists w' e,
    Loader.collectLeafAddresses (RR := reader pagesNoBranch) root 2 calm
    = (Throw RpcError, w', e) /\
    Loader.fetchTreeSequential (RR := reader pagesNoBranch) true 2 root 2 9 calm
    = (Throw RpcError, w', e).
Proof.
  apply (proj1 (unreadable_branch_aborts (RR := reader pagesNoBranch) true 2 root 2 9 calm
                  (sim_aligned pagesNoBranch) ltac:(lia))).
  eapply (unreadable_below (RR := reader pagesNoBranch) 1 root _ calm
            (nodeA ++ nodeB) calm [EvRead root] [nodeA] nodeB []).
  - vm_compute. reflexivity.
  - vm_compute. reflexivity.
  - vm_compute. reflexivity.
  - eapply unreadable_here. vm_compute. reflexivity.
Defined.

Lemma tree_deployed : deployedAt (store pages) 2 tree.
Proof. simpl. repeat split; repeat constructor. Qed.

Lemma discovery_order_witness :
  exists w' e,
    Loader.collectLeafAddresses (RR := reader pages) root 2 calm
    = (Ok [ {| index := 0; address := leaf0 |}; {| index := 1; address := leaf1 |};
            {| index := 2; address := leaf2 |}; {| index := 3; address := leaf3 |};
            {| index := 4; address := leaf4 |} ], w', e) /\
    leavesOf tree = [leaf0; leaf1; leaf2; leaf3; leaf4].
Proof.
  destruct (discovery_order (RR := reader pages) (store pages) root 2 calm
              (sim_consistent pages)) as (Hsound & _ & Htree).
  destruct (Htree tree tree_deployed eq_refl) as [Hwalk Hreturns].
  destruct (Hreturns isCalm (sim_errorFree pages) eq_refl) as (lvs & w' & e & Hrun & _).
  destruct (Hsound lvs w' e Hrun) as (Hlvs & _).
  destruct (Hwalk lvs w' e Hrun) as (Haddr & _).
  exists w', e. split; [|reflexivity].
  rewrite Hrun, Hlvs. reflexivity.
Defined.

Lemma load_roundtrip_witness :
  exists w' e,
    Loader.fetchTreeSequential (RR := reader pages) true 2 root 2 9 calm
    = (Ok content, w', e).
Proof.
  apply (load_roundtrip (RR := reader pages) true 2 (store pages) isCalm content 2
           root 2 9 calm).
  - lia.
  - lia.
  - apply sim_errorFree.
  - reflexivity.
  - simpl. repeat constructor.
  - vm_compute. repeat constructor.
Defined.

End LoadRuns.

Section RetryRuns.
Import Sim Scenario.

Lemma retry_rounds_witness :
  exists new rem w' e k,
    RoundsRun (RR := reader pagesHole) 0 [leafD1] calm new rem w' e k /\
    1 <= k <= 5 /\ (rem = [] \/ k = 5) /\
    Loader.retryFailedChunks (RR := reader pagesHole) (map Some [leafD1]) [] calm
    = (Ok ([] ++ new), w',
       e ++ (if 0 <? length rem then [EvLog (LogPermanentlyFailed (length rem))] else [])) /\
    map chunkIndex new ++ map index rem ≡ₚ map index [leafD1] /\
    rem `sublist_of` [leafD1] /\
    (forall a w0, exists n, n < 3 /\
       events (Net.fetchChunkData (RR := reader pagesHole) 200 2000 a 3 w0)
       = failedAttempts 200 2000 a 0 n ++ [EvRead a]) /\
    (forall l, l ∈ [leafD1] -> alwaysFails (RR := reader pagesHole) (address l) ->
               l ∈ rem /\ k = 5) /\
    (forall l left,
       l ∈ [leafD1] -> NoDup (map address [leafD1]) ->
       failsThenSucceeds (RR := reader pagesHole) (address l) left ->
       (left calm < 5 -> index l ∈ map chunkIndex new /\ l ∉ rem) /\
       (5 <= left calm -> l ∈ rem)).
Proof.
  apply (retry_rounds (RR := reader pagesHole) [leafD1] [] calm).
  discriminate.
Defined.

(** C4, counterexample.  [leaf1] fails the fifteen reads of five rounds and
    would answer the next one: after the five rounds no chunk was added for
    it, nothing but the chunks is returned, and the log line counts one
    permanent failure. *)
Lemma fifth_round_failure_is_final :
  let run := Loader.retryFailedChunks (RR := reader pages) [Some leafD1] [] (flaky 15) in
  outcome run = Ok [] /\
  last (events run) = Some (EvLog (LogPermanentlyFailed 1)) /\
  outcome (Net.fetchChunkData (RR := reader pages) 200 2000 leaf1 3 (world_of run))
  = Ok (Some [x63; x64]).
Proof. vm_compute. repeat split; reflexivity. Qed.

(** A leaf that fails four rounds is fetched in the fifth. *)
Example fourth_round_failure_recovers :
  outcome (Loader.retryFailedChunks (RR := reader pages) [Some leafD1] [] (flaky 12))
  = Ok [{| chunkIndex := 1; chunkData := [x63; x64] |}].
Proof. vm_compute. reflexivity. Qed.

Lemma batch_fetch_attempts_witness :
  let addrs := map address (slice 0 (Nat.min (0 + 5) (length leaves5)) leaves5) in
  exists e rest,
    events (Loader.loadFrom (RR := reader pages) true 5 5 0 leaves5
              {| Loader.chunks := []; Loader.failed := [] |} outage) = e ++ rest /\
    (true = true -> addrs <> [] ->
       (exists rs w', aggregate3 (RemoteReader := reader pages) addrs outage = (Some rs, w')
                      /\ e = [EvAggregate addrs]) \/
       (exists w1 rs w', aggregate3 (RemoteReader := reader pages) addrs outage = (None, w1) /\
          aggregate3 (RemoteReader := reader pages) addrs w1 = (Some rs, w') /\
          e = [EvAggregate addrs; EvSleep 300; EvAggregate addrs]) \/
       (exists w1 w2, aggregate3 (RemoteReader := reader pages) addrs outage = (None, w1) /\
          aggregate3 (RemoteReader := reader pages) addrs w1 = (None, w2) /\
          e = [EvAggregate addrs; EvSleep 300; EvAggregate addrs]
              ++ events (Net.fetchChunksIndividually (RR := reader pages) 200 2000 addrs 2 w2))) /\
    (true = false \/ addrs = [] ->
       e = events (Net.fetchChunksIndividually (RR := reader pages) 200 2000 addrs 2 outage)) /\
    (forall a rest' w0,
       events (Net.fetchChunksIndividually (RR := reader pages) 200 2000 (a :: rest') 2 w0)
       = events (Net.fetchChunkData (RR := reader pages) 200 2000 a 2 w0)
         ++ events (Net.fetchChunksIndividually (RR := reader pages) 200 2000 rest' 2
                      (world_of (Net.fetchChunkData (RR := reader pages) 200 2000 a 2 w0))) /\
       (events (Net.fetchChunkData (RR := reader pages) 200 2000 a 2 w0) = [EvRead a] \/
        events (Net.fetchChunkData (RR := reader pages) 200 2000 a 2 w0)
        = [EvRead a; EvSleep 200; EvRead a])) /\
    (forall r k addrs' w0 w1 rs w2,
       true = true -> addrs' <> [] -> k < r ->
       aggregateFails (RR := reader pages) k addrs' w0 = Some w1 ->
       aggregate3 (RemoteReader := reader pages) addrs' w1 = (Some rs, w2) ->
       events (Net.fetchChunksBatch (RR := reader pages) true 200 2000 addrs' r w0)
       = failedAggregates addrs' 0 k ++ [EvAggregate addrs']).
Proof.
  apply (batch_fetch_attempts (RR := reader pages) true 5 4 0 leaves5
           {| Loader.chunks := []; Loader.failed := [] |} outage).
  simpl. lia.
Defined.

(** C5, counterexample.  The aggregate call fails twice and would go through
    the third time; [leaf1] fails two reads and would answer the third.  The
    batch loader makes two aggregated calls, not three, then reads the five
    addresses one by one, [leaf1] twice only, and records leaf 1 as failed,
    with its line in the log. *)
Lemma batch_falls_back_after_two_attempts :
  let run := Loader.loadChunksInBatches (RR := reader pages) true 5 leaves5 outage in
  events run
  = [EvAggregate fiveAddresses; EvSleep 300; EvAggregate fiveAddresses;
     EvRead leaf0; EvRead leaf1; EvSleep 200; EvRead leaf1;
     EvRead leaf2; EvRead leaf3; EvRead leaf4; EvLog (LogChunkFailed 2)] /\
  (exists ld, outcome run = Ok ld /\ Loader.failed ld = [Some leafD1]) /\
  (exists rs w', aggregate3 (RemoteReader := reader pages) fiveAddresses (world_of run)
                 = (Some rs, w')) /\
  (exists w', readContract (RemoteReader := reader pages) leaf1 (world_of run)
              = (Some [x63; x64], w')).
Proof.
  vm_compute. split; [reflexivity|]. split; [eexists; split; reflexivity|].
  split; eexists; try eexists; reflexivity.
Qed.

End RetryRuns.

(** ** Segments of the streaming variant *)

(** On bounds in order that are not negative the two slices agree. *)
Lemma sliceZ_slice {A} (s n : nat) (zs zn : Z) (l : list A) :
  zs = Z.of_nat s -> zn = Z.of_nat n ->
  sliceZ zs (zs + zn) l = slice s (s + n) l.
Proof.
  intros -> ->. unfold sliceZ, slice.
  destruct (Z.ltb_spec (Z.of_nat s) 0) as [Hneg|_]; [lia|].
  destruct (Z.ltb_spec (Z.of_nat s + Z.of_nat n) 0) as [Hneg|_]; [lia|].
  destruct (Nat.le_gt_cases s (length l)) as [Hs|Hs].
  - rewrite (Z.min_l (Z.of_nat s)) by lia. rewrite Nat2Z.id.
    destruct (Nat.le_gt_cases (s + n) (length l)) as [He|He].
    + rewrite Z.min_l by lia. f_equal. lia.
    + rewrite Z.min_r by lia.
      rewrite !take_ge; [reflexivity| |]; rewrite length_drop; lia.
  - rewrite !drop_ge by lia. rewrite !take_nil. reflexivity.
Qed.

Section SegmentFacts.
Variable CHUNK_SIZE : nat.

Lemma ceilDiv_upper b : 0 < CHUNK_SIZE -> b <= ceilDiv b CHUNK_SIZE * CHUNK_SIZE.
Proof.
  intros HCS. unfold ceilDiv.
  pose proof (Nat.div_mod (b + CHUNK_SIZE - 1) CHUNK_SIZE ltac:(lia)) as Hd.
  pose proof (Nat.mod_upper_bound (b + CHUNK_SIZE - 1) CHUNK_SIZE ltac:(lia)) as Hm.
  nia.
Qed.

Lemma floorDiv_lower a : 0 < CHUNK_SIZE -> a / CHUNK_SIZE * CHUNK_SIZE <= a.
Proof.
  intros HCS. pose proof (Nat.div_mod a CHUNK_SIZE ltac:(lia)) as Hd. nia.
Qed.

(** Chunks all of the fixed size concatenate to a buffer of the expected
    length. *)
Lemma full_chunks_length (l : list bytes) :
  Forall (fun c => length c = CHUNK_SIZE) l ->
  length (concat l) = length l * CHUNK_SIZE.
Proof.
  induction 1 as [|c l Hc _ IH]; [reflexivity|].
  simpl. rewrite length_app, Hc, IH. reflexivity.
Qed.

Lemma concat_take_full (l : list bytes) k :
  k <= length l ->
  Forall (fun c => length c = CHUNK_SIZE) (take k l) ->
  concat (take k l) = take (k * CHUNK_SIZE) (concat l) /\
  concat (drop k l) = drop (k * CHUNK_SIZE) (concat l).
Proof.
  intros Hk Hfull. pose proof (full_chunks_length _ Hfull) as Hlen.
  rewrite length_take, Nat.min_l in Hlen by exact Hk.
  rewrite <- (take_drop k l) at 2 4. rewrite concat_app. split.
  - rewrite take_app_length'; [reflexivity|lia].
  - rewrite drop_app_length'; [reflexivity|lia].
Qed.

Lemma mapM_seq_some (m : gmap nat bytes) : forall n s0,
  (forall i, s0 <= i < s0 + n -> is_Some (m !! i)) ->
  is_Some (mapM (fun i => m !! i) (seq s0 n)).
Proof.
  induction n as [|n IH]; intros s0 H; [simpl; eauto|].
  simpl. destruct (H s0 ltac:(lia)) as [c ->]. simpl.
  destruct (IH (S s0) ltac:(intros; apply H; lia)) as [k ->]. simpl. eauto.
Qed.

Lemma mapM_seq_lookup (m : gmap nat bytes) (l : list bytes) : forall n start,
  (forall i, start <= i < start + n -> is_Some (m !! i)) ->
  (forall i c, m !! i = Some c -> l !! i = Some c) ->
  0 < n ->
  mapM (fun i => m !! i) (seq start n) = Some (take n (drop start l)) /\
  start + n <= length l.
Proof.
  induction n as [|n IH]; intros start Hall Hsub Hn; [lia|].
  destruct (Hall start ltac:(lia)) as [c Hc].
  pose proof (Hsub _ _ Hc) as Hl.
  simpl. rewrite Hc. simpl. rewrite (drop_S _ _ _ Hl).
  destruct n as [|n].
  - apply lookup_lt_Some in Hl. simpl. rewrite take_0. split; [reflexivity|lia].
  - destruct (IH (S start) ltac:(intros; apply Hall; lia) Hsub ltac:(lia)) as [Hrest Hlen].
    rewrite Hrest. simpl. split; [reflexivity|lia].
Qed.

Lemma isSegmentComplete_spec sg (m : gmap nat bytes) :
  VideoLoader.isSegmentComplete sg m = true <->
  forall i, VideoLoader.adjustedChunkStart sg <= i < VideoLoader.adjustedChunkEnd sg ->
            is_Some (m !! i).
Proof.
  unfold VideoLoader.isSegmentComplete. rewrite forallb_forall. split.
  - intros H i Hi. specialize (H i). rewrite bool_decide_eq_true in H. apply H.
    apply in_seq. lia.
  - intros H i Hi. apply in_seq in Hi. apply bool_decide_eq_true, H. lia.
Qed.

(** A complete segment can be extracted. *)
Lemma extract_complete hl sg (m : gmap nat bytes) :
  VideoLoader.isSegmentComplete sg m = true ->
  is_Some (VideoLoader.extractSegmentData CHUNK_SIZE hl sg m).
Proof.
  rewrite isSegmentComplete_spec. intros Hall.
  unfold VideoLoader.extractSegmentData.
  destruct (mapM_seq_some m
              (VideoLoader.adjustedChunkEnd sg - VideoLoader.adjustedChunkStart sg)
              (VideoLoader.adjustedChunkStart sg)) as [cs ->]; [|eauto].
  intros i Hi. apply Hall. lia.
Qed.

Lemma full_prefix (allChunks : list bytes) start k :
  (forall i c, S i < length allChunks -> allChunks !! i = Some c ->
               length c = CHUNK_SIZE) ->
  start + k < length allChunks ->
  Forall (fun c => length c = CHUNK_SIZE) (take k (drop start allChunks)).
Proof.
  intros Hreg Hlt. apply Forall_lookup. intros j c Hj.
  apply lookup_take_Some in Hj as [Hj Hjk]. rewrite lookup_drop in Hj.
  eapply Hreg; [|exact Hj]. lia.
Qed.

(** C9 (as amended).  Take a segment of the adjusted segment map whose
    covering chunks are all in the chunk map, the map holding chunks of the
    content and every chunk but possibly the last having length
    [CHUNK_SIZE].  If moreover the segment is well formed and ends inside
    the content ([byteStart <= byteEnd] and
    [byteEnd + 4 + headerLength <= length content]), then
    [extractSegmentData] returns exactly the [byteEnd - byteStart] bytes of
    the content at the absolute offsets
    [byteStart + 4 + headerLength .. byteEnd + 4 + headerLength). *)
Theorem extract_segment_bytes hl (allChunks : list bytes) (m : gmap nat bytes) segs sg :
  0 < CHUNK_SIZE ->
  (forall i c, S i < length allChunks -> allChunks !! i = Some c ->
               length c = CHUNK_SIZE) ->
  (forall i c, m !! i = Some c -> allChunks !! i = Some c) ->
  sg ∈ VideoLoader.adjustSegmentOffsets CHUNK_SIZE hl segs ->
  VideoLoader.isSegmentComplete sg m = true ->
  VideoLoader.byteStart (VideoLoader.seg sg) <= VideoLoader.byteEnd (VideoLoader.seg sg) ->
  VideoLoader.byteEnd (VideoLoader.seg sg) + (4 + hl) <= length (concat allChunks) ->
  exists out,
    VideoLoader.extractSegmentData CHUNK_SIZE hl sg m = Some out /\
    out = slice (VideoLoader.byteStart (VideoLoader.seg sg) + (4 + hl))
                (VideoLoader.byteEnd (VideoLoader.seg sg) + (4 + hl))
                (concat allChunks) /\
    length out
    = VideoLoader.byteEnd (VideoLoader.seg sg) - VideoLoader.byteStart (VideoLoader.seg sg).
Proof.
  intros HCS Hreg Hsub Hin Hcomplete Hwf Hrange.
  unfold VideoLoader.adjustSegmentOffsets in Hin.
  apply list_elem_of_fmap in Hin as (x & -> & _).
  rewrite isSegmentComplete_spec in Hcomplete.
  unfold VideoLoader.extractSegmentData.
  cbn [VideoLoader.seg VideoLoader.adjustedChunkStart VideoLoader.adjustedChunkEnd] in *.
  set (bS := VideoLoader.byteStart x) in *. set (bE := VideoLoader.byteEnd x) in *.
  set (a := bS + (4 + hl)) in *. set (b := bE + (4 + hl)) in *.
  set (cs := a / CHUNK_SIZE) in *. set (ce := ceilDiv b CHUNK_SIZE) in *.
  pose proof (floorDiv_lower a HCS) as Hlo. fold cs in Hlo.
  pose proof (ceilDiv_upper b HCS) as Hhi. fold ce in Hhi.
  assert (length
            (take (bE - bS) (drop a (concat allChunks))) = bE - bS) as Hlen.
  { rewrite length_take, length_drop. unfold a, b in *. lia. }
  assert (slice a b (concat allChunks) = take (bE - bS) (drop a (concat allChunks))) as Hslice.
  { unfold slice. f_equal. unfold a, b. lia. }
  destruct (Nat.eq_dec (ce - cs) 0) as [Hz|Hnz].
  - rewrite Hz. cbn [seq mapM mbind mret option_bind option_ret].
    rewrite (sliceZ_slice (a - cs * CHUNK_SIZE) (bE - bS)) by lia.
    eexists. split; [reflexivity|].
    assert (bE - bS = 0) as Hsl by (unfold a, b in *; nia).
    rewrite Hslice, Hsl.
    unfold slice. rewrite concatBuffers_concat. simpl.
    rewrite drop_nil, take_nil, take_0. split; reflexivity.
  - destruct (mapM_seq_lookup m allChunks (ce - cs) cs) as [Hmap Hbound];
      [intros i Hi; apply Hcomplete; lia|exact Hsub|lia|].
    rewrite Hmap.
    rewrite (sliceZ_slice (a - cs * CHUNK_SIZE) (bE - bS)) by lia.
    eexists. split; [reflexivity|].
    rewrite Hslice. rewrite concatBuffers_concat.
    assert (slice (a - cs * CHUNK_SIZE) (a - cs * CHUNK_SIZE + (bE - bS))
              (concat (take (ce - cs) (drop cs allChunks)))
            = take (bE - bS) (drop a (concat allChunks))) as ->; [|split; [reflexivity|exact Hlen]].
    unfold slice.
    replace (a - cs * CHUNK_SIZE + (bE - bS) - (a - cs * CHUNK_SIZE)) with (bE - bS) by lia.
    destruct (concat_take_full allChunks cs ltac:(lia)) as [_ Hdrop].
    { rewrite <- (drop_0 allChunks). apply full_prefix; [exact Hreg|lia]. }
    assert (drop a (concat allChunks)
            = drop (a - cs * CHUNK_SIZE) (concat (drop cs allChunks))) as ->.
    { rewrite Hdrop, drop_drop. f_equal. lia. }
    destruct (Nat.eq_dec (cs + (ce - cs)) (length allChunks)) as [Hall|Hless].
    + rewrite (take_ge (drop cs allChunks)); [reflexivity|]. rewrite length_drop. lia.
    + destruct (concat_take_full (drop cs allChunks) (ce - cs)) as [Htake _].
      { rewrite length_drop. lia. }
      { apply full_prefix; [exact Hreg|lia]. }
      rewrite Htake.
      rewrite (take_drop_commute _ ((ce - cs) * CHUNK_SIZE - (a - cs * CHUNK_SIZE))
                 (a - cs * CHUNK_SIZE)) || idtac.
      replace ((ce - cs) * CHUNK_SIZE)
        with (a - cs * CHUNK_SIZE + ((ce - cs) * CHUNK_SIZE - (a - cs * CHUNK_SIZE)))
        by (unfold a, b in *; nia).
      rewrite <- take_drop_commute, take_take. f_equal.
      unfold a, b in *. nia.
Qed.

End SegmentFacts.

(** * Further properties of the code *)

(** ** The network functions of loader.js *)
Section NetworkProperties.
Context {World : Type} `{RR : RemoteReader World}.

Lemma failedAttempts_fetchEvent a i k :
  Forall (fetchEvent a) (failedAttempts 200 2000 a i k).
Proof.
  unfold failedAttempts. apply Forall_flat_map, Forall_forall.
  intros j _. constructor; [reflexivity|]. constructor; [|constructor].
  assert (0 < 2 ^ Z.of_nat j)%Z by (apply Z.pow_pos_nonneg; lia).
  unfold fetchEvent. lia.
Qed.

(** [fetchChunkData] with [r >= 1] attempts reads its address at least once
    and at most [r] times, waiting [min (200 * 2^j) 2000] ms after the failed
    attempt [j] and never after the last one.  It returns the payload of the
    first read that succeeds, and it throws only when all [r] reads have
    failed; it never returns [undefined]. *)
Theorem fetch_chunk_attempts a r w :
  0 < r ->
  let run := Net.fetchChunkData 200 2000 a r w in
  (exists k, k < r /\ events run = failedAttempts 200 2000 a 0 k ++ [EvRead a]) /\
  ((exists k w1 d w2, k < r /\ readFails k a w = Some w1 /\
      readContract a w1 = (Some d, w2) /\ outcome run = Ok (Some d)) \/
   (is_Some (readFails r a w) /\ outcome run = Throw RpcError /\
    events run = failedAttempts 200 2000 a 0 (r - 1) ++ [EvRead a])) /\
  Forall (fetchEvent a) (events run).
Proof.
  intros Hr run. subst run.
  destruct (fetchData_cases 200 2000 a r w Hr)
    as [(k & w1 & d & w2 & Hk & Hf & Hrd & Heq)|(w2 & Hf & Heq)]; rewrite Heq;
    unfold events, outcome; simpl.
  - split; [exists k; auto|]. split.
    + left. exists k, w1, d, w2. auto.
    + apply Forall_app. split; [apply failedAttempts_fetchEvent|].
      repeat constructor.
  - split; [exists (r - 1); split; [lia|reflexivity]|]. split.
    + right. rewrite Hf. eauto.
    + apply Forall_app. split; [apply failedAttempts_fetchEvent|].
      repeat constructor.
Qed.

(** [fetchChunksIndividually] never throws, whatever the reader does and
    whatever the number of attempts: it answers one result per address, in
    the order of the addresses, and only reads and waits.  With at least
    one attempt every address is read, so the failure of one address does
    not keep the later ones from being fetched; and over a reader
    consistent with the tree a successful result carries the payload of its
    own address, a failed one no data. *)
Theorem fetch_individually_results addrs r w :
  exists rs w' e,
    Net.fetchChunksIndividually 200 2000 addrs r w = (Ok rs, w', e) /\
    length rs = length addrs /\
    Forall netEvent e /\
    (0 < r -> forall a, a ∈ addrs -> EvRead a ∈ e) /\
    (0 < r -> forall store, consistent store ->
       Forall2 (fun a res =>
                  if success res then exists d, data res = Some d /\ store a = Some d
                  else data res = None) addrs rs).
Proof.
  revert w. induction addrs as [|a addrs IH]; intros w.
  - exists [], w, []. split; [reflexivity|]. split; [reflexivity|].
    split; [constructor|]. split; [intros _ a Ha; inversion Ha|].
    intros _ store _. constructor.
  - destruct (IH (world_of (Net.fetchChunkData 200 2000 a r w)))
      as (rs & w2 & e2 & Hrun & Hlen & Hnet & Hrd & Hall).
    pose proof (fetchData_net 200 2000 a r w) as Hn1.
    assert (0 < r -> EvRead a ∈ events (Net.fetchChunkData 200 2000 a r w)) as Hra.
    { intros Hr.
      destruct (fetchData_cases 200 2000 a r w Hr)
        as [(k & w1 & d & w3 & _ & _ & _ & Heq)|(w3 & _ & Heq)];
        rewrite Heq; unfold events; simpl; apply elem_of_app; right; constructor. }
    assert (0 < r -> forall store, consistent store ->
            match outcome (Net.fetchChunkData 200 2000 a r w) with
            | Ok got => exists d, got = Some d /\ store a = Some d
            | Throw _ => True
            end) as Hgot.
    { intros Hr store Hc.
      destruct (fetchData_cases 200 2000 a r w Hr)
        as [(k & w1 & d & w3 & _ & _ & Hread & Heq)|(w3 & _ & Heq)];
        rewrite Heq; unfold outcome; simpl; [|exact I].
      exists d. split; [reflexivity|]. eapply Hc; eauto. }
    simpl. unfold bind at 1, try_catch, bind at 1.
    destruct (Net.fetchChunkData 200 2000 a r w) as [[[got|err] w1] e1];
      unfold world_of, events, outcome in *; simpl in *;
      unfold bind; rewrite Hrun; simpl; rewrite ?app_nil_r;
      eexists _, _, _; (split; [reflexivity|]); simpl;
      (split; [congruence|]);
      (split; [apply Forall_app; split; assumption|]);
      (split; [intros Hr b Hb; apply elem_of_app;
               apply elem_of_cons in Hb as [-> | Hb]; [left; auto|right; auto]|]);
      intros Hr store Hc; (constructor; [|apply Hall; assumption]); simpl.
    + destruct (Hgot Hr store Hc) as (d & -> & Hs). eauto.
    + reflexivity.
Qed.

(** [fetchChunksBatch] with [r >= 1] attempts never throws either, with or
    without aggregation: a failing aggregate call ends in the per-address
    fallback, which catches every error.  It always returns an array, with
    one result per address when the aggregate contract answers one slot per
    call, and for an empty list of addresses it makes no call at all. *)
Theorem fetch_batch_returns mc addrs r w :
  0 < r ->
  exists rs w' e,
    Net.fetchChunksBatch mc 200 2000 addrs r w = (Ok (Some rs), w', e) /\
    Forall netEvent e /\
    (aligned -> length rs = length addrs) /\
    (addrs = [] -> rs = [] /\ e = [] /\ w' = w).
Proof.
  intros Hr.
  destruct (fetchBatch_total mc 200 2000 addrs r w Hr) as (rs & w' & e & Hrun & Hn & Hal).
  exists rs, w', e. split; [exact Hrun|]. split; [exact Hn|]. split; [exact Hal|].
  intros ->. unfold Net.fetchChunksBatch in Hrun. simpl in Hrun.
  rewrite orb_true_r in Hrun. cbv in Hrun. injection Hrun as <- <- <-. auto.
Qed.

(** *** A healthy network *)
Section Healthy.
Variable store : Address -> option bytes.
Variable good : World -> Prop.
Hypothesis Hef : errorFree store good.

Lemma fetchEach_healthy base cap r : forall addrs w,
  good w -> Forall (fun a => is_Some (store a)) addrs -> 0 < r ->
  exists w',
    Net.fetchChunksIndividually base cap addrs r w
    = (Ok (map (fun a => {| success := true; data := store a |}) addrs), w',
       map EvRead addrs)
    /\ good w'.
Proof using Hef.
  induction addrs as [|a addrs IH]; intros w Hg Hall Hr.
  - exists w. split; [reflexivity|exact Hg].
  - apply Forall_cons in Hall as [[payload Hs] Hall].
    destruct (fetchData_errorFree store good Hef base cap a payload r w Hg Hs Hr)
      as (w1 & Hfetch & Hg1).
    destruct (IH w1 Hg1 Hall Hr) as (w2 & Hrest & Hg2).
    simpl. unfold bind at 1, try_catch, bind at 1. rewrite Hfetch. simpl.
    unfold bind. rewrite Hrest. simpl. rewrite Hs, app_nil_r.
    exists w2. split; [reflexivity|exact Hg2].
Qed.

Lemma fetchBatch_healthy mc base cap addrs r w :
  good w -> Forall (fun a => is_Some (store a)) addrs -> 0 < r -> addrs <> [] ->
  exists w',
    Net.fetchChunksBatch mc base cap addrs r w
    = (Ok (Some (map (fun a => {| success := true; data := store a |}) addrs)), w',
       if mc then [EvAggregate addrs] else map EvRead addrs)
    /\ good w'.
Proof using Hef.
  intros Hg Hall Hr Hne. unfold Net.fetchChunksBatch.
  destruct addrs as [|a0 addrs0] eqn:Ha; [congruence|]. rewrite <- Ha in *.
  replace (length addrs =? 0) with false by (rewrite Ha; reflexivity).
  rewrite orb_false_r. destruct mc; simpl.
  - destruct (ef_aggregate _ _ Hef addrs w Hg) as (w' & Hagg & Hg').
    rewrite (mcFrom_success base cap addrs 0 r 0 r w w _ w' eq_refl Hagg Hr eq_refl).
    exists w'. split; [|exact Hg'].
    rewrite map_map. simpl. do 4 f_equal.
    apply Forall_fmap_ext. eapply Forall_impl; [exact Hall|].
    intros a [payload Hs]. unfold Net.parseSlot, slotOf. rewrite Hs. reflexivity.
  - destruct (fetchEach_healthy base cap r addrs w Hg Hall Hr) as (w' & Hrun & Hg').
    unfold bind. rewrite Hrun. simpl. rewrite app_nil_r.
    exists w'. split; [reflexivity|exact Hg'].
Qed.

End Healthy.

End NetworkProperties.

(** ** loader.js: the batch loop *)
Section CeilDiv.
Variable B : nat.
Hypothesis HB : 0 < B.

Lemma ceilDiv_0 : ceilDiv 0 B = 0.
Proof using HB. unfold ceilDiv. apply Nat.div_small. lia. Qed.

Lemma ceilDiv_step n : B < n -> ceilDiv n B = S (ceilDiv (n - B) B).
Proof using HB.
  intros Hn. unfold ceilDiv.
  replace (n + B - 1) with ((n - B + B - 1) + 1 * B) by lia.
  rewrite Nat.div_add by lia. lia.
Qed.

Lemma ceilDiv_last n : 0 < n -> n <= B -> ceilDiv n B = 1.
Proof using HB.
  intros H0 Hn. unfold ceilDiv.
  replace (n + B - 1) with ((n - 1) + 1 * B) by lia.
  rewrite Nat.div_add by lia. rewrite Nat.div_small by lia. reflexivity.
Qed.
End CeilDiv.

Section LoaderProperties.
Context {World : Type} `{RR : RemoteReader World}.

Lemma requested_reads (l : list Address) : flat_map requested (map EvRead l) = l.
Proof. induction l as [|a l IH]; simpl; congruence. Qed.

Lemma calls_reads (l : list Address) : List.filter isCall (map EvRead l) = map EvRead l.
Proof. induction l as [|a l IH]; simpl; congruence. Qed.

Lemma pauses_reads (l : list Address) : List.filter isPause (map EvRead l) = [].
Proof. induction l as [|a l IH]; simpl; congruence. Qed.

Section Healthy.
Variable store : Address -> option bytes.
Variable good : World -> Prop.
Hypothesis Hef : errorFree store good.
Variable mc : bool.
Variable B : nat.
Hypothesis HB : 0 < B.

Lemma loadFrom_healthy : forall fuel i lvs acc w,
  good w -> Forall (fun l => is_Some (store (address l))) lvs ->
  length lvs - i <= fuel ->
  exists w' e,
    Loader.loadFrom mc B fuel i lvs acc w
    = (Ok {| Loader.chunks :=
               Loader.chunks acc ++ map (payloadChunk store) (drop i lvs);
             Loader.failed := Loader.failed acc |}, w', e) /\ good w' /\
    flat_map requested e = map address (drop i lvs) /\
    length (List.filter isCall e)
    = (if mc then ceilDiv (length lvs - i) B else length lvs - i) /\
    List.filter isPause e = replicate (ceilDiv (length lvs - i) B - 1) (EvSleep 100).
Proof using Hef HB.
  induction fuel as [|fuel IH]; intros i lvs acc w Hg Hall Hfuel.
  - exists w, []. simpl. rewrite drop_ge by lia. simpl. rewrite app_nil_r.
    replace (length lvs - i) with 0 by lia. rewrite ceilDiv_0 by exact HB.
    split; [destruct acc; reflexivity|]. split; [exact Hg|].
    destruct mc; auto.
  - simpl. destruct (Nat.ltb_spec i (length lvs)) as [Hi|Hi].
    + set (batch := slice i (Nat.min (i + B) (length lvs)) lvs).
      assert (Forall (fun l => is_Some (store (address l))) batch) as Hb.
      { unfold batch, slice. apply Forall_take, Forall_drop, Hall. }
      assert (length batch = Nat.min (i + B) (length lvs) - i) as Hlen.
      { unfold batch, slice. rewrite length_take, length_drop. lia. }
      assert (map address batch <> []) as Hne.
      { intros Heq. apply (f_equal length) in Heq. rewrite length_map in Heq.
        simpl in Heq. lia. }
      destruct (fetchBatch_healthy store good Hef mc 200 2000 (map address batch) 2 w Hg)
        as (w1 & Hrun & Hg1); [apply Forall_map; exact Hb|lia|exact Hne|].
      unfold bind at 1, try_catch, bind at 1. rewrite Hrun. simpl.
      unfold bind at 1. rewrite processResults_spec by (rewrite drop_0, !length_map; lia).
      simpl. rewrite drop_0.
      destruct (batch_all_ok store batch Hb) as [-> ->]. simpl. rewrite !app_nil_r.
      set (acc1 := {| Loader.chunks := _; Loader.failed := _ |}).
      destruct (IH (i + B) lvs acc1 w1 Hg1 Hall ltac:(lia))
        as (w2 & e2 & Hrest & Hg2 & Hreq & Hcalls & Hpauses).
      unfold bind.
      assert (map address (drop i lvs)
              = map address batch ++ map address (drop (i + B) lvs)) as Hsplit.
      { rewrite (batch_split B lvs i). fold batch. apply map_app. }
      destruct (Nat.ltb_spec (i + B) (length lvs)) as [Hmore|Hlast];
        unfold sleep, emit, ret; simpl; rewrite Hrest; simpl;
        eexists w2, _; (split; [rewrite (batch_split B lvs i); fold batch;
                                rewrite map_app, <- app_assoc; reflexivity|]);
        (split; [exact Hg2|]); rewrite !flat_map_app, !List.filter_app, !length_app;
        simpl; rewrite Hreq, Hcalls, Hpauses, Hsplit.
      * rewrite (ceilDiv_step B HB (length lvs - i)) by lia.
        replace (length lvs - i - B) with (length lvs - (i + B)) by lia.
        assert (0 < ceilDiv (length lvs - (i + B)) B) as Hpos.
        { destruct (Nat.le_gt_cases (length lvs - (i + B)) B).
          - rewrite ceilDiv_last; lia.
          - rewrite ceilDiv_step; lia. }
        destruct mc; simpl.
        -- rewrite ?app_nil_r. split; [reflexivity|]. split; [lia|].
           rewrite ?Nat.sub_0_r.
           destruct (ceilDiv (length lvs - (i + B)) B); [lia|].
           simpl. rewrite Nat.sub_0_r. reflexivity.
        -- rewrite ?app_nil_r, ?requested_reads, ?calls_reads, ?pauses_reads, ?length_map.
           split; [reflexivity|]. split; [lia|].
           rewrite ?Nat.sub_0_r.
           destruct (ceilDiv (length lvs - (i + B)) B); [lia|].
           simpl. rewrite Nat.sub_0_r. reflexivity.
      * rewrite (ceilDiv_last B HB (length lvs - i)) by lia.
        replace (length lvs - (i + B)) with 0 by lia.
        rewrite ceilDiv_0 by exact HB.
        destruct mc; simpl.
        -- rewrite ?app_nil_r. split; [reflexivity|]. split; reflexivity.
        -- rewrite ?app_nil_r, ?requested_reads, ?calls_reads, ?pauses_reads, ?length_map.
           split; [reflexivity|]. split; [lia|reflexivity].
    + exists w, []. rewrite drop_ge by lia. simpl. rewrite app_nil_r.
      replace (length lvs - i) with 0 by lia. rewrite ceilDiv_0 by exact HB.
      split; [destruct acc; reflexivity|]. split; [exact Hg|].
      destruct mc; auto.
Qed.

End Healthy.


Lemma fetchTree_healthy store good mc B root depth total w :
  errorFree store good -> good w -> 0 < B ->
  Tree.treeReadable store depth root ->
  Forall (fun a => is_Some (store a)) (Tree.treeLeaves store depth root) ->
  exists w' e,
    Loader.fetchTreeSequential mc B root depth total w
    = (Ok (concat (map (fun a => default [] (store a))
                       (Tree.treeLeaves store depth root))), w', e).
Proof.
  intros Hef Hg HB Hread Hleaves.
  destruct (collect_total store good Hef root depth w Hg Hread) as (w1 & e1 & Hcol & Hg1).
  set (lvs := Tree.numbered 0 (Tree.treeLeaves store depth root)) in *.
  assert (Forall (fun l => is_Some (store (address l))) lvs) as Hall.
  { rewrite Forall_forall in Hleaves. apply Forall_forall. intros lf Hin.
    apply Hleaves. rewrite <- (numbered_address 0). apply list_elem_of_fmap. eauto. }
  destruct (loadFrom_healthy store good Hef mc B HB (length lvs) 0 lvs
              {| Loader.chunks := []; Loader.failed := [] |} w1 Hg1 Hall ltac:(lia))
    as (w2 & e2 & Hload & _).
  simpl in Hload. rewrite drop_0 in Hload.
  exists w2. eexists.
  unfold Loader.fetchTreeSequential, bind. rewrite Hcol.
  unfold Loader.loadChunksInBatches. rewrite Hload. simpl.
  rewrite sortByIndex_id, assemble_concat.
  - rewrite map_map. unfold payloadChunk. simpl.
    rewrite <- (map_map address (fun a => default [] (store a)) lvs).
    unfold lvs. rewrite numbered_address. reflexivity.
  - apply (sorted_of_seq _ 0). rewrite map_map, length_map. simpl.
    change (fun x => index x) with index. unfold lvs.
    rewrite numbered_index, numbered_length. reflexivity.
Qed.

(** The [multicall=false] switch changes how the chunks are fetched, not
    what is returned: on a healthy network [fetchTreeSequential] returns the
    same bytes with aggregation on and off, namely the payloads of the
    leaves of the tree, depth-first, laid end to end. *)
Theorem multicall_switch_same_content store good B root depth total w :
  errorFree store good -> good w -> 0 < B ->
  Tree.treeReadable store depth root ->
  Forall (fun a => is_Some (store a)) (Tree.treeLeaves store depth root) ->
  outcome (Loader.fetchTreeSequential true B root depth total w)
  = outcome (Loader.fetchTreeSequential false B root depth total w) /\
  outcome (Loader.fetchTreeSequential false B root depth total w)
  = Ok (concat (map (fun a => default [] (store a)) (Tree.treeLeaves store depth root))).
Proof.
  intros Hef Hg HB Hread Hleaves.
  destruct (fetchTree_healthy store good true B root depth total w Hef Hg HB Hread Hleaves)
    as (w1 & e1 & ->).
  destruct (fetchTree_healthy store good false B root depth total w Hef Hg HB Hread Hleaves)
    as (w2 & e2 & ->).
  split; reflexivity.
Qed.

End LoaderProperties.

Section LoaderPropertyRuns.
Import Sim Scenario.



Lemma multicall_switch_same_content_witness :
  outcome (Loader.fetchTreeSequential (RR := reader pages) true 2 root 2 9 calm)
  = outcome (Loader.fetchTreeSequential (RR := reader pages) false 2 root 2 9 calm) /\
  outcome (Loader.fetchTreeSequential (RR := reader pages) false 2 root 2 9 calm)
  = Ok (concat (map (fun a => default [] (store pages a))
                    (Tree.treeLeaves (store pages) 2 root))).
Proof.
  apply (multicall_switch_same_content (RR := reader pages) (store pages) isCalm 2
           root 2 9 calm).
  - apply sim_errorFree.
  - reflexivity.
  - lia.
  - simpl. repeat constructor.
  - repeat constructor; eexists; reflexivity.
Defined.

Lemma fetch_chunk_attempts_witness :
  let run := Net.fetchChunkData (RR := reader pages) 200 2000 leaf1 3 (flaky 2) in
  (exists k, k < 3 /\ events run = failedAttempts 200 2000 leaf1 0 k ++ [EvRead leaf1]) /\
  ((exists k w1 d w2, k < 3 /\ readFails (RR := reader pages) k leaf1 (flaky 2) = Some w1 /\
      readContract (RemoteReader := reader pages) leaf1 w1 = (Some d, w2) /\
      outcome run = Ok (Some d)) \/
   (is_Some (readFails (RR := reader pages) 3 leaf1 (flaky 2)) /\
    outcome run = Throw RpcError /\
    events run = failedAttempts 200 2000 leaf1 0 (3 - 1) ++ [EvRead leaf1])) /\
  Forall (fetchEvent leaf1) (events run).
Proof.
  apply (fetch_chunk_attempts (RR := reader pages) leaf1 3 (flaky 2)). lia.
Defined.

Lemma fetch_individually_results_witness :
  exists rs w' e,
    Net.fetchChunksIndividually (RR := reader pagesHole) 200 2000 fiveAddresses 2 calm
    = (Ok rs, w', e) /\
    length rs = length fiveAddresses /\
    Forall netEvent e /\
    (0 < 2 -> forall a, a ∈ fiveAddresses -> EvRead a ∈ e) /\
    (0 < 2 -> forall store, consistent (RR := reader pagesHole) store ->
       Forall2 (fun a res =>
                  if success res then exists d, data res = Some d /\ store a = Some d
                  else data res = None) fiveAddresses rs).
Proof.
  apply (fetch_individually_results (RR := reader pagesHole) fiveAddresses 2 calm).
Defined.

(** In that run the missing page costs two reads and gives a failed
    result; the pages after it are fetched all the same. *)
Example individual_fetch_goes_on :
  outcome (Net.fetchChunksIndividually (RR := reader pagesHole) 200 2000 fiveAddresses 2 calm)
  = Ok [ {| success := true; data := Some [x61; x62] |};
         {| success := false; data := None |};
         {| success := true; data := Some [x65; x66] |};
         {| success := true; data := Some [x67; x68] |};
         {| success := true; data := Some [x69] |} ].
Proof. vm_compute. reflexivity. Qed.

Lemma fetch_batch_returns_witness :
  exists rs w' e,
    Net.fetchChunksBatch (RR := reader pages) true 200 2000 fiveAddresses 2 outage
    = (Ok (Some rs), w', e) /\
    Forall netEvent e /\
    (aligned (RR := reader pages) -> length rs = length fiveAddresses) /\
    (fiveAddresses = [] -> rs = [] /\ e = [] /\ w' = outage).
Proof.
  apply (fetch_batch_returns (RR := reader pages) true fiveAddresses 2 outage). lia.
Defined.

End LoaderPropertyRuns.

(** ** Assembly *)
Section AssemblyProperties.

(** The bytes returned do not depend on the order in which the chunks were
    collected (the order of the batches, retried chunks pushed last): two
    collections holding the same chunks, no index twice, are sorted into the
    same list and assembled into the same buffer. *)
Theorem assembly_order_independent cs1 cs2 :
  cs1 ≡ₚ cs2 -> NoDup (map chunkIndex cs1) ->
  Loader.sortByIndex cs1 = Loader.sortByIndex cs2 /\
  Loader.assemble (Loader.sortByIndex cs1) = Loader.assemble (Loader.sortByIndex cs2).
Proof.
  intros Hp Hnd.
  assert (Loader.sortByIndex cs1 = Loader.sortByIndex cs2) as Heq.
  { apply sorted_unique; try apply sortByIndex_sorted.
    - rewrite !sortByIndex_perm. exact Hp.
    - rewrite sortByIndex_perm. exact Hnd. }
  rewrite Heq. split; reflexivity.
Qed.

Lemma assembly_order_independent_witness :
  let c0 := {| chunkIndex := 0; chunkData := [x61; x62] |} in
  let c1 := {| chunkIndex := 1; chunkData := [x63] |} in
  let c2 := {| chunkIndex := 2; chunkData := [x64; x65] |} in
  Loader.sortByIndex [c0; c2; c1] = Loader.sortByIndex [c1; c0; c2] /\
  Loader.assemble (Loader.sortByIndex [c0; c2; c1])
  = Loader.assemble (Loader.sortByIndex [c1; c0; c2]).
Proof.
  intros c0 c1 c2. apply (assembly_order_independent [c0; c2; c1] [c1; c0; c2]).
  - transitivity [c0; c1; c2]; [apply perm_skip, perm_swap|apply perm_swap].
  - apply (bool_decide_unpack _). reflexivity.
Defined.

(** The assembly loop ([new Uint8Array(totalBytes)], then [set] at a running
    offset) leaves no gap and overwrites nothing: the buffer is as long as
    the chunks together, and the chunk at position [k] of the sorted list
    lies intact at the offset given by the lengths of the chunks before
    it. *)
Theorem assembly_layout cs k c :
  Loader.sortByIndex cs !! k = Some c ->
  let sorted := Loader.sortByIndex cs in
  let out := Loader.assemble sorted in
  let offset := sum_list (map (fun x => length (chunkData x)) (take k sorted)) in
  length out = sum_list (map (fun x => length (chunkData x)) cs) /\
  slice offset (offset + length (chunkData c)) out = chunkData c.
Proof.
  intros Hk sorted out offset. subst out. rewrite assemble_concat.
  assert (forall l : list Chunk,
            length (concat (map chunkData l))
            = sum_list (map (fun x => length (chunkData x)) l)) as Hsum.
  { induction l as [|x l IH]; [reflexivity|]. simpl. rewrite length_app, IH. reflexivity. }
  split.
  - rewrite Hsum. subst sorted.
    assert (forall l1 l2 : list Chunk, l1 ≡ₚ l2 ->
              sum_list (map (fun x => length (chunkData x)) l1)
              = sum_list (map (fun x => length (chunkData x)) l2)) as Hperm.
    { induction 1; simpl; lia. }
    apply Hperm, sortByIndex_perm.
  - fold sorted in Hk. rewrite <- (take_drop_middle sorted k c Hk) at 1.
    rewrite map_app, concat_app. simpl.
    unfold slice, offset. rewrite <- Hsum.
    rewrite drop_app_length.
    replace (length (concat (map chunkData (take k sorted))) + length (chunkData c)
             - length (concat (map chunkData (take k sorted))))
      with (length (chunkData c)) by lia.
    apply take_app_length.
Qed.

Lemma assembly_layout_witness :
  let cs := [ {| chunkIndex := 2; chunkData := [x64; x65] |};
              {| chunkIndex := 0; chunkData := [x61; x62] |};
              {| chunkIndex := 1; chunkData := [x63] |} ] in
  let c := {| chunkIndex := 1; chunkData := [x63] |} in
  let sorted := Loader.sortByIndex cs in
  let out := Loader.assemble sorted in
  let offset := sum_list (map (fun x => length (chunkData x)) (take 1 sorted)) in
  length out = sum_list (map (fun x => length (chunkData x)) cs) /\
  slice offset (offset + length (chunkData c)) out = chunkData c.
Proof.
  intros cs c. apply (assembly_layout cs 1 c). reflexivity.
Defined.

End AssemblyProperties.

(** ** deploy-nft.js: the chunker *)
Section ChunkerProperties.

Lemma chunk_count_bound len size k :
  0 < size -> k < (len + size - 1) / size -> k * size < len.
Proof.
  intros Hs Hk.
  assert (S k * size <= len + size - 1) as H.
  { etransitivity; [|apply (Nat.Div0.mul_div_le _ size)].
    rewrite (Nat.mul_comm size). apply Nat.mul_le_mono_r. lia. }
  simpl in H. lia.
Qed.

(** [chunkBuffer] cuts a buffer into [ceil(length / size)] chunks, none of
    them empty, each of [size] bytes except possibly the last, which
    together are the buffer again; an empty buffer gives no chunk at all. *)
Theorem chunk_buffer_shape buf size :
  0 < size ->
  let chunks := Deploy.chunkBuffer buf size in
  length chunks = ceilDiv (length buf) size /\
  Forall (fun c => 0 < length c <= size) chunks /\
  (forall k c, chunks !! k = Some c -> S k < length chunks -> length c = size) /\
  concat chunks = buf /\
  (buf = [] -> chunks = []).
Proof.
  intros Hs chunks. subst chunks. unfold Deploy.chunkBuffer.
  split; [rewrite length_map, length_seq; reflexivity|].
  split.
  { apply Forall_forall. intros c Hc.
    apply list_elem_of_fmap in Hc as (k & -> & Hk).
    apply elem_of_seq in Hk. pose proof (chunk_count_bound (length buf) size k Hs) as Hb.
    unfold slice. rewrite length_take, length_drop. lia. }
  split.
  { intros k c Hk Hlast. rewrite length_map, length_seq in Hlast.
    rewrite list_lookup_fmap in Hk.
    destruct (seq 0 ((length buf + size - 1) / size) !! k) as [j|] eqn:Hj; [|discriminate].
    apply lookup_seq in Hj as [-> _]. simpl in Hk. injection Hk as <-.
    pose proof (chunk_count_bound (length buf) size (S k) Hs Hlast) as Hb.
    simpl in Hb. unfold slice. rewrite length_take, length_drop. lia. }
  split; [apply chunkBuffer_concat; exact Hs|].
  intros ->. simpl. rewrite Nat.div_small by lia. reflexivity.
Qed.

Lemma chunk_buffer_shape_witness :
  let chunks := Deploy.chunkBuffer Scenario.content 2 in
  length chunks = ceilDiv (length Scenario.content) 2 /\
  Forall (fun c => 0 < length c <= 2) chunks /\
  (forall k c, chunks !! k = Some c -> S k < length chunks -> length c = 2) /\
  concat chunks = Scenario.content /\
  (Scenario.content = [] -> chunks = []).
Proof. apply (chunk_buffer_shape Scenario.content 2). lia. Defined.

End ChunkerProperties.

(** ** deploy-nft.js: the tree builder *)
Section TreeBuilderFacts.
Context {Chain : Type} `{PD : DeployTree.PageDeployer Chain}.
Variable GROUP_SIZE : nat.

Lemma extends_refl s : extends s s.
Proof. intros a d H. exact H. Qed.

Lemma extends_trans s1 s2 s3 : extends s1 s2 -> extends s2 s3 -> extends s1 s3.
Proof. intros H1 H2 a d H. auto. Qed.

Lemma extends_tree s s' : extends s s' -> forall d a,
  Tree.treeReadable s d a ->
  Tree.treeReadable s' d a /\ Tree.treeLeaves s' d a = Tree.treeLeaves s d a.
Proof.
  intros Hext. induction d as [|d IH]; intros a Hr; [split; [exact I|reflexivity]|].
  simpl in *. destruct (s a) as [payload|] eqn:Hs; [|contradiction].
  rewrite (Hext _ _ Hs). split.
  - eapply Forall_impl; [exact Hr|]. intros c Hc. apply IH, Hc.
  - induction Hr as [|c l Hc _ IHl]; [reflexivity|].
    simpl. rewrite (proj2 (IH c Hc)), IHl. reflexivity.
Qed.

Lemma extends_forest s s' d (l : list Address) :
  extends s s' -> Forall (Tree.treeReadable s d) l ->
  Forall (Tree.treeReadable s' d) l /\
  flat_map (Tree.treeLeaves s' d) l = flat_map (Tree.treeLeaves s d) l.
Proof.
  intros Hext. induction 1 as [|c l Hc _ [IH1 IH2]]; [split; [constructor|reflexivity]|].
  destruct (extends_tree s s' Hext d c Hc) as [Hr Hl].
  split; [constructor; assumption|]. simpl. rewrite Hl, IH2. reflexivity.
Qed.

Section Laws.
Hypothesis Hdep : deploysPages.
Hypothesis HG : 0 < GROUP_SIZE.

Lemma deploy_extends c n ch a ch' :
  DeployTree.deployPage c n ch = (Some a, ch') ->
  extends (DeployTree.pageAt ch) (DeployTree.pageAt ch').
Proof using Hdep.
  intros Hd b d Hb. destruct (Hdep _ _ _ _ _ Hd) as (_ & Hfresh & _ & Hother).
  rewrite Hother; [exact Hb|]. intros ->. congruence.
Qed.

(** One level: the parents of the groups of [level] from position [i]
    on. *)
Lemma groupsFrom_spec d : forall fuel i (level : list Address) base parent ch parent' ch' e,
  length level - i <= fuel ->
  Forall (fun a => length a = 20) level ->
  Forall (Tree.treeReadable (DeployTree.pageAt ch) d) level ->
  DeployTree.groupsFrom GROUP_SIZE fuel i level base parent ch = (Ok parent', ch', e) ->
  exists new,
    parent' = parent ++ new /\
    extends (DeployTree.pageAt ch) (DeployTree.pageAt ch') /\
    Forall (fun a => length a = 20) new /\
    Forall (Tree.treeReadable (DeployTree.pageAt ch') (S d)) new /\
    flat_map (Tree.treeLeaves (DeployTree.pageAt ch') (S d)) new
    = flat_map (Tree.treeLeaves (DeployTree.pageAt ch) d) (drop i level) /\
    length new = ceilDiv (length level - i) GROUP_SIZE.
Proof using Hdep HG.
  induction fuel as [|fuel IH]; intros i level base parent ch parent' ch' e Hfuel H20 Hr Hrun.
  - simpl in Hrun. injection Hrun as <- <- <-. exists [].
    rewrite app_nil_r, drop_ge by lia.
    replace (length level - i) with 0 by lia. rewrite ceilDiv_0 by exact HG.
    repeat split; try constructor. apply extends_refl.
  - cbn [DeployTree.groupsFrom] in Hrun.
    destruct (i <? length level) eqn:Hi;
      [apply Nat.ltb_lt in Hi|apply Nat.ltb_ge in Hi].
    + unfold bind at 1, sleep, emit in Hrun. cbn [fst snd] in Hrun.
      unfold bind at 1, DeployTree.deploy in Hrun.
      set (group := slice i (i + GROUP_SIZE) level) in *.
      destruct (DeployTree.deployPage (concat group) (base + i / GROUP_SIZE) ch)
        as [[a|] ch1] eqn:Hd; [|simpl in Hrun; discriminate].
      destruct (DeployTree.groupsFrom GROUP_SIZE fuel (i + GROUP_SIZE) level base
                  (parent ++ [a]) ch1) as [[r w2] e2] eqn:Hrest.
      simpl in Hrun. injection Hrun as -> -> <-.
      pose proof (deploy_extends _ _ _ _ _ Hd) as Hext1.
      destruct (Hdep _ _ _ _ _ Hd) as (Ha20 & _ & Hpage & _).
      destruct (extends_forest _ _ d level Hext1 Hr) as [Hr1 Hl1].
      destruct (IH (i + GROUP_SIZE) level base (parent ++ [a]) ch1 parent' ch' e2
                  ltac:(lia) H20 Hr1 Hrest)
        as (new & -> & Hext2 & Hn20 & Hnr & Hnl & Hnlen).
      exists (a :: new). rewrite <- app_assoc. split; [reflexivity|].
      split; [eapply extends_trans; eassumption|].
      split; [constructor; assumption|].
      assert (Forall (fun a => length a = 20) group) as Hg20
        by (unfold group, slice; apply Forall_take, Forall_drop, H20).
      assert (Forall (Tree.treeReadable (DeployTree.pageAt ch1) d) group) as Hgr
        by (unfold group, slice; apply Forall_take, Forall_drop, Hr1).
      destruct (extends_forest _ _ d group Hext2 Hgr) as [Hgr2 Hgl2].
      assert (drop i level = group ++ drop (i + GROUP_SIZE) level) as Hsplit.
      { unfold group, slice. replace (i + GROUP_SIZE - i) with GROUP_SIZE by lia.
        rewrite <- drop_drop. symmetry. apply take_drop. }
      split; [|split].
      * constructor; [|exact Hnr]. simpl. rewrite (Hext2 _ _ Hpage).
        rewrite childAddrs_concat by exact Hg20. exact Hgr2.
      * assert (Tree.treeLeaves (DeployTree.pageAt ch') (S d) a
                = flat_map (Tree.treeLeaves (DeployTree.pageAt ch') d) group) as Hla.
        { simpl. rewrite (Hext2 _ _ Hpage), childAddrs_concat by exact Hg20. reflexivity. }
        cbn [flat_map]. rewrite Hla, Hnl, Hsplit, flat_map_app. f_equal.
        -- rewrite Hgl2.
           destruct (extends_forest _ _ d group Hext1) as [_ H]; [|exact H].
           unfold group, slice. apply Forall_take, Forall_drop, Hr.
        -- destruct (extends_forest _ _ d (drop (i + GROUP_SIZE) level) Hext1)
             as [_ H]; [|exact H].
           apply Forall_drop, Hr.
      * simpl. rewrite Hnlen.
        destruct (Nat.le_gt_cases (length level - i) GROUP_SIZE) as [Hlast|Hmore].
        -- rewrite (ceilDiv_last GROUP_SIZE HG (length level - i)) by lia.
           replace (length level - (i + GROUP_SIZE)) with 0 by lia.
           rewrite ceilDiv_0 by exact HG. reflexivity.
        -- rewrite (ceilDiv_step GROUP_SIZE HG (length level - i)) by lia.
           do 2 f_equal. lia.
    + injection Hrun as <- <- <-. exists [].
      rewrite app_nil_r, drop_ge by lia.
      replace (length level - i) with 0 by lia. rewrite ceilDiv_0 by exact HG.
      repeat split; try constructor. apply extends_refl.
Qed.

End Laws.
End TreeBuilderFacts.

Section TreeBuilderProperties.
Context {Chain : Type} `{PD : DeployTree.PageDeployer Chain}.
Variable GROUP_SIZE : nat.
Hypothesis Hdep : deploysPages.
Hypothesis HG : 2 <= GROUP_SIZE.

Lemma ceilDiv_shrinks m : 1 < m -> ceilDiv m GROUP_SIZE < m.
Proof using HG.
  intros Hm. unfold ceilDiv. apply Nat.Div0.div_lt_upper_bound. nia.
Qed.

Lemma ceilDiv_covers m : m <= GROUP_SIZE * ceilDiv m GROUP_SIZE.
Proof using HG.
  unfold ceilDiv.
  pose proof (Nat.div_mod_eq (m + GROUP_SIZE - 1) GROUP_SIZE) as H.
  pose proof (Nat.mod_upper_bound (m + GROUP_SIZE - 1) GROUP_SIZE ltac:(lia)). lia.
Qed.

Lemma ceilDiv_tight m x : x < ceilDiv m GROUP_SIZE -> GROUP_SIZE * x < m.
Proof using HG.
  intros Hx. destruct (Nat.lt_ge_cases (GROUP_SIZE * x) m) as [H|H]; [exact H|].
  exfalso. unfold ceilDiv in Hx.
  assert ((m + GROUP_SIZE - 1) / GROUP_SIZE <= x); [|lia].
  apply Nat.lt_succ_r, Nat.Div0.div_lt_upper_bound. lia.
Qed.

Lemma buildFrom_spec : forall fuel (level : list Address) depth ch lv dp ch' e,
  length level <= S fuel ->
  Forall (fun a => length a = 20) level ->
  Forall (Tree.treeReadable (DeployTree.pageAt ch) depth) level ->
  DeployTree.buildFrom GROUP_SIZE fuel level depth ch = (Ok (lv, dp), ch', e) ->
  length lv <= 1 /\ (level <> [] -> lv <> []) /\
  extends (DeployTree.pageAt ch) (DeployTree.pageAt ch') /\
  Forall (Tree.treeReadable (DeployTree.pageAt ch') dp) lv /\
  flat_map (Tree.treeLeaves (DeployTree.pageAt ch') dp) lv
  = flat_map (Tree.treeLeaves (DeployTree.pageAt ch) depth) level /\
  depth <= dp /\
  length level <= length lv * GROUP_SIZE ^ (dp - depth) /\
  (depth < dp -> GROUP_SIZE ^ (dp - depth - 1) < length level).
Proof using Hdep HG.
  induction fuel as [|fuel IH]; intros level depth ch lv dp ch' e Hfuel H20 Hr Hrun.
  - simpl in Hrun. injection Hrun as <- <- <- <-.
    rewrite Nat.sub_diag. simpl.
    repeat split; auto using extends_refl; lia.
  - cbn [DeployTree.buildFrom] in Hrun.
    destruct (1 <? length level) eqn:Hm;
      [apply Nat.ltb_lt in Hm|apply Nat.ltb_ge in Hm].
    + unfold bind at 1, DeployTree.getTransactionCount in Hrun.
      destruct (DeployTree.transactionCount ch) as [base|]; [|discriminate].
      unfold bind at 1 in Hrun.
      destruct (DeployTree.groupsFrom GROUP_SIZE (length level) 0 level base [] ch)
        as [[[parent|err] ch1] e1] eqn:Hgroups; [|discriminate].
      destruct (DeployTree.buildFrom GROUP_SIZE fuel parent (S depth) ch1)
        as [[r w2] e2] eqn:Hrest.
      simpl in Hrun. injection Hrun as -> -> <-.
      destruct (groupsFrom_spec GROUP_SIZE Hdep ltac:(lia) depth (length level) 0 level
                  base [] ch parent ch1 e1 ltac:(lia) H20 Hr Hgroups)
        as (new & Hnew & Hext1 & Hn20 & Hnr & Hnl & Hnlen).
      simpl in Hnew. subst parent. rewrite drop_0, Nat.sub_0_r in *.
      pose proof (ceilDiv_shrinks (length level) Hm) as Hshrink.
      destruct (IH new (S depth) ch1 lv dp ch' e2 ltac:(lia) Hn20 Hnr Hrest)
        as (Hlen & Hne & Hext2 & Hlr & Hll & Hdp & Hup & Hlow).
      split; [exact Hlen|]. split.
      { intros _. apply Hne. intros ->. simpl in Hnlen.
        pose proof (ceilDiv_covers (length level)). lia. }
      split; [eapply extends_trans; eassumption|].
      split; [exact Hlr|]. split; [rewrite Hll; exact Hnl|].
      split; [lia|]. split.
      * replace (dp - depth) with (S (dp - S depth)) by lia.
        pose proof (ceilDiv_covers (length level)) as Hc. rewrite <- Hnlen in Hc.
        rewrite Nat.pow_succ_r'. nia.
      * intros _. destruct (Nat.eq_dec dp (S depth)) as [->|Hneq].
        -- replace (S depth - depth - 1) with 0 by lia. simpl. lia.
        -- specialize (Hlow ltac:(lia)).
           replace (dp - depth - 1) with (S (dp - S depth - 1)) by lia.
           rewrite Nat.pow_succ_r'. apply ceilDiv_tight. lia.
    + injection Hrun as <- <- <- <-. rewrite Nat.sub_diag. simpl.
      repeat split; auto using extends_refl; lia.
Qed.

Lemma ceilDiv_half m : 2 * ceilDiv m GROUP_SIZE <= m + 1.
Proof using HG.
  destruct (ceilDiv m GROUP_SIZE) as [|c] eqn:Hc; [lia|].
  pose proof (ceilDiv_tight m c ltac:(lia)). nia.
Qed.

Lemma groupsFrom_runs : forall fuel i (level : list Address) base parent k ch,
  length level - i <= fuel ->
  deploysNext k ch -> ceilDiv (length level - i) GROUP_SIZE <= k ->
  exists parent' ch' e,
    DeployTree.groupsFrom GROUP_SIZE fuel i level base parent ch = (Ok parent', ch', e) /\
    length parent' = length parent + ceilDiv (length level - i) GROUP_SIZE /\
    deploysNext (k - ceilDiv (length level - i) GROUP_SIZE) ch'.
Proof using HG.
  induction fuel as [|fuel IH]; intros i level base parent k ch Hfuel Hk Hbudget.
  - eexists _, _, _. split; [reflexivity|].
    replace (length level - i) with 0 by lia. rewrite ceilDiv_0 by lia.
    rewrite Nat.sub_0_r, Nat.add_0_r. split; [reflexivity|exact Hk].
  - cbn [DeployTree.groupsFrom].
    destruct (i <? length level) eqn:Hi;
      [apply Nat.ltb_lt in Hi|apply Nat.ltb_ge in Hi].
    + assert (ceilDiv (length level - i) GROUP_SIZE
              = S (ceilDiv (length level - (i + GROUP_SIZE)) GROUP_SIZE)) as Hc.
      { destruct (Nat.le_gt_cases (length level - i) GROUP_SIZE) as [Hlast|Hmore].
        - rewrite (ceilDiv_last GROUP_SIZE ltac:(lia) (length level - i)) by lia.
          replace (length level - (i + GROUP_SIZE)) with 0 by lia.
          rewrite ceilDiv_0 by lia. reflexivity.
        - rewrite (ceilDiv_step GROUP_SIZE ltac:(lia) (length level - i)) by lia.
          do 2 f_equal. lia. }
      rewrite Hc in *. destruct k as [|k]; [lia|]. destruct Hk as [_ Hk].
      destruct (Hk (concat (slice i (i + GROUP_SIZE) level)) (base + i / GROUP_SIZE))
        as (a & ch1 & Hd & Hk1).
      destruct (IH (i + GROUP_SIZE) level base (parent ++ [a]) k ch1
                  ltac:(lia) Hk1 ltac:(lia)) as (parent' & ch' & e & Hrest & Hlen & Hk').
      unfold bind at 1, sleep, emit. cbn [fst snd].
      unfold bind at 1, DeployTree.deploy. rewrite Hd, Hrest.
      eexists _, _, _. split; [reflexivity|].
      split; [rewrite Hlen, length_app; simpl; lia|exact Hk'].
    + eexists _, _, _. split; [reflexivity|].
      replace (length level - i) with 0 by lia. rewrite ceilDiv_0 by lia.
      rewrite Nat.sub_0_r, Nat.add_0_r. split; [reflexivity|exact Hk].
Qed.

Lemma buildFrom_runs : forall fuel (level : list Address) depth k ch,
  length level <= S fuel ->
  deploysNext k ch -> 2 * length level <= k + 2 ->
  is_ok (outcome (DeployTree.buildFrom GROUP_SIZE fuel level depth ch)) = true.
Proof using HG.
  induction fuel as [|fuel IH]; intros level depth k ch Hfuel Hk Hbudget; [reflexivity|].
  cbn [DeployTree.buildFrom].
  destruct (1 <? length level) eqn:Hm;
    [apply Nat.ltb_lt in Hm|reflexivity].
  pose proof (ceilDiv_shrinks (length level) Hm) as Hshrink.
  pose proof (ceilDiv_half (length level)) as Hhalf.
  destruct k as [|k]; [lia|].
  unfold bind at 1, DeployTree.getTransactionCount.
  destruct (proj1 Hk) as [base ->].
  destruct (groupsFrom_runs (length level) 0 level base [] (S k) ch
              ltac:(lia) Hk ltac:(rewrite Nat.sub_0_r; lia))
    as (parent & ch1 & e1 & Hgroups & Hlen & Hk1).
  unfold bind at 1. rewrite Hgroups.
  rewrite Nat.sub_0_r in *. simpl in Hlen.
  specialize (IH parent (S depth) (S k - ceilDiv (length level) GROUP_SIZE) ch1
                ltac:(lia) Hk1 ltac:(lia)).
  destruct (DeployTree.buildFrom _ _ _ _ ch1) as [[r w2] e2]. exact IH.
Qed.

Lemma buildTree_sound (addresses : list Address) ch root depth ch' e :
  Forall (fun a => length a = 20) addresses -> addresses <> [] ->
  DeployTree.buildTree GROUP_SIZE addresses ch = (Ok (root, depth), ch', e) ->
  exists r, root = Some r /\
    Tree.treeLeaves (DeployTree.pageAt ch') depth r = addresses /\
    Tree.treeReadable (DeployTree.pageAt ch') depth r /\
    extends (DeployTree.pageAt ch) (DeployTree.pageAt ch') /\
    length addresses <= GROUP_SIZE ^ depth /\
    (0 < depth -> GROUP_SIZE ^ (depth - 1) < length addresses).
Proof using Hdep HG.
  intros H20 Hne Hrun. unfold DeployTree.buildTree, bind in Hrun.
  destruct (DeployTree.buildFrom GROUP_SIZE (length addresses) addresses 0 ch)
    as [[[[lv dp]|err] ch1] e1] eqn:Hb; [|discriminate].
  simpl in Hrun. injection Hrun as <- <- <- <-.
  assert (Forall (Tree.treeReadable (DeployTree.pageAt ch) 0) addresses) as Hr0
    by (apply Forall_forall; intros; exact I).
  destruct (buildFrom_spec (length addresses) addresses 0 ch lv dp ch1 e1
              ltac:(lia) H20 Hr0 Hb)
    as (Hlen & Hnn & Hext & Hlr & Hll & _ & Hup & Hlow).
  specialize (Hnn Hne). destruct lv as [|r [|r' lv]]; [congruence| |simpl in Hlen; lia].
  exists r. split; [reflexivity|].
  change (flat_map (Tree.treeLeaves (DeployTree.pageAt ch1) dp) [r])
    with (Tree.treeLeaves (DeployTree.pageAt ch1) dp r ++ []) in Hll.
  rewrite app_nil_r in Hll.
  assert (flat_map (Tree.treeLeaves (DeployTree.pageAt ch) 0) addresses = addresses) as Hid.
  { clear. induction addresses as [|a l IH]; [reflexivity|].
    simpl. f_equal. exact IH. }
  rewrite Hid in Hll. split; [exact Hll|].
  apply Forall_cons in Hlr as [Hlr _]. split; [exact Hlr|]. split; [exact Hext|].
  rewrite Nat.sub_0_r in *. simpl in Hup. split; [lia|].
  intros Hd. apply Hlow. exact Hd.
Qed.

(** [buildTree] over the addresses of the leaf pages, with groups of two or
    more.  It deploys at most [2 * length addresses] pages: if that many
    deployments succeed it returns.  And whenever it returns, the
    root it reports heads a tree of the reported depth whose interior nodes
    are all deployed and whose leaves, walked depth-first and left to right
    as the loaders do, are the given addresses in the given order.  The
    pages deployed before are untouched, and the depth is the least [d] with
    [length addresses <= GROUP_SIZE ^ d].  For an empty list nothing is
    deployed and the root is [undefined]. *)
Theorem build_tree_leaves (addresses : list Address) ch :
  Forall (fun a => length a = 20) addresses -> addresses <> [] ->
  DeployTree.buildTree GROUP_SIZE [] ch = (Ok (None, 0), ch, []) /\
  (deploysNext (2 * length addresses) ch ->
   is_ok (outcome (DeployTree.buildTree GROUP_SIZE addresses ch)) = true) /\
  forall root depth ch' e,
    DeployTree.buildTree GROUP_SIZE addresses ch = (Ok (root, depth), ch', e) ->
    exists r, root = Some r /\
      Tree.treeLeaves (DeployTree.pageAt ch') depth r = addresses /\
      Tree.treeReadable (DeployTree.pageAt ch') depth r /\
      extends (DeployTree.pageAt ch) (DeployTree.pageAt ch') /\
      length addresses <= GROUP_SIZE ^ depth /\
      (0 < depth -> GROUP_SIZE ^ (depth - 1) < length addresses).
Proof using Hdep HG.
  intros H20 Hne. split; [reflexivity|]. split.
  - intros Hnf. unfold DeployTree.buildTree, bind.
    pose proof (buildFrom_runs (length addresses) addresses 0 _ ch
                  ltac:(lia) Hnf ltac:(lia)) as H.
    destruct (DeployTree.buildFrom _ _ _ _ ch) as [[[r|err] w2] e2]; [reflexivity|discriminate].
  - intros root depth ch' e Hrun. eapply buildTree_sound; eassumption.
Qed.

(** Deployment and loading compose.  Let the pages at [addresses] hold the
    chunks of a buffer, in order, and let [buildTree] have built a tree
    over them; then [fetchTreeSequential], given the root and the depth
    that [buildTree] reported and an error-free reader of the chain as
    [buildTree] left it, returns the buffer. *)
Theorem deployed_tree_loads {World : Type} `{RR : RemoteReader World}
    (good : World -> Prop) mc B (addresses : list Address) buf size
    ch root depth ch' e total w :
  0 < size -> 0 < B ->
  Forall (fun a => length a = 20) addresses ->
  Forall2 (fun a c => DeployTree.pageAt ch a = Some c)
          addresses (Deploy.chunkBuffer buf size) ->
  DeployTree.buildTree GROUP_SIZE addresses ch = (Ok (Some root, depth), ch', e) ->
  errorFree (DeployTree.pageAt ch') good -> good w ->
  exists w' e',
    Loader.fetchTreeSequential mc B root depth total w = (Ok buf, w', e').
Proof using Hdep HG.
  intros Hs HB H20 Hpages Hrun Hef Hg.
  destruct addresses as [|a0 rest] eqn:Ha; [discriminate|]. rewrite <- Ha in *.
  assert (addresses <> []) as Hne by (rewrite Ha; discriminate).
  destruct (buildTree_sound addresses ch _ _ _ _ H20 Hne Hrun)
    as (r & [= <-] & Hleaves & Hread & Hext & _).
  assert (Forall2 (fun a c => DeployTree.pageAt ch' a = Some c)
                  addresses (Deploy.chunkBuffer buf size)) as Hpages'.
  { eapply Forall2_impl; [exact Hpages|]. intros a c Hc. apply Hext, Hc. }
  destruct (fetchTree_healthy (DeployTree.pageAt ch') good mc B root depth total w
              Hef Hg HB Hread) as (w' & e' & Hload).
  { rewrite Hleaves. clear -Hpages'. induction Hpages'; constructor; eauto. }
  exists w', e'. rewrite Hload, Hleaves. do 3 f_equal.
  rewrite <- (chunkBuffer_concat buf size Hs). f_equal.
  clear -Hpages'. induction Hpages' as [|a c l l' Hc _ IH]; [reflexivity|].
  simpl. rewrite Hc, IH. reflexivity.
Qed.

End TreeBuilderProperties.

(** ** Runs of the tree builder *)
Section SimChainFacts.

Lemma sim_deploysPages : deploysPages (PD := SimChain.deployer).
Proof.
  intros c n ch a ch' Hd. simpl in Hd. unfold SimChain.deployPage in Hd.
  destruct (Byte.of_nat (length ch)) as [b|]; [|discriminate].
  destruct (Sim.assoc (Sim.addr b) ch) eqn:Hfresh; [discriminate|].
  injection Hd as <- <-. simpl.
  split; [reflexivity|]. split; [exact Hfresh|].
  rewrite addr_eqb_refl. split; [reflexivity|].
  intros b' Hb'. rewrite addr_eqb_neq by exact Hb'. reflexivity.
Qed.

Lemma build_tree_leaves_witness :
  DeployTree.buildTree (PD := SimChain.deployer) 2 [] SimChain.leafPages
  = (Ok (None, 0), SimChain.leafPages, []) /\
  (deploysNext (PD := SimChain.deployer) (2 * length SimChain.leafAddresses)
     SimChain.leafPages ->
   is_ok (outcome (DeployTree.buildTree (PD := SimChain.deployer) 2
                     SimChain.leafAddresses SimChain.leafPages)) = true) /\
  forall root depth ch' e,
    DeployTree.buildTree (PD := SimChain.deployer) 2
      SimChain.leafAddresses SimChain.leafPages = (Ok (root, depth), ch', e) ->
    exists r, root = Some r /\
      Tree.treeLeaves (DeployTree.pageAt (PageDeployer := SimChain.deployer) ch') depth r
      = SimChain.leafAddresses /\
      Tree.treeReadable (DeployTree.pageAt (PageDeployer := SimChain.deployer) ch') depth r /\
      extends (DeployTree.pageAt (PageDeployer := SimChain.deployer) SimChain.leafPages)
              (DeployTree.pageAt (PageDeployer := SimChain.deployer) ch') /\
      length SimChain.leafAddresses <= 2 ^ depth /\
      (0 < depth -> 2 ^ (depth - 1) < length SimChain.leafAddresses).
Proof.
  apply (build_tree_leaves (PD := SimChain.deployer) 2 sim_deploysPages ltac:(lia)
           SimChain.leafAddresses SimChain.leafPages).
  - repeat constructor.
  - discriminate.
Defined.

Lemma deployed_tree_loads_witness :
  exists w' e',
    Loader.fetchTreeSequential (RR := Sim.reader (world_of SimChain.built)) true 2
      (Sim.addr x0a) 3 9 Sim.calm
    = (Ok Scenario.content, w', e').
Proof.
  apply (deployed_tree_loads (PD := SimChain.deployer) 2 sim_deploysPages ltac:(lia)
           (RR := Sim.reader (world_of SimChain.built)) Sim.isCalm true 2
           SimChain.leafAddresses Scenario.content 2
           SimChain.leafPages (Sim.addr x0a) 3 (world_of SimChain.built)
           (events SimChain.built) 9 Sim.calm).
  - lia.
  - lia.
  - repeat constructor.
  - vm_compute. repeat constructor.
  - vm_compute. reflexivity.
  - apply (sim_errorFree (world_of SimChain.built)).
  - reflexivity.
Defined.

End SimChainFacts.

(** ** video-loader.js: segments and chunks *)
Section SegmentProperties.
Variable CHUNK_SIZE : nat.

(** [adjustSegmentOffsets] keeps the segments in order, moves each byte
    range by the prefix [4 + headerLength], and gives each segment the
    chunk range [adjustedChunkStart, adjustedChunkEnd) that holds exactly
    the chunks overlapping its moved byte range: chunk [i], which spans the
    bytes [i * CHUNK_SIZE, (i + 1) * CHUNK_SIZE), is in the range if and only
    if it contains a byte of the segment. *)
Theorem segment_chunk_range hl segs sg :
  0 < CHUNK_SIZE ->
  sg ∈ VideoLoader.adjustSegmentOffsets CHUNK_SIZE hl segs ->
  VideoLoader.byteStart (VideoLoader.seg sg) < VideoLoader.byteEnd (VideoLoader.seg sg) ->
  map VideoLoader.seg (VideoLoader.adjustSegmentOffsets CHUNK_SIZE hl segs) = segs /\
  VideoLoader.adjustedByteStart sg = VideoLoader.byteStart (VideoLoader.seg sg) + (4 + hl) /\
  VideoLoader.adjustedByteEnd sg = VideoLoader.byteEnd (VideoLoader.seg sg) + (4 + hl) /\
  forall i,
    VideoLoader.adjustedChunkStart sg <= i < VideoLoader.adjustedChunkEnd sg <->
    i * CHUNK_SIZE < VideoLoader.adjustedByteEnd sg /\
    VideoLoader.adjustedByteStart sg < (i + 1) * CHUNK_SIZE.
Proof.
  intros HCS Hin Hlt. unfold VideoLoader.adjustSegmentOffsets in *.
  split.
  { rewrite map_map. simpl. apply map_id. }
  apply list_elem_of_fmap in Hin as (s & -> & _).
  cbn [VideoLoader.seg VideoLoader.adjustedByteStart VideoLoader.adjustedByteEnd
       VideoLoader.adjustedChunkStart VideoLoader.adjustedChunkEnd] in *.
  split; [reflexivity|]. split; [reflexivity|].
  set (a := VideoLoader.byteStart s + (4 + hl)) in *.
  set (b := VideoLoader.byteEnd s + (4 + hl)) in *.
  intros i. unfold ceilDiv.
  pose proof (Nat.div_mod_eq a CHUNK_SIZE) as Ha.
  pose proof (Nat.mod_upper_bound a CHUNK_SIZE ltac:(lia)) as Ha'.
  pose proof (Nat.div_mod_eq (b + CHUNK_SIZE - 1) CHUNK_SIZE) as Hb.
  pose proof (Nat.mod_upper_bound (b + CHUNK_SIZE - 1) CHUNK_SIZE ltac:(lia)) as Hb'.
  split.
  - intros [H1 H2]. split; nia.
  - intros [H1 H2]. split.
    + destruct (Nat.le_gt_cases (a / CHUNK_SIZE) i) as [H|H]; [exact H|]. exfalso. nia.
    + destruct (Nat.lt_ge_cases i ((b + CHUNK_SIZE - 1) / CHUNK_SIZE)) as [H|H]; [exact H|].
      exfalso. nia.
Qed.

(** Chunks that arrive later do not disturb a segment that is complete: it
    stays complete, and [extractSegmentData] keeps returning the same
    bytes. *)
Theorem complete_segment_stable hl sg (m m' : gmap nat bytes) :
  m ⊆ m' ->
  VideoLoader.isSegmentComplete sg m = true ->
  VideoLoader.isSegmentComplete sg m' = true /\
  VideoLoader.extractSegmentData CHUNK_SIZE hl sg m'
  = VideoLoader.extractSegmentData CHUNK_SIZE hl sg m /\
  is_Some (VideoLoader.extractSegmentData CHUNK_SIZE hl sg m).
Proof.
  intros Hsub Hc. pose proof Hc as Hc0. rewrite isSegmentComplete_spec in Hc.
  split.
  { apply isSegmentComplete_spec. intros i Hi. destruct (Hc i Hi) as [c Hm].
    exists c. eapply lookup_weaken; eauto. }
  split; [|apply extract_complete; exact Hc0].
  unfold VideoLoader.extractSegmentData.
  assert (mapM (fun i => m' !! i)
               (seq (VideoLoader.adjustedChunkStart sg)
                    (VideoLoader.adjustedChunkEnd sg - VideoLoader.adjustedChunkStart sg))
          = mapM (fun i => m !! i)
               (seq (VideoLoader.adjustedChunkStart sg)
                    (VideoLoader.adjustedChunkEnd sg - VideoLoader.adjustedChunkStart sg)))
    as ->; [|reflexivity].
  assert (forall i, i ∈ seq (VideoLoader.adjustedChunkStart sg)
                         (VideoLoader.adjustedChunkEnd sg - VideoLoader.adjustedChunkStart sg)
                    -> m' !! i = m !! i) as Hagree.
  { intros i Hi. apply elem_of_seq in Hi. destruct (Hc i ltac:(lia)) as [c Hm].
    rewrite Hm. eapply lookup_weaken; eauto. }
  revert Hagree.
  generalize (seq (VideoLoader.adjustedChunkStart sg)
                  (VideoLoader.adjustedChunkEnd sg - VideoLoader.adjustedChunkStart sg)).
  induction l as [|i l IH]; intros Hagree; [reflexivity|].
  simpl. rewrite (Hagree i) by constructor.
  rewrite IH; [reflexivity|]. intros j Hj. apply Hagree. constructor. exact Hj.
Qed.

End SegmentProperties.

Section SegmentRuns.
Import Media.

Lemma segment_chunk_range_witness :
  map VideoLoader.seg (VideoLoader.adjustSegmentOffsets 4 0 oneSegment) = oneSegment /\
  VideoLoader.adjustedByteStart adjustedSegment
  = VideoLoader.byteStart (VideoLoader.seg adjustedSegment) + (4 + 0) /\
  VideoLoader.adjustedByteEnd adjustedSegment
  = VideoLoader.byteEnd (VideoLoader.seg adjustedSegment) + (4 + 0) /\
  forall i,
    VideoLoader.adjustedChunkStart adjustedSegment <= i
      < VideoLoader.adjustedChunkEnd adjustedSegment <->
    i * 4 < VideoLoader.adjustedByteEnd adjustedSegment /\
    VideoLoader.adjustedByteStart adjustedSegment < (i + 1) * 4.
Proof.
  apply (segment_chunk_range 4 0 oneSegment adjustedSegment).
  - lia.
  - vm_compute. constructor.
  - simpl. lia.
Defined.

Lemma complete_segment_stable_witness :
  VideoLoader.isSegmentComplete adjustedSegment threeChunks = true /\
  VideoLoader.extractSegmentData 4 0 adjustedSegment threeChunks
  = VideoLoader.extractSegmentData 4 0 adjustedSegment twoChunks /\
  is_Some (VideoLoader.extractSegmentData 4 0 adjustedSegment twoChunks).
Proof.
  apply (complete_segment_stable 4 0 adjustedSegment twoChunks threeChunks).
  - apply insert_subseteq. reflexivity.
  - reflexivity.
Defined.

Lemma extract_segment_bytes_witness :
  exists out,
    VideoLoader.extractSegmentData 4 0 adjustedSegment twoChunks = Some out /\
    out = slice (1 + (4 + 0)) (3 + (4 + 0)) (concat nineBytes) /\
    length out = 3 - 1.
Proof.
  apply (extract_segment_bytes 4 0 nineBytes twoChunks oneSegment adjustedSegment).
  - lia.
  - intros i c Hi Hc. destruct i as [|[|i]]; simpl in *; try lia;
      injection Hc as <-; reflexivity.
  - unfold twoChunks. intros i c H.
    apply lookup_insert_Some in H as [[<- <-]|[_ H]]; [reflexivity|].
    apply lookup_insert_Some in H as [[<- <-]|[_ H]]; [reflexivity|].
    rewrite lookup_empty in H. discriminate.
  - vm_compute. constructor.
  - reflexivity.
  - simpl. lia.
  - simpl. lia.
Defined.

(** C9, counterexample.  A segment map that declares four bytes of video
    where the content holds three: the only chunk of the segment is in the
    chunk map, and [extractSegmentData] returns three bytes, not
    [byteEnd - byteStart]. *)
Lemma short_last_chunk_cuts_segment :
  exists sg,
    VideoLoader.adjustSegmentOffsets 4 0
      [ {| VideoLoader.segType := "media"; VideoLoader.byteStart := 0;
           VideoLoader.byteEnd := 4 |} ] = [sg] /\
    VideoLoader.isSegmentComplete sg sevenBytes = true /\
    VideoLoader.extractSegmentData 4 0 sg sevenBytes = Some [x61; x62; x63] /\
    VideoLoader.byteEnd (VideoLoader.seg sg) - VideoLoader.byteStart (VideoLoader.seg sg) = 4.
Proof. eexists. vm_compute. repeat split; reflexivity. Qed.

(** A segment entry whose [byteEnd] lies before its [byteStart]: its
    length is negative, and the slice is empty. *)
Example backwards_segment_is_empty :
  map (fun sg => VideoLoader.extractSegmentData 4 0 sg twoChunks)
      (VideoLoader.adjustSegmentOffsets 4 0
         [ {| VideoLoader.segType := "media"; VideoLoader.byteStart := 3;
              VideoLoader.byteEnd := 1 |} ])
  = [Some []].
Proof. vm_compute. reflexivity. Qed.

End SegmentRuns.

(** ** video-loader.js: the direct-playback path *)
Section FallbackProperties.
Context {World : Type} `{RR : RemoteReader World}.

Lemma getUint32_app (p rest : bytes) :
  length p = 4 -> VideoLoader.getUint32 (p ++ rest) = VideoLoader.getUint32 p.
Proof.
  destruct p as [|b0 [|b1 [|b2 [|b3 [|b4 p]]]]]; simpl; try discriminate. reflexivity.
Qed.

(** The choice of the bytes handed to the player.  Whatever the data, they
    are a suffix of it.  For data made of a four-byte length, a header of
    that length and the video: an [ftyp] mark at bytes 4 to 7 makes the
    whole data pass as the video; otherwise the video alone is kept when the
    header is shorter than 10000 bytes, and the whole data, header
    included, when it is not. *)
Theorem strip_header_cases (prefix header video finalData : bytes) :
  length prefix = 4 ->
  VideoLoader.getUint32 prefix = Some (length header) ->
  (VideoLoader.stripHeader finalData `suffix_of` finalData) /\
  (let whole := prefix ++ header ++ video in
   (VideoLoader.isRawMP4 whole = true -> VideoLoader.stripHeader whole = whole) /\
   (VideoLoader.isRawMP4 whole = false -> length header < 10000 ->
    VideoLoader.stripHeader whole = video) /\
   (VideoLoader.isRawMP4 whole = false -> 10000 <= length header ->
    VideoLoader.stripHeader whole = whole)).
Proof.
  intros Hp Hlen. split.
  { unfold VideoLoader.stripHeader.
    destruct (VideoLoader.isRawMP4 finalData); [reflexivity|].
    destruct (VideoLoader.getUint32 finalData) as [h|]; [|reflexivity].
    destruct ((h <? length finalData) && (h <? 10000)); [|reflexivity].
    apply suffix_drop. }
  intros whole. unfold VideoLoader.stripHeader.
  split; [intros ->; reflexivity|].
  split; intros -> Hh; unfold whole at 1; rewrite getUint32_app, Hlen by exact Hp.
  - assert ((length header <? length whole) = true) as ->.
    { apply Nat.ltb_lt. unfold whole. rewrite !length_app. lia. }
    apply Nat.ltb_lt in Hh. rewrite Hh. cbn [andb].
    unfold whole. rewrite <- Hp.
    rewrite <- drop_drop, drop_app_length, drop_app_length. reflexivity.
  - apply Nat.ltb_ge in Hh. rewrite Hh, andb_false_r. reflexivity.
Qed.

Lemma strip_header_cases_witness :
  let prefix := [x00; x00; x00; x02] in
  let header := [x5b; x5d] in
  let video := [x1a; x45; xdf; xa3] in
  (VideoLoader.stripHeader video `suffix_of` video) /\
  (let whole := prefix ++ header ++ video in
   (VideoLoader.isRawMP4 whole = true -> VideoLoader.stripHeader whole = whole) /\
   (VideoLoader.isRawMP4 whole = false -> length header < 10000 ->
    VideoLoader.stripHeader whole = video) /\
   (VideoLoader.isRawMP4 whole = false -> 10000 <= length header ->
    VideoLoader.stripHeader whole = whole)).
Proof.
  intros prefix header video.
  apply (strip_header_cases prefix header video video); reflexivity.
Defined.

(** *** Loading without retries *)

Lemma net_quiet (e : list Event) :
  Forall netEvent e -> Forall (fun ev => playerEvent ev = false) e.
Proof.
  intros H. eapply Forall_impl; [exact H|]. intros [] Hev; try reflexivity; contradiction.
Qed.

Lemma foldM_events {A S} (P : Event -> Prop) (f : A -> S -> M World S) :
  (forall x s w, Forall P (events (f x s w))) ->
  forall l s w, Forall P (events (foldM f l s w)).
Proof.
  intros Hf. induction l as [|x l IH]; intros s w; [constructor|].
  simpl. unfold bind. specialize (Hf x s w).
  destruct (f x s w) as [[[s1|err] w1] e1]; unfold events in *; simpl in *; [|exact Hf].
  specialize (IH s1 w1). destruct (foldM f l s1 w1) as [[r w2] e2]. simpl in *.
  apply Forall_app. split; assumption.
Qed.

Lemma vtraverse_quiet : forall d a lvs w,
  Forall (fun ev => playerEvent ev = false) (events (VideoLoader.traverseNode d a lvs w)).
Proof.
  induction d as [|d IH]; intros a lvs w; [constructor|].
  cbn [VideoLoader.traverseNode]. unfold try_catch, bind at 1.
  pose proof (net_quiet _ (fetchData_net 300 3000 a 3 w)) as Hnet.
  destruct (Net.fetchChunkData 300 3000 a 3 w) as [[[got|err] w1] e1];
    unfold events in *; simpl in *.
  - destruct got as [payload|].
    + pose proof (foldM_events _ _ IH (Net.childAddrs payload) lvs w1) as Hf.
      destruct (foldM (VideoLoader.traverseNode d) (Net.childAddrs payload) lvs w1)
        as [[[r|err] w2] e2]; unfold events in *; simpl in *.
      * apply Forall_app. split; assumption.
      * apply Forall_app. split; [apply Forall_app; split; assumption|].
        repeat constructor.
    + unfold throw. simpl. rewrite app_nil_r. apply Forall_app.
      split; [exact Hnet|]. repeat constructor.
  - apply Forall_app. split; [exact Hnet|]. repeat constructor.
Qed.

(** The loop over the results of a batch never raises and only logs.  Over
    a reader consistent with the tree, results that answer the addresses of
    the batch fill the slots of these addresses with their payloads. *)
Lemma placeResults_run store i (addrs batch : list Address) :
  (forall k a, batch !! k = Some a -> addrs !! (i + k) = Some a) ->
  forall rs idx cs (w : World),
    exists cs' e,
      VideoLoader.placeResults i rs idx cs w = (Ok cs', w, e) /\
      Forall (fun ev => playerEvent ev = false) e /\
      (Forall2 (fun a res => forall d, data res = Some d -> store a = Some d)
               (drop idx batch) rs ->
       holdsPayloads store addrs cs -> holdsPayloads store addrs cs').
Proof.
  intros Hbatch. induction rs as [|r rs IH]; intros idx cs w.
  - exists cs, []. split; [reflexivity|]. split; [constructor|auto].
  - cbn [VideoLoader.placeResults].
    assert (Forall2 (fun a res => forall d, data res = Some d -> store a = Some d)
                      (drop idx batch) (r :: rs) ->
              Forall2 (fun a res => forall d, data res = Some d -> store a = Some d)
                      (drop (S idx) batch) rs) as Htl.
    { intros H. inversion H as [|a r0 la lr Hd Hrest Heq]; subst.
      replace (S idx) with (idx + 1) by lia.
      rewrite <- drop_drop, <- Heq. exact Hrest. }
    destruct (success r) eqn:Hsucc, (data r) as [d|] eqn:Hdata;
      try (destruct (IH (S idx) cs w) as (cs' & e & Hrun & Hq & Hkeep);
           unfold bind, log, emit; rewrite Hrun; simpl;
           eexists cs', _; split; [reflexivity|]; split; [constructor; [reflexivity|exact Hq]|];
           intros H Hcs; apply Hkeep; [apply Htl, H|exact Hcs]).
    destruct (IH (S idx) (VideoLoader.arraySet cs (i + idx) d) w)
      as (cs' & e & Hrun & Hq & Hkeep).
    exists cs', e. split; [exact Hrun|]. split; [exact Hq|].
    intros H Hcs. apply Hkeep; [apply Htl, H|].
    inversion H as [|a r0 la lr Hd Hrest Heq]; subst.
    assert (batch !! idx = Some a) as Hidx.
    { rewrite <- (Nat.add_0_r idx), <- lookup_drop, <- Heq. reflexivity. }
    pose proof (Hbatch idx a Hidx) as Ha.
    pose proof (Hd d Hdata) as Hs.
    unfold holdsPayloads in *.
    pose proof (Forall2_length _ _ _ Hcs) as Hlen.
    pose proof (lookup_lt_Some _ _ _ Ha) as Hlt.
    unfold VideoLoader.arraySet.
    destruct (Nat.ltb_spec (i + idx) (length cs)) as [_|Hge]; [|lia].
    apply Forall2_same_length_lookup. split; [rewrite length_insert; exact Hlen|].
    intros k x y Hx Hy.
    apply list_lookup_insert_Some in Hy as [(Hk & <- & _)|[Hne Hy]].
    + subst k. right. split; [eauto|]. rewrite Ha in Hx. injection Hx as <-. congruence.
    + rewrite Forall2_same_length_lookup in Hcs. destruct Hcs as [_ Hcs]. eauto.
Qed.

(** The batch loop never raises; over a reader consistent with the tree
    every slot of the array stays a hole or gets the payload of its leaf. *)
Lemma fallbackFrom_returns store mc B : forall fuel i addrs cs w,
  exists cs' w' e,
    VideoLoader.fallbackFrom mc B fuel i addrs cs w = (Ok cs', w', e) /\
    Forall (fun ev => playerEvent ev = false) e /\
    (consistent store -> consistentSlots store ->
     holdsPayloads store addrs cs -> holdsPayloads store addrs cs').
Proof.
  induction fuel as [|fuel IH]; intros i addrs cs w.
  - exists cs, w, []. split; [reflexivity|]. split; [constructor|auto].
  - cbn [VideoLoader.fallbackFrom]. destruct (i <? length addrs).
    2:{ exists cs, w, []. split; [reflexivity|]. split; [constructor|auto]. }
    set (batchEnd := Nat.min (i + B) (length addrs)).
    set (batch := slice i batchEnd addrs).
    destruct (fetchBatch_total mc 300 3000 batch 2 w ltac:(lia))
      as (rs & w1 & e1 & Hrun & Hnet & _).
    apply net_quiet in Hnet.
    destruct (placeResults_run store i addrs batch) with (rs := rs) (idx := 0)
      (cs := cs) (w := w1) as (cs1 & e2 & Hplace & Hq2 & Hkeep).
    { intros k a Hk. unfold batch, slice in Hk.
      apply lookup_take_Some in Hk as [Hk _]. rewrite lookup_drop in Hk. exact Hk. }
    destruct (IH (i + B) addrs cs1 w1) as (cs' & w' & e' & Hrest & Hq' & Hkeep').
    assert (exists p, (if batchEnd <? length addrs then sleep 100 else ret tt) w1
                      = (Ok tt, w1, p) /\ Forall (fun ev => playerEvent ev = false) p)
      as (p & Hp & Hqp)
      by (destruct (batchEnd <? length addrs); eexists; split;
          try reflexivity; repeat constructor).
    unfold bind at 1, try_catch, bind at 1. rewrite Hrun.
    unfold bind at 1. rewrite Hplace. unfold bind at 1. rewrite Hp. simpl.
    rewrite Hrest. exists cs', w'. eexists. split; [reflexivity|].
    split.
    + rewrite ?app_nil_r. repeat (apply Forall_app; split); assumption.
    + intros Hc Hs Hcs. apply Hkeep'; try assumption. apply Hkeep; [|exact Hcs].
      rewrite drop_0.
      exact (fetchBatch_consistent mc 300 3000 store _ _ _ _ _ _ Hc Hs Hrun).
Qed.

Lemma bind_ext {A B} (m : M World A) (k1 k2 : A -> M World B) w :
  (forall x w', k1 x w' = k2 x w') -> bind m k1 w = bind m k2 w.
Proof.
  intros H. unfold bind. destruct (m w) as [[[x|err] w1] e1]; [|reflexivity].
  rewrite H. reflexivity.
Qed.

(** With a positive batch size the batch loop of [fallbackLoad] ends by its
    own test: any fuel that covers the leaves left gives the same run. *)
Lemma fallbackFrom_fuel mc B :
  0 < B ->
  forall fuel1 fuel2 i addrs cs (w : World),
    length addrs - i <= fuel1 -> length addrs - i <= fuel2 ->
    VideoLoader.fallbackFrom mc B fuel1 i addrs cs w
    = VideoLoader.fallbackFrom mc B fuel2 i addrs cs w.
Proof.
  intros HB. induction fuel1 as [|fuel1 IH]; intros [|fuel2] i addrs cs w H1 H2;
    cbn [VideoLoader.fallbackFrom]; try reflexivity;
    destruct (Nat.ltb_spec i (length addrs)); try reflexivity; try lia.
  apply bind_ext. intros cs1 w1. apply IH; lia.
Qed.

Lemma fallbackLoad_returns store mc B root depth total w lvs w1 e1 :
  VideoLoader.collectLeafAddresses root depth w = (Ok lvs, w1, e1) ->
  exists cs w' e,
    VideoLoader.fallbackLoad mc B root depth total w
    = (Ok tt, w', e1 ++ e ++ [EvBlob (VideoLoader.stripHeader (concat (omap id cs)))]) /\
    Forall (fun ev => playerEvent ev = false) (e1 ++ e) /\
    (consistent store -> consistentSlots store -> holdsPayloads store lvs cs).
Proof.
  intros Hcol. unfold VideoLoader.fallbackLoad, bind at 1. rewrite Hcol.
  destruct (fallbackFrom_returns store mc B (length lvs) 0 lvs
              (replicate (length lvs) None) w1)
    as (cs & w2 & e2 & Hrun & Hnb & Hkeep).
  unfold bind, emit. rewrite Hrun.
  exists cs, w2, e2. split; [rewrite concatBuffers_concat; reflexivity|].
  split.
  - apply Forall_app. split; [|exact Hnb].
    pose proof (vtraverse_quiet depth root [] w) as H.
    unfold VideoLoader.collectLeafAddresses in Hcol. rewrite Hcol in H. exact H.
  - intros Hc Hs. apply Hkeep; [exact Hc|exact Hs|].
    unfold holdsPayloads. apply Forall2_same_length_lookup.
    split; [rewrite length_replicate; reflexivity|].
    intros k x y _ Hy. apply lookup_replicate in Hy as [-> _]. left. reflexivity.
Qed.


(** *** On a healthy network *)
Section Healthy.
Variable store : Address -> option bytes.
Variable good : World -> Prop.
Hypothesis Hef : errorFree store good.

Lemma vtraverse_total : forall d a lvs w,
  good w -> Tree.treeReadable store d a ->
  exists w' e,
    VideoLoader.traverseNode d a lvs w = (Ok (lvs ++ Tree.treeLeaves store d a), w', e)
    /\ good w'.
Proof using Hef.
  induction d as [|d IH]; intros a lvs w Hg Hread.
  - eexists w, _. split; [reflexivity|exact Hg].
  - simpl in Hread. destruct (store a) as [payload|] eqn:Hs; [|contradiction].
    destruct (fetchData_errorFree store good Hef 300 3000 a payload 3 w Hg Hs ltac:(lia))
      as (w1 & Hfetch & Hg1).
    cbn [VideoLoader.traverseNode Tree.treeLeaves]. unfold try_catch, bind at 1.
    rewrite Hfetch, Hs.
    assert (exists w' e,
               foldM (VideoLoader.traverseNode d) (Net.childAddrs payload) lvs w1
               = (Ok (lvs ++ flat_map (Tree.treeLeaves store d) (Net.childAddrs payload)),
                  w', e) /\ good w') as (w' & e & Hfold & Hg').
    { clear Hfetch. revert lvs w1 Hg1.
      induction Hread as [|c cs Hc _ IHc]; intros lvs w1 Hg1.
      - eexists w1, _. split; [|exact Hg1]. simpl. unfold ret.
        rewrite app_nil_r. reflexivity.
      - destruct (IH c lvs w1 Hg1 Hc) as (w2 & e1 & Hrun & Hg2).
        simpl. unfold bind. rewrite Hrun.
        destruct (IHc (lvs ++ Tree.treeLeaves store d c) w2 Hg2) as (w3 & e2 & Hrest & Hg3).
        rewrite Hrest. eexists w3, _. split; [|exact Hg3].
        rewrite <- app_assoc. reflexivity. }
    rewrite Hfold. eauto.
Qed.

Lemma placeResults_healthy i : forall (batch : list Address) idx pre k (w : World),
  Forall (fun a => is_Some (store a)) batch ->
  length pre = i + idx -> length batch <= k ->
  VideoLoader.placeResults i
    (map (fun a => {| success := true; data := store a |}) batch) idx
    (pre ++ replicate k None) w
  = (Ok (pre ++ map store batch ++ replicate (k - length batch) None), w, []).
Proof.
  induction batch as [|a batch IH]; intros idx pre k w Hall Hlen Hk.
  - simpl. rewrite Nat.sub_0_r. reflexivity.
  - apply Forall_cons in Hall as [[payload Hs] Hall].
    cbn [map VideoLoader.placeResults success data]. rewrite Hs.
    destruct k as [|k]; [simpl in Hk; lia|].
    assert (VideoLoader.arraySet (pre ++ replicate (S k) None) (i + idx) payload
            = (pre ++ [Some payload]) ++ replicate k None) as ->.
    { unfold VideoLoader.arraySet. rewrite length_app, length_replicate.
      destruct (Nat.ltb_spec (i + idx) (length pre + S k)) as [_|H]; [|lia].
      rewrite <- Hlen. rewrite insert_app_r_alt by lia.
      rewrite Nat.sub_diag. simpl. rewrite <- app_assoc. reflexivity. }
    rewrite IH; [|exact Hall|rewrite length_app; simpl; lia|simpl in Hk; lia].
    rewrite <- app_assoc. simpl. reflexivity.
Qed.

Lemma fallbackFrom_healthy mc B : 0 < B ->
  forall fuel i (addrs : list Address) w,
    good w -> Forall (fun a => is_Some (store a)) addrs ->
    length addrs - i <= fuel -> i <= length addrs ->
    exists w' e,
      VideoLoader.fallbackFrom mc B fuel i addrs
        (map store (take i addrs) ++ replicate (length addrs - i) None) w
      = (Ok (map store addrs), w', e) /\ good w' /\
      Forall (fun ev => playerEvent ev = false) e.
Proof using Hef.
  intros HB. induction fuel as [|fuel IH]; intros i addrs w Hg Hall Hfuel Hi.
  - exists w, []. simpl. replace (length addrs - i) with 0 by lia.
    rewrite take_ge by lia. simpl. rewrite app_nil_r.
    split; [reflexivity|]. split; [exact Hg|constructor].
  - cbn [VideoLoader.fallbackFrom].
    destruct (i <? length addrs) eqn:Hlt;
      [apply Nat.ltb_lt in Hlt|apply Nat.ltb_ge in Hlt].
    + set (batchEnd := Nat.min (i + B) (length addrs)).
      set (batch := slice i batchEnd addrs).
      assert (Forall (fun a => is_Some (store a)) batch) as Hb.
      { unfold batch, slice. apply Forall_take, Forall_drop, Hall. }
      assert (length batch = batchEnd - i) as Hlen.
      { unfold batch, slice. rewrite length_take, length_drop. unfold batchEnd. lia. }
      assert (batch <> []) as Hne.
      { intros Heq. apply (f_equal length) in Heq. simpl in Heq. unfold batchEnd in *. lia. }
      destruct (fetchBatch_healthy store good Hef mc 300 3000 batch 2 w Hg Hb
                  ltac:(lia) Hne) as (w1 & Hrun & Hg1).
      unfold bind at 1, try_catch, bind at 1. rewrite Hrun.
      unfold bind at 1.
      rewrite (placeResults_healthy i batch 0 (map store (take i addrs))
                 (length addrs - i) w1 Hb);
        [|rewrite length_map, length_take; lia|unfold batchEnd in *; lia].
      assert (map store (take i addrs) ++ map store batch
                ++ replicate (length addrs - i - length batch) None
              = map store (take (i + B) addrs)
                  ++ replicate (length addrs - (i + B)) None) as Hnext.
      { rewrite app_assoc, <- map_app. f_equal.
        - f_equal. unfold batch, slice.
          replace (batchEnd - i) with (Nat.min B (length addrs - i))
            by (unfold batchEnd; lia).
          rewrite <- take_take_drop. f_equal.
          destruct (Nat.le_gt_cases B (length addrs - i)) as [H|H].
          + rewrite Nat.min_l by lia. reflexivity.
          + rewrite Nat.min_r by lia.
            rewrite !take_ge by (rewrite length_drop; lia). reflexivity.
        - f_equal. unfold batchEnd in *. lia. }
      rewrite Hnext.
      destruct (Nat.le_gt_cases (i + B) (length addrs)) as [Hin|Hout].
      * destruct (IH (i + B) addrs w1 Hg1 Hall ltac:(lia) Hin)
          as (w2 & e2 & Hrest & Hg2 & Hnb).
        destruct (batchEnd <? length addrs);
          unfold bind, sleep, emit, ret; simpl; rewrite Hrest;
          eexists w2, _; (split; [reflexivity|]); (split; [exact Hg2|]);
          rewrite ?app_nil_r; repeat (apply Forall_app; split); auto;
          try (destruct mc; [repeat constructor|apply Forall_forall;
                 intros ev Hev; apply list_elem_of_fmap in Hev as (x & -> & _); reflexivity]);
          repeat constructor.
      * replace (length addrs - (i + B)) with 0 by lia.
        rewrite take_ge by lia. simpl replicate. rewrite app_nil_r.
        assert ((batchEnd <? length addrs) = false) as ->
          by (apply Nat.ltb_ge; unfold batchEnd; lia).
        unfold bind, ret. simpl.
        destruct fuel as [|fuel']; simpl;
          [|replace (i + B <? length addrs) with false by (symmetry; apply Nat.ltb_ge; lia)];
          eexists w1, _; (split; [reflexivity|]); (split; [exact Hg1|]);
          rewrite ?app_nil_r;
          (destruct mc; [repeat constructor|apply Forall_forall;
             intros ev Hev; apply list_elem_of_fmap in Hev as (x & -> & _); reflexivity]).
    + exists w, []. replace (length addrs - i) with 0 by lia.
      rewrite take_ge by lia. simpl. rewrite app_nil_r.
      split; [reflexivity|]. split; [exact Hg|constructor].
Qed.

End Healthy.

(** On a healthy network [fallbackLoad] fetches every leaf and hands the
    player, as its last act and the first thing the player gets, the bytes
    [stripHeader] picks from the payloads of the leaves laid end to end. *)
Theorem fallback_healthy store good mc B root depth total w :
  errorFree store good -> good w -> 0 < B ->
  Tree.treeReadable store depth root ->
  Forall (fun a => is_Some (store a)) (Tree.treeLeaves store depth root) ->
  exists w' e,
    VideoLoader.fallbackLoad mc B root depth total w
    = (Ok tt, w',
       e ++ [EvBlob (VideoLoader.stripHeader
                       (concat (map (fun a => default [] (store a))
                                    (Tree.treeLeaves store depth root))))]) /\
    Forall (fun ev => playerEvent ev = false) e.
Proof.
  intros Hef Hg HB Hread Hleaves.
  destruct (vtraverse_total store good Hef depth root [] w Hg Hread)
    as (w1 & e1 & Hcol & Hg1).
  simpl in Hcol. set (addrs := Tree.treeLeaves store depth root) in *.
  destruct (fallbackFrom_healthy store good Hef mc B HB (length addrs) 0 addrs w1
              Hg1 Hleaves ltac:(lia) ltac:(lia)) as (w2 & e2 & Hrun & _ & Hnb).
  rewrite take_0, Nat.sub_0_r in Hrun. simpl in Hrun.
  unfold VideoLoader.fallbackLoad, VideoLoader.collectLeafAddresses, bind at 1.
  rewrite Hcol. unfold bind, emit. rewrite Hrun.
  exists w2, (e1 ++ e2). split.
  - rewrite <- app_assoc. do 5 f_equal. rewrite concatBuffers_concat. f_equal.
    clear -Hleaves. induction Hleaves as [|a l [payload Hs] _ IH]; [reflexivity|].
    simpl. rewrite Hs. simpl. f_equal. exact IH.
  - apply Forall_app. split; [|exact Hnb].
    pose proof (vtraverse_quiet depth root [] w) as H. rewrite Hcol in H. exact H.
Qed.

End FallbackProperties.

Section FallbackRuns.
Import Sim Scenario.


(** With no page at leaf 1 the slot of that chunk stays empty, and the
    blob is assembled from the other four. *)
Example fallback_skips_missing_chunk :
  outcome (VideoLoader.fallbackFrom (RR := reader pagesHole) true 2 5 0 fiveAddresses
             (replicate 5 None) calm)
  = Ok [Some [x61; x62]; None; Some [x65; x66]; Some [x67; x68]; Some [x69]].
Proof. vm_compute. reflexivity. Qed.

Lemma fallback_healthy_witness :
  exists w' e,
    VideoLoader.fallbackLoad (RR := reader pages) true 2 root 2 9 calm
    = (Ok tt, w',
       e ++ [EvBlob (VideoLoader.stripHeader
                       (concat (map (fun a => default [] (store pages a))
                                    (Tree.treeLeaves (store pages) 2 root))))]) /\
    Forall (fun ev => playerEvent ev = false) e.
Proof.
  apply (fallback_healthy (RR := reader pages) (store pages) isCalm true 2 root 2 9 calm).
  - apply sim_errorFree.
  - reflexivity.
  - lia.
  - simpl. repeat constructor.
  - repeat constructor; eexists; reflexivity.
Defined.

End FallbackRuns.

(** ** video-loader.js: the segment header *)
Section HeaderProperties.
Variable CHUNK_SIZE : nat.
Variable JSON_parse : bytes -> option VideoLoader.Json.

Lemma getUint32_prefix (c rest : bytes) :
  4 <= length c -> VideoLoader.getUint32 (c ++ rest) = VideoLoader.getUint32 c.
Proof.
  destruct c as [|b0 [|b1 [|b2 [|b3 c]]]]; simpl; try lia. reflexivity.
Qed.

Section Content.
Variable allChunks : list bytes.
Variable m : gmap nat bytes.
Variable hl : nat.
Hypothesis H4 : 4 <= CHUNK_SIZE.
Hypothesis Hreg : forall i c, S i < length allChunks -> allChunks !! i = Some c ->
                              length c = CHUNK_SIZE.
Hypothesis Hsub : forall i c, m !! i = Some c -> allChunks !! i = Some c.
Hypothesis Hfit : 4 + hl <= length (concat allChunks).

(** The chunk at position [j] starts at byte [j * CHUNK_SIZE] of the
    content. *)
Lemma chunk_position j c :
  allChunks !! j = Some c ->
  drop (j * CHUNK_SIZE) (concat allChunks) = c ++ concat (drop (S j) allChunks) /\
  length (concat allChunks)
  = j * CHUNK_SIZE + length c + length (concat (drop (S j) allChunks)).
Proof using Hreg.
  clear H4 Hsub Hfit.
  intros Hj. pose proof (lookup_lt_Some _ _ _ Hj) as Hlt.
  assert (Forall (fun c => length c = CHUNK_SIZE) (take j allChunks)) as Hfull.
  { pose proof (full_prefix CHUNK_SIZE allChunks 0 j Hreg ltac:(lia)) as H.
    rewrite drop_0 in H. exact H. }
  destruct (concat_take_full CHUNK_SIZE allChunks j ltac:(lia) Hfull) as [Ht Hd].
  rewrite <- Hd, (drop_S _ _ _ Hj). split; [reflexivity|].
  rewrite <- (take_drop j allChunks) at 1. rewrite concat_app, length_app.
  rewrite (full_chunks_length CHUNK_SIZE _ Hfull), length_take, (drop_S _ _ _ Hj).
  simpl. rewrite length_app. lia.
Qed.

(** The state of the copy loop after the chunks before [j]. *)
Lemma copy_loop j :
  j <= ceilDiv (4 + hl) CHUNK_SIZE ->
  (forall i, i < ceilDiv (4 + hl) CHUNK_SIZE -> is_Some (m !! i)) ->
  let st :=
    foldl (fun st i =>
             if st.2 <? hl then
               match m !! i with
               | Some chunk =>
                   let startInChunk := if i =? 0 then 4 else 0 in
                   let available := length chunk - startInChunk in
                   let needed := hl - st.2 in
                   let toCopy := Nat.min available needed in
                   (Uint8Array_set st.1
                      (slice startInChunk (startInChunk + toCopy) chunk) st.2,
                    st.2 + toCopy)
               | None => st
               end
             else st)
          (replicate hl x00, 0) (seq 0 j) in
  st.2 <= hl /\
  st.1 = take st.2 (drop 4 (concat allChunks)) ++ replicate (hl - st.2) x00 /\
  (st.2 = hl \/ 4 + st.2 = j * CHUNK_SIZE \/ (j = 0 /\ st.2 = 0)).
Proof using H4 Hreg Hsub Hfit.
  intros Hj Hall. induction j as [|j IH].
  - simpl. rewrite Nat.sub_0_r. split; [lia|]. split; [reflexivity|]. auto.
  - specialize (IH ltac:(lia)). rewrite seq_S, foldl_app. simpl foldl at 1.
    cbv zeta in IH.
    match goal with
    | |- context [foldl ?f ?init (seq 0 j)] => set (st := foldl f init (seq 0 j)) in *
    end.
    destruct IH as (Hle & Hbuf & Hpos). cbn [Nat.add].
    destruct (Nat.ltb_spec st.2 hl) as [Hoff|Hoff].
    2:{ cbv zeta. split; [exact Hle|]. split; [exact Hbuf|]. left. lia. }
    destruct (Hall j ltac:(lia)) as [c Hc]. rewrite Hc.
    pose proof (Hsub _ _ Hc) as Hlk.
    destruct (chunk_position j c Hlk) as [Hdrop Hlen].
    set (s := if j =? 0 then 4 else 0).
    assert (j * CHUNK_SIZE + s = 4 + st.2 /\ s <= length c) as [Hp Hs].
    { unfold s. destruct j as [|j'].
      - simpl. destruct Hpos as [H|[H|[_ H]]]; try lia. split; [lia|].
        destruct (Nat.le_gt_cases (length allChunks) 1) as [Hone|Hmany].
        + rewrite drop_ge in Hlen by lia. simpl in Hlen. lia.
        + rewrite (Hreg 0 c ltac:(lia) Hlk). exact H4.
      - simpl. destruct Hpos as [H|[H|[H _]]]; try lia. }
    cbv zeta. fold s.
    set (toCopy := Nat.min (length c - s) (hl - st.2)).
    set (D := drop 4 (concat allChunks)) in *.
    assert (length D = length (concat allChunks) - 4) as HD
      by (unfold D; apply length_drop).
    assert (slice s (s + toCopy) c = take toCopy (drop st.2 D)) as Hpiece.
    { unfold slice, D. replace (s + toCopy - s) with toCopy by lia.
      rewrite drop_drop. replace (4 + st.2) with (j * CHUNK_SIZE + s) by lia.
      rewrite <- drop_drop, Hdrop, drop_app_le by exact Hs.
      rewrite take_app_le; [reflexivity|]. rewrite length_drop. unfold toCopy. lia. }
    cbn [fst snd]. rewrite Hpiece.
    split; [unfold toCopy; lia|]. split.
    + unfold Uint8Array_set. rewrite Hbuf at 1 2.
      rewrite take_app_length' by (rewrite length_take; lia).
      rewrite length_take, length_drop.
      replace (Nat.min toCopy (length D - st.2)) with toCopy by (unfold toCopy; lia).
      rewrite drop_app_ge by (rewrite length_take; lia).
      rewrite length_take, drop_replicate.
      replace (st.2 + toCopy - Nat.min st.2 (length D)) with toCopy by lia.
      rewrite app_assoc, take_take_drop. f_equal. f_equal. lia.
    + destruct (Nat.le_gt_cases (hl - st.2) (length c - s)) as [Hfin|Hmore].
      * left. unfold toCopy. lia.
      * right. left. unfold toCopy. rewrite Nat.min_l by lia.
        assert (S j < length allChunks) as Hnl.
        { pose proof (lookup_lt_Some _ _ _ Hlk) as Hlt.
          destruct (Nat.eq_dec (S j) (length allChunks)) as [Heq|]; [|lia].
          exfalso. rewrite drop_ge in Hlen by lia. simpl in Hlen. lia. }
        rewrite (Hreg j c Hnl Hlk) in *. lia.
Qed.

End Content.

(** The first chunk of the map gives the header length of the content. *)
Lemma first_chunk_length (allChunks : list bytes) (m : gmap nat bytes) hl c0 :
  4 <= CHUNK_SIZE ->
  (forall i c, S i < length allChunks -> allChunks !! i = Some c ->
               length c = CHUNK_SIZE) ->
  (forall i c, m !! i = Some c -> allChunks !! i = Some c) ->
  VideoLoader.getUint32 (concat allChunks) = Some hl ->
  4 + hl <= length (concat allChunks) ->
  m !! 0 = Some c0 -> VideoLoader.getUint32 c0 = Some hl.
Proof.
  intros H4 Hreg Hsub Hhl Hfit Hm. pose proof (Hsub _ _ Hm) as Hlk.
  destruct (chunk_position allChunks Hreg 0 c0 Hlk) as [Hdrop Hlen].
  simpl in Hdrop, Hlen. rewrite drop_0 in Hdrop. rewrite Hdrop in Hhl.
  rewrite getUint32_prefix in Hhl; [exact Hhl|].
  destruct (Nat.le_gt_cases (length allChunks) 1) as [Hone|Hmany].
  - rewrite drop_ge in Hlen by lia. simpl in Hlen. lia.
  - rewrite (Hreg 0 c0 ltac:(lia) Hlk). exact H4.
Qed.

(** Once the chunks of the header are in the map, the copy loop gathers
    the bytes [4, 4 + hl) of the content. *)
Lemma copyHeader_content (allChunks : list bytes) (m : gmap nat bytes) hl :
  4 <= CHUNK_SIZE ->
  (forall i c, S i < length allChunks -> allChunks !! i = Some c ->
               length c = CHUNK_SIZE) ->
  (forall i c, m !! i = Some c -> allChunks !! i = Some c) ->
  4 + hl <= length (concat allChunks) ->
  (forall i, i < ceilDiv (4 + hl) CHUNK_SIZE -> is_Some (m !! i)) ->
  VideoLoader.copyHeader m hl (ceilDiv (4 + hl) CHUNK_SIZE)
  = slice 4 (4 + hl) (concat allChunks).
Proof.
  intros H4 Hreg Hsub Hfit Hall. unfold VideoLoader.copyHeader.
  pose proof (copy_loop allChunks m hl H4 Hreg Hsub Hfit
                (ceilDiv (4 + hl) CHUNK_SIZE) ltac:(lia) Hall) as Hloop.
  cbv zeta in Hloop.
  match goal with
  | |- (foldl ?f ?init ?l).1 = _ => set (st := foldl f init l) in *
  end.
  destruct Hloop as (Hle & Hbuf & Hposn).
  pose proof (ceilDiv_upper CHUNK_SIZE (4 + hl) ltac:(lia)) as Hup.
  assert (st.2 = hl) as Hend by (destruct Hposn as [H|[H|[H _]]]; lia).
  rewrite Hbuf, Hend, Nat.sub_diag. simpl replicate. rewrite app_nil_r.
  unfold slice. f_equal. lia.
Qed.

(** Whatever [parseHeaderFromChunks] returns over chunks of the content is
    what [JSON.parse] makes of the header of the content. *)
Lemma parseHeader_some (allChunks : list bytes) (m : gmap nat bytes) hl hl0 j :
  4 <= CHUNK_SIZE ->
  (forall i c, S i < length allChunks -> allChunks !! i = Some c ->
               length c = CHUNK_SIZE) ->
  (forall i c, m !! i = Some c -> allChunks !! i = Some c) ->
  VideoLoader.getUint32 (concat allChunks) = Some hl ->
  4 + hl <= length (concat allChunks) ->
  (VideoLoader.parseHeaderFromChunks CHUNK_SIZE JSON_parse m hl0).2 = Some j ->
  JSON_parse (slice 4 (4 + hl) (concat allChunks)) = Some j.
Proof.
  intros H4 Hreg Hsub Hhl Hfit Hj. unfold VideoLoader.parseHeaderFromChunks in Hj.
  destruct (m !! 0) as [c0|] eqn:Hm0; [|discriminate].
  rewrite (first_chunk_length allChunks m hl c0 H4 Hreg Hsub Hhl Hfit Hm0) in Hj.
  destruct (forallb (fun i => bool_decide (is_Some (m !! i)))
                    (seq 0 (ceilDiv (4 + hl) CHUNK_SIZE))) eqn:Hf; [|discriminate].
  simpl in Hj. rewrite <- Hj. f_equal. symmetry.
  apply copyHeader_content; try assumption.
  intros i Hi. rewrite forallb_forall in Hf.
  specialize (Hf i ltac:(apply in_seq; lia)). apply bool_decide_eq_true in Hf. exact Hf.
Qed.

(** [parseHeaderFromChunks] over chunks of at least four bytes each.  Let
    the chunk map hold chunks of the content (every chunk but possibly the
    last of [CHUNK_SIZE] bytes), the first four bytes of the content give the
    header length [hl], and the content be long enough to hold the header.
    As soon as the map holds the first [ceil((4 + hl) / CHUNK_SIZE)] chunks,
    the function sets [headerLength] to [hl] and hands [JSON.parse] exactly
    the bytes [4, 4 + hl) of the content, however many chunks the header
    spans; as long as one of these chunks is missing it returns [null]. *)
Theorem header_parsed_from_chunks (allChunks : list bytes) (m : gmap nat bytes) hl hl0 :
  4 <= CHUNK_SIZE ->
  (forall i c, S i < length allChunks -> allChunks !! i = Some c ->
               length c = CHUNK_SIZE) ->
  (forall i c, m !! i = Some c -> allChunks !! i = Some c) ->
  VideoLoader.getUint32 (concat allChunks) = Some hl ->
  4 + hl <= length (concat allChunks) ->
  ((forall i, i < ceilDiv (4 + hl) CHUNK_SIZE -> is_Some (m !! i)) ->
   VideoLoader.parseHeaderFromChunks CHUNK_SIZE JSON_parse m hl0
   = (hl, JSON_parse (slice 4 (4 + hl) (concat allChunks)))) /\
  (forall i, i < ceilDiv (4 + hl) CHUNK_SIZE -> m !! i = None ->
   (VideoLoader.parseHeaderFromChunks CHUNK_SIZE JSON_parse m hl0).2 = None).
Proof.
  intros H4 Hreg Hsub Hhl Hfit.
  pose proof (first_chunk_length allChunks m hl) as Hc0.
  split.
  - intros Hall.
    assert (0 < ceilDiv (4 + hl) CHUNK_SIZE) as Hpos.
    { pose proof (ceilDiv_upper CHUNK_SIZE (4 + hl) ltac:(lia)). nia. }
    destruct (Hall 0 Hpos) as [c0 Hm0].
    unfold VideoLoader.parseHeaderFromChunks.
    rewrite Hm0, (Hc0 c0 H4 Hreg Hsub Hhl Hfit Hm0).
    assert (forallb (fun i => bool_decide (is_Some (m !! i)))
                    (seq 0 (ceilDiv (4 + hl) CHUNK_SIZE)) = true) as ->.
    { apply forallb_forall. intros i Hi. apply in_seq in Hi.
      apply bool_decide_eq_true, Hall. lia. }
    do 2 f_equal. apply copyHeader_content; assumption.
  - intros i Hi Hnone. unfold VideoLoader.parseHeaderFromChunks.
    destruct (m !! 0) as [c0|] eqn:Hm0; [|reflexivity].
    rewrite (Hc0 c0 H4 Hreg Hsub Hhl Hfit eq_refl).
    assert (forallb (fun i => bool_decide (is_Some (m !! i)))
                    (seq 0 (ceilDiv (4 + hl) CHUNK_SIZE)) = false) as ->; [|reflexivity].
    apply not_true_is_false. intros Hf. rewrite forallb_forall in Hf.
    specialize (Hf i ltac:(apply in_seq; lia)).
    apply bool_decide_eq_true in Hf. rewrite Hnone in Hf. destruct Hf. discriminate.
Qed.

End HeaderProperties.

Section HeaderRuns.
Import Media.

Lemma headerMap_chunks i c : headerMap !! i = Some c -> headerChunks !! i = Some c.
Proof.
  unfold headerMap. intros H.
  apply lookup_insert_Some in H as [[<- <-]|[_ H]]; [reflexivity|].
  apply lookup_insert_Some in H as [[<- <-]|[_ H]]; [reflexivity|].
  apply lookup_insert_Some in H as [[<- <-]|[_ H]]; [reflexivity|].
  rewrite lookup_empty in H. discriminate.
Qed.

Lemma header_parsed_from_chunks_witness :
  let parse := parseExample in
  ((forall i, i < ceilDiv (4 + 5) 4 -> is_Some (headerMap !! i)) ->
   VideoLoader.parseHeaderFromChunks 4 parse headerMap 0
   = (5, parse (slice 4 (4 + 5) (concat headerChunks)))) /\
  (forall i, i < ceilDiv (4 + 5) 4 -> headerMap !! i = None ->
   (VideoLoader.parseHeaderFromChunks 4 parse headerMap 0).2 = None).
Proof.
  intros parse.
  apply (header_parsed_from_chunks 4 parse headerChunks headerMap 5 0).
  - lia.
  - intros i c Hi Hc. destruct i as [|[|i]]; simpl in *; try lia;
      injection Hc as <-; reflexivity.
  - apply headerMap_chunks.
  - reflexivity.
  - simpl. lia.
Defined.

(** The header handed to the parser in that run. *)
Example header_spans_chunks :
  VideoLoader.copyHeader headerMap 5 3 = [x61; x62; x63; x64; x65].
Proof. vm_compute. reflexivity. Qed.

End HeaderRuns.

(** ** extension/lib/site-loader.js *)
Section SiteLoaderFacts.
Context {World : Type} `{RR : RemoteReader World}.

Lemma readFrom_success a k : forall rem i r w w1 d w2,
  readFails k a w = Some w1 ->
  readContract a w1 = (Some d, w2) ->
  k < rem -> i + rem = r ->
  SiteLoader.readChunkFrom rem i r a w
  = (Ok (Some d), w2, failedReads a i k ++ [EvRead a]).
Proof.
  induction k as [|k IH]; intros rem i r w w1 d w2 Hf Hrd Hlt Hir.
  - destruct rem as [|rem]; [lia|]. simpl in Hf. injection Hf as <-.
    simpl. unfold try_catch, bind, Net.rpcRead. rewrite Hrd. reflexivity.
  - destruct rem as [|rem]; [lia|]. simpl in Hf.
    destruct (readContract a w) as [[d0|] w0] eqn:E; [discriminate|].
    simpl. unfold try_catch, bind at 1, Net.rpcRead. rewrite E.
    destruct (Nat.eqb_spec i (r - 1)) as [->|_]; [lia|].
    unfold bind, sleep, emit.
    rewrite (IH rem (S i) r w0 w1 d w2 Hf Hrd ltac:(lia) ltac:(lia)).
    reflexivity.
Qed.

Lemma readFrom_exhausted a : forall rem i r w w',
  readFails rem a w = Some w' ->
  0 < rem -> i + rem = r ->
  SiteLoader.readChunkFrom rem i r a w
  = (Throw RpcError, w', failedReads a i (rem - 1) ++ [EvRead a]).
Proof.
  induction rem as [|rem IH]; intros i r w w' Hf Hpos Hir; [lia|].
  simpl in Hf. destruct (readContract a w) as [[d0|] w0] eqn:E; [discriminate|].
  simpl. unfold try_catch, bind at 1, Net.rpcRead. rewrite E.
  destruct (Nat.eqb_spec i (r - 1)) as [Heq|Hne].
  - assert (rem = 0) as -> by lia. simpl in Hf. injection Hf as <-. reflexivity.
  - destruct rem as [|rem]; [lia|].
    unfold bind, sleep, emit.
    rewrite (IH (S i) r w0 w' Hf ltac:(lia) ltac:(lia)).
    simpl. rewrite Nat.sub_0_r. reflexivity.
Qed.

Lemma readChunk_cases a r w :
  0 < r ->
  (exists k w1 d w2, k < r /\ readFails k a w = Some w1 /\
      readContract a w1 = (Some d, w2) /\
      SiteLoader.readChunk a r w = (Ok (Some d), w2, failedReads a 0 k ++ [EvRead a])) \/
  (exists w', readFails r a w = Some w' /\
      SiteLoader.readChunk a r w
      = (Throw RpcError, w', failedReads a 0 (r - 1) ++ [EvRead a])).
Proof.
  intros Hr. unfold SiteLoader.readChunk.
  destruct (fetchFrom_cases a r 0 r w Hr eq_refl)
    as [(k & w1 & d & w2 & Hk & Hf & Hrd)|(w' & Hf)].
  - left. exists k, w1, d, w2. repeat split; try assumption.
    eapply readFrom_success; eauto.
  - right. exists w'. split; [assumption|].
    eapply readFrom_exhausted; eauto.
Qed.



Lemma readChunk_consistent store a r w got w' e :
  consistent store -> 0 < r ->
  SiteLoader.readChunk a r w = (Ok got, w', e) ->
  exists d, got = Some d /\ store a = Some d.
Proof.
  intros Hc Hr Hrun.
  destruct (readChunk_cases a r w Hr)
    as [(k & w1 & d & w2 & _ & _ & Hrd & Heq)|(w2 & _ & Heq)];
    rewrite Heq in Hrun; [|discriminate].
  injection Hrun as <- _ _. exists d. split; [reflexivity|]. eapply Hc; eauto.
Qed.

Lemma readChunk_alwaysFails a w :
  alwaysFails a ->
  exists w' e, SiteLoader.readChunk a 3 w = (Throw RpcError, w', e).
Proof.
  intros Ha.
  destruct (readChunk_cases a 3 w ltac:(lia))
    as [(k & w1 & d & w2 & _ & _ & Hrd & _)|(w2 & _ & Heq)]; [|eauto].
  specialize (Ha w1). rewrite Hrd in Ha. discriminate.
Qed.

Section Consistent.
Variable store : Address -> option bytes.
Hypothesis Hc : consistent store.

Lemma collectLeaves_sound : forall d a lvs w lvs' w' e,
  SiteLoader.collectLeaves d a lvs w = (Ok lvs', w', e) ->
  lvs' = lvs ++ Tree.treeLeaves store d a.
Proof using Hc.
  induction d as [|d IH]; intros a lvs w lvs' w' e Hrun.
  - injection Hrun as <- _ _. reflexivity.
  - cbn [SiteLoader.collectLeaves] in Hrun. unfold bind at 1 in Hrun.
    destruct (SiteLoader.readChunk a 3 w) as [[[got|err] w1] e1] eqn:Hread;
      [|discriminate].
    destruct (readChunk_consistent store a 3 w got w1 e1 Hc ltac:(lia) Hread)
      as (payload & -> & Hs).
    cbn [Tree.treeLeaves]. rewrite Hs.
    destruct (foldM (SiteLoader.collectLeaves d) (Net.childAddrs payload) lvs w1)
      as [[r w2] e2] eqn:Hfold.
    injection Hrun as -> <- _. clear Hread.
    revert lvs w1 e2 Hfold. generalize (Net.childAddrs payload) as cs.
    induction cs as [|c cs IHc]; intros lvs w1 e2 Hfold.
    + injection Hfold as <- _ _. simpl. rewrite app_nil_r. reflexivity.
    + simpl in Hfold. unfold bind in Hfold.
      destruct (SiteLoader.collectLeaves d c lvs w1) as [[[l1|err] w3] e3] eqn:Hc1;
        [|discriminate].
      destruct (foldM (SiteLoader.collectLeaves d) cs l1 w3) as [[r2 w4] e4] eqn:Hrest.
      injection Hfold as -> <- _.
      rewrite (IHc _ _ _ Hrest), (IH _ _ _ _ _ _ Hc1). simpl.
      rewrite <- app_assoc. reflexivity.
Qed.

Lemma readLeaves_sound : forall leaves acc w all w' e,
  SiteLoader.readLeaves leaves acc w = (Ok all, w', e) ->
  all = acc ++ map store leaves /\ Forall (fun a => is_Some (store a)) leaves.
Proof using Hc.
  induction leaves as [|a rest IH]; intros acc w all w' e Hrun.
  - injection Hrun as <- _ _. rewrite app_nil_r. split; [reflexivity|constructor].
  - cbn [SiteLoader.readLeaves] in Hrun. unfold bind at 1 in Hrun.
    destruct (SiteLoader.readChunk a 3 w) as [[[got|err] w1] e1] eqn:Hread;
      [|discriminate].
    destruct (readChunk_consistent store a 3 w got w1 e1 Hc ltac:(lia) Hread)
      as (payload & -> & Hs).
    unfold bind at 1 in Hrun.
    destruct ((if 0 <? length rest then sleep 50 else ret tt) w1)
      as [[[[]|err] w2] e2] eqn:Hsl;
      [|destruct (0 <? length rest); discriminate].
    destruct (SiteLoader.readLeaves rest (acc ++ [Some payload]) w2)
      as [[r w3] e3] eqn:Hrest.
    injection Hrun as -> <- _.
    destruct (IH _ _ _ _ _ Hrest) as [-> Hall].
    split; [simpl; rewrite Hs, <- app_assoc; reflexivity|].
    constructor; [rewrite Hs; eauto|exact Hall].
Qed.

Lemma readLeaves_throws a : alwaysFails a ->
  forall leaves acc w, a ∈ leaves ->
    is_ok (outcome (SiteLoader.readLeaves leaves acc w)) = false.
Proof.
  intros Ha. induction leaves as [|b rest IH]; intros acc w Hin; [inversion Hin|].
  cbn [SiteLoader.readLeaves]. unfold bind at 1.
  destruct (SiteLoader.readChunk b 3 w) as [[[got|err] w1] e1] eqn:Hread; [|reflexivity].
  apply elem_of_cons in Hin as [<- | Hin].
  { destruct (readChunk_alwaysFails a w Ha) as (w' & e' & Hthrow). congruence. }
  unfold bind at 1.
  destruct ((if 0 <? length rest then sleep 50 else ret tt) w1)
    as [[[[]|err] w2] e2] eqn:Hsl; [|reflexivity].
  specialize (IH (acc ++ [got]) w2 Hin).
  destruct (SiteLoader.readLeaves rest (acc ++ [got]) w2) as [[r w3] e3].
  exact IH.
Qed.

End Consistent.

(** [loadContent] of the extension is all or nothing.  Over a reader
    consistent with the tree, whenever it returns, every leaf of the tree
    was read and the data are the payloads of all the leaves, depth-first,
    laid end to end: it never returns a shortened buffer.  And when the
    reads of some leaf always fail it does not return at all: it throws. *)
Theorem site_load_all_or_nothing store root depth total w :
  consistent store ->
  (forall buf w' e,
     SiteLoader.loadContent root depth total w = (Ok buf, w', e) ->
     Forall (fun a => is_Some (store a)) (Tree.treeLeaves store depth root) /\
     buf = concat (map (fun a => default [] (store a)) (Tree.treeLeaves store depth root))) /\
  (forall a,
     a ∈ Tree.treeLeaves store depth root -> alwaysFails a ->
     is_ok (outcome (SiteLoader.loadContent root depth total w)) = false).
Proof.
  intros Hc. split.
  - intros buf w' e Hrun. unfold SiteLoader.loadContent, bind at 1 in Hrun.
    destruct (SiteLoader.collectLeaves depth root [] w) as [[[lvs|err] w1] e1] eqn:Hcol;
      [|discriminate].
    pose proof (collectLeaves_sound store Hc _ _ _ _ _ _ _ Hcol) as Hl. simpl in Hl.
    subst lvs. unfold bind at 1 in Hrun.
    destruct (SiteLoader.readLeaves (Tree.treeLeaves store depth root) [] w1)
      as [[[all|err] w2] e2] eqn:Hread; [|discriminate].
    destruct (readLeaves_sound store Hc _ _ _ _ _ _ Hread) as [-> Hall].
    split; [exact Hall|]. simpl in Hrun.
    assert (mapM id (map store (Tree.treeLeaves store depth root))
            = Some (map (fun a => default [] (store a)) (Tree.treeLeaves store depth root)))
      as Hm.
    { clear -Hall. induction Hall as [|a l [payload Hs] _ IH]; [reflexivity|].
      simpl. rewrite Hs. simpl. rewrite IH. reflexivity. }
    rewrite Hm in Hrun. injection Hrun as <- _ _. apply concatBuffers_concat.
  - intros a Hin Ha. unfold SiteLoader.loadContent, bind at 1.
    destruct (SiteLoader.collectLeaves depth root [] w) as [[[lvs|err] w1] e1] eqn:Hcol;
      [|reflexivity].
    pose proof (collectLeaves_sound store Hc _ _ _ _ _ _ _ Hcol) as Hl. simpl in Hl.
    subst lvs. unfold bind at 1.
    pose proof (readLeaves_throws a Ha _ [] w1 Hin) as Hthrow.
    destruct (SiteLoader.readLeaves (Tree.treeLeaves store depth root) [] w1)
      as [[[all|err] w2] e2]; [discriminate|reflexivity].
Qed.

(** *** A healthy network *)
Section Healthy.
Variable store : Address -> option bytes.
Variable good : World -> Prop.
Hypothesis Hef : errorFree store good.

Lemma readChunk_healthy a payload w :
  good w -> store a = Some payload ->
  exists w', SiteLoader.readChunk a 3 w = (Ok (Some payload), w', [EvRead a]) /\ good w'.
Proof using Hef.
  intros Hg Hs. destruct (ef_read _ _ Hef a w Hg) as (w' & Hrd & Hg').
  rewrite Hs in Hrd. exists w'. split; [|exact Hg'].
  apply (readFrom_success a 0 3 0 3 w w payload w'); auto.
Qed.

Lemma collectLeaves_healthy : forall d a lvs w,
  good w -> Tree.treeReadable store d a ->
  exists w' e,
    SiteLoader.collectLeaves d a lvs w = (Ok (lvs ++ Tree.treeLeaves store d a), w', e)
    /\ good w' /\ Forall (fun ev => exists b, ev = EvRead b) e.
Proof using Hef.
  induction d as [|d IH]; intros a lvs w Hg Hread.
  - eexists w, _. split; [reflexivity|]. split; [exact Hg|constructor].
  - simpl in Hread. destruct (store a) as [payload|] eqn:Hs; [|contradiction].
    destruct (readChunk_healthy a payload w Hg Hs) as (w1 & Hfetch & Hg1).
    cbn [SiteLoader.collectLeaves Tree.treeLeaves]. unfold bind at 1.
    rewrite Hfetch, Hs.
    assert (exists w' e,
               foldM (SiteLoader.collectLeaves d) (Net.childAddrs payload) lvs w1
               = (Ok (lvs ++ flat_map (Tree.treeLeaves store d) (Net.childAddrs payload)),
                  w', e) /\ good w' /\ Forall (fun ev => exists b, ev = EvRead b) e)
      as (w' & e & Hfold & Hg' & He).
    { clear Hfetch. revert lvs w1 Hg1.
      induction Hread as [|c cs Hc _ IHc]; intros lvs w1 Hg1.
      - eexists w1, _. split; [|split; [exact Hg1|constructor]]. simpl. unfold ret.
        rewrite app_nil_r. reflexivity.
      - destruct (IH c lvs w1 Hg1 Hc) as (w2 & e1 & Hrun & Hg2 & He1).
        simpl. unfold bind. rewrite Hrun.
        destruct (IHc (lvs ++ Tree.treeLeaves store d c) w2 Hg2)
          as (w3 & e2 & Hrest & Hg3 & He2).
        rewrite Hrest. eexists w3, _. split; [|split; [exact Hg3|]].
        + rewrite <- app_assoc. reflexivity.
        + apply Forall_app. split; assumption. }
    rewrite Hfold. eexists w', _. split; [reflexivity|]. split; [exact Hg'|].
    constructor; [eauto|exact He].
Qed.

Lemma readLeaves_healthy : forall leaves acc w,
  good w -> Forall (fun a => is_Some (store a)) leaves ->
  exists w',
    SiteLoader.readLeaves leaves acc w
    = (Ok (acc ++ map store leaves), w', leafReads leaves) /\ good w'.
Proof using Hef.
  induction leaves as [|a rest IH]; intros acc w Hg Hall.
  - exists w. rewrite app_nil_r. split; [reflexivity|exact Hg].
  - apply Forall_cons in Hall as [[payload Hs] Hall].
    destruct (readChunk_healthy a payload w Hg Hs) as (w1 & Hread & Hg1).
    destruct (IH (acc ++ [Some payload]) w1 Hg1 Hall) as (w2 & Hrest & Hg2).
    cbn [SiteLoader.readLeaves]. unfold bind at 1. rewrite Hread.
    exists w2. split; [|exact Hg2].
    destruct rest as [|b rest'].
    + unfold bind. cbn [length Nat.ltb Nat.leb]. unfold ret at 1. rewrite Hrest.
      simpl. rewrite Hs, <- app_assoc. reflexivity.
    + unfold bind. cbn [length Nat.ltb Nat.leb]. unfold sleep, emit. rewrite Hrest.
      simpl. rewrite Hs, <- app_assoc. reflexivity.
Qed.

End Healthy.

(** On a healthy network [loadContent] returns the payloads of the leaves
    laid end to end; the walk of the tree makes reads only, and the leaves
    are then read one by one, in order, 50 ms apart, with no wait after the
    last. *)
Theorem site_load_healthy store good root depth total w :
  errorFree store good -> good w ->
  Tree.treeReadable store depth root ->
  Forall (fun a => is_Some (store a)) (Tree.treeLeaves store depth root) ->
  exists w' scan,
    SiteLoader.loadContent root depth total w
    = (Ok (concat (map (fun a => default [] (store a)) (Tree.treeLeaves store depth root))),
       w', scan ++ leafReads (Tree.treeLeaves store depth root)) /\
    Forall (fun ev => exists b, ev = EvRead b) scan.
Proof.
  intros Hef Hg Hread Hleaves.
  destruct (collectLeaves_healthy store good Hef depth root [] w Hg Hread)
    as (w1 & e1 & Hcol & Hg1 & He1).
  destruct (readLeaves_healthy store good Hef _ [] w1 Hg1 Hleaves) as (w2 & Hrun & _).
  simpl in Hcol, Hrun.
  unfold SiteLoader.loadContent, bind at 1. rewrite Hcol.
  unfold bind at 1. rewrite Hrun.
  assert (mapM id (map store (Tree.treeLeaves store depth root))
          = Some (map (fun a => default [] (store a)) (Tree.treeLeaves store depth root)))
    as ->.
  { clear -Hleaves. induction Hleaves as [|a l [payload Hs] _ IH]; [reflexivity|].
    simpl. rewrite Hs. simpl. rewrite IH. reflexivity. }
  exists w2, e1. split; [|exact He1].
  unfold ret. rewrite concatBuffers_concat, app_nil_r. reflexivity.
Qed.

End SiteLoaderFacts.

Section SiteLoaderRuns.
Import Sim Scenario.


Lemma site_load_all_or_nothing_witness :
  (forall buf w' e,
     SiteLoader.loadContent (RR := reader pagesHole) root 2 9 calm = (Ok buf, w', e) ->
     Forall (fun a => is_Some (store pagesHole a)) (Tree.treeLeaves (store pagesHole) 2 root) /\
     buf = concat (map (fun a => default [] (store pagesHole a))
                       (Tree.treeLeaves (store pagesHole) 2 root))) /\
  (forall a,
     a ∈ Tree.treeLeaves (store pagesHole) 2 root ->
     alwaysFails (RR := reader pagesHole) a ->
     is_ok (outcome (SiteLoader.loadContent (RR := reader pagesHole) root 2 9 calm)) = false).
Proof.
  apply (site_load_all_or_nothing (RR := reader pagesHole) (store pagesHole) root 2 9 calm).
  apply sim_consistent.
Defined.

(** With no page at leaf 1 the extension's loader throws, where
    [fetchTreeSequential] returns seven bytes. *)
Example site_load_throws_on_missing_leaf :
  outcome (SiteLoader.loadContent (RR := reader pagesHole) root 2 9 calm) = Throw RpcError.
Proof. vm_compute. reflexivity. Qed.

Lemma site_load_healthy_witness :
  exists w' scan,
    SiteLoader.loadContent (RR := reader pages) root 2 9 calm
    = (Ok (concat (map (fun a => default [] (store pages a))
                       (Tree.treeLeaves (store pages) 2 root))),
       w', scan ++ leafReads (Tree.treeLeaves (store pages) 2 root)) /\
    Forall (fun ev => exists b, ev = EvRead b) scan.
Proof.
  apply (site_load_healthy (RR := reader pages) (store pages) isCalm root 2 9 calm).
  - apply sim_errorFree.
  - reflexivity.
  - simpl. repeat constructor.
  - repeat constructor; eexists; reflexivity.
Defined.

End SiteLoaderRuns.

(** ** video-loader.js: the streaming loop *)

Section StreamFacts.
Context {World : Type} `{RR : RemoteReader World} `{MP : MediaPlayer World}.
Variable USE_MULTICALL : bool.
Variable BATCH_SIZE : nat.
Variable CHUNK_SIZE : nat.
Variable JSON_parse : bytes -> option VideoLoader.Json.

Local Abbreviation cmap := VideoLoader.chunkDataMap.
Local Abbreviation hlen := VideoLoader.headerLength.
Local Abbreviation parsed := VideoLoader.segmentsParsed.
Local Abbreviation segs := VideoLoader.adjustedSegments.
Local Abbreviation next := VideoLoader.nextSegmentToAppend.
Local Abbreviation quiet := (Forall (fun ev => playerEvent ev = false)).

Lemma later_refl s : later s s.
Proof. split; [reflexivity|auto]. Qed.

Lemma later_trans s1 s2 s3 : later s1 s2 -> later s2 s3 -> later s1 s3.
Proof.
  intros [Hm1 Hp1] [Hm2 Hp2]. split; [etransitivity; eassumption|].
  intros Hp. destruct (Hp1 Hp) as (Hp' & Hs & Hh).
  destruct (Hp2 Hp') as (Hp'' & Hs' & Hh'). split; [exact Hp''|]. split; congruence.
Qed.




Lemma releasable_same s s' i d :
  cmap s' = cmap s -> hlen s' = hlen s -> segs s' = segs s ->
  releasable CHUNK_SIZE s i d -> releasable CHUNK_SIZE s' i d.
Proof.
  intros Hm Hh Hs (sg & H1 & H2 & H3). exists sg. rewrite Hm, Hh, Hs. auto.
Qed.

Lemma appended_app e1 e2 : appended (e1 ++ e2) = appended e1 ++ appended e2.
Proof. apply omap_app. Qed.

Lemma appended_quiet e : quiet e -> appended e = [].
Proof.
  induction 1 as [|ev e Hev _ IH]; [reflexivity|].
  change (appended (ev :: e))
    with (match appendIndex ev with Some i => i :: appended e | None => appended e end).
  rewrite IH. destruct ev; try reflexivity; discriminate.
Qed.

Lemma quiet_no_player e ev :
  quiet e -> ev ∈ e -> playerEvent ev = true -> False.
Proof.
  intros H Hin Hp. rewrite Forall_forall in H. specialize (H _ Hin). congruence.
Qed.

Lemma arrivals_app e1 e2 : arrivals (e1 ++ e2) = arrivals e1 ++ arrivals e2.
Proof. apply omap_app. Qed.

Lemma timely_weaken sm : forall e arr arr',
  (forall k, k ∈ arr -> k ∈ arr') -> timely sm arr e -> timely sm arr' e.
Proof.
  induction e as [|ev e IH]; intros arr arr' Hsub Ht; [exact I|].
  destruct ev; simpl in *; try (eapply IH; eassumption).
  - eapply IH; [|exact Ht]. intros k Hk.
    apply elem_of_cons in Hk as [-> | Hk]; [left|right; auto].
  - destruct Ht as [(sg & Hsg & Hall) Ht]. split; [|eapply IH; eassumption].
    exists sg. split; [exact Hsg|]. intros k Hk. apply Hsub, Hall, Hk.
Qed.

Lemma timely_app sm : forall e1 arr e2,
  timely sm arr e1 -> timely sm (arrivals e1 ++ arr) e2 -> timely sm arr (e1 ++ e2).
Proof.
  induction e1 as [|ev e1 IH]; intros arr e2 H1 H2; [exact H2|].
  destruct ev; simpl in *; try (apply IH; assumption).
  - apply IH; [exact H1|]. eapply timely_weaken; [|exact H2].
    intros k Hk. change (arrivals (EvChunk i :: e1)) with (i :: arrivals e1) in Hk.
    simpl in Hk. apply elem_of_cons in Hk as [-> | Hk].
    + apply elem_of_app. right. left.
    + apply elem_of_app in Hk as [Hk|Hk]; apply elem_of_app; [left|right; right]; exact Hk.
  - destruct H1 as [Hseg H1]. split; [exact Hseg|]. apply IH; assumption.
Qed.

Lemma timely_quiet sm e arr : quiet e -> timely sm arr e.
Proof.
  intros H. revert arr. induction H as [|ev e Hev _ IH]; intros arr; [exact I|].
  destruct ev; simpl in *; try apply IH; discriminate.
Qed.

Local Abbreviation releases := (releases CHUNK_SIZE).

Lemma releases_nil s : releases s [].
Proof. intros ev Hev. inversion Hev. Qed.

Lemma releases_tail s ev e : releases s (ev :: e) -> releases s e.
Proof. intros H ev' Hin. apply H. constructor. exact Hin. Qed.

Lemma releases_arrivals s e : releases s e -> arrivals e = [].
Proof.
  induction e as [|ev e IH]; intros H; [reflexivity|].
  specialize (IH (releases_tail _ _ _ H)).
  destruct (H ev ltac:(constructor)) as [-> | (i & d & -> & _)]; exact IH.
Qed.

Lemma releases_player s e ev :
  releases s e -> ev ∈ e -> playerEvent ev = true ->
  exists i d, ev = EvAppend i d /\ releasable CHUNK_SIZE s i d.
Proof.
  intros H Hin Hp. destruct (H ev Hin) as [-> | Hr]; [discriminate|exact Hr].
Qed.

Lemma timely_releases s e arr :
  releases s e ->
  (forall k, is_Some (cmap s !! k) -> k ∈ arr) ->
  timely (segs s) arr e.
Proof.
  intros Hev Hdom. induction e as [|ev e IH]; [exact I|].
  specialize (IH (releases_tail _ _ _ Hev)).
  destruct (Hev ev ltac:(constructor)) as [-> | (i & d & -> & sg & Hsg & Hc & _)];
    [exact IH|].
  simpl. split; [|exact IH].
  exists sg. split; [exact Hsg|]. intros k Hk. apply Hdom.
  rewrite isSegmentComplete_spec in Hc. apply Hc, Hk.
Qed.

(** [try { await appendSegment(segData) } catch (e) { log(...) }] *)
Lemma appendSegment_run (d : bytes) (s : VideoLoader.Stream) (w : World) :
  exists w' e,
    try_catch (inWorld (VideoLoader.appendSegment d)) (fun _ => log LogAppendFailed) (s, w)
    = (Ok tt, (s, w'), e) /\
    (e = [] \/ e = [EvLog LogAppendFailed]).
Proof.
  unfold try_catch, inWorld, VideoLoader.appendSegment. simpl.
  destruct (appendBuffer d w) as [[|] w']; simpl; eexists _, _; split;
    try reflexivity; auto.
Qed.

(** The release loop: segments are appended one after the other from the
    cursor on, each complete in the chunk map, and, given enough
    iterations, the loop stops in front of an incomplete segment or at the
    end of the segment map. *)
Lemma appendReady_run : forall fuel s (w : World),
  exists s' w' e,
    VideoLoader.appendReady CHUNK_SIZE fuel (s, w) = (Ok tt, (s', w'), e) /\
    cmap s' = cmap s /\ hlen s' = hlen s /\ parsed s' = parsed s /\ segs s' = segs s /\
    next s <= next s' /\
    appended e = seq (next s) (next s' - next s) /\
    releases s e /\
    (next s <= length (segs s) -> next s' <= length (segs s)) /\
    (length (segs s) - next s <= fuel ->
     forall sg, segs s !! next s' = Some sg ->
                VideoLoader.isSegmentComplete sg (cmap s) = false).
Proof.
  induction fuel as [|fuel IH]; intros s w.
  - exists s, w, []. split; [reflexivity|]. repeat split; auto.
    + rewrite Nat.sub_diag. reflexivity.
    + apply releases_nil.
    + intros Hf sg Hsg. apply lookup_lt_Some in Hsg. lia.
  - cbn [VideoLoader.appendReady]. unfold bind at 1, vars. cbn [fst snd].
    destruct (segs s !! next s) as [sg|] eqn:Hsg.
    2:{ exists s, w, []. split; [reflexivity|]. repeat split; auto.
        - rewrite Nat.sub_diag. reflexivity.
        - apply releases_nil.
        - intros _ sg Hsg'. congruence. }
    destruct (VideoLoader.isSegmentComplete sg (cmap s)) eqn:Hc.
    2:{ exists s, w, []. split; [reflexivity|]. repeat split; auto.
        - rewrite Nat.sub_diag. reflexivity.
        - apply releases_nil.
        - intros _ sg' Hsg'. congruence. }
    pose proof (lookup_lt_Some _ _ _ Hsg) as Hlt.
    destruct (extract_complete CHUNK_SIZE (hlen s) sg (cmap s) Hc) as [d Hx].
    rewrite Hx.
    destruct (appendSegment_run d s w) as (w1 & e0 & Happend & He0).
    destruct (IH (VideoLoader.advance s) w1)
      as (s' & w' & e & Hrun & Hm & Hh & Hp & Hs & Hn & Happ & Hev & Hbound & Hstop).
    unfold bind at 1, emit. unfold bind at 1. rewrite Happend.
    unfold bind at 1, update. cbn [fst snd]. rewrite Hrun.
    simpl in Hm, Hh, Hp, Hs, Hn, Happ, Hbound, Hstop.
    exists s', w', (EvAppend (next s) d :: e0 ++ e).
    split; [simpl; reflexivity|].
    split; [exact Hm|]. split; [exact Hh|]. split; [exact Hp|]. split; [exact Hs|].
    split; [lia|].
    assert (releasable CHUNK_SIZE s (next s) d) as Hrel by (exists sg; auto).
    split.
    { change (appended (EvAppend (next s) d :: e0 ++ e)) with (next s :: appended (e0 ++ e)).
      rewrite appended_app, Happ.
      replace (appended e0) with (@nil nat) by (destruct He0 as [-> | ->]; reflexivity).
      replace (next s' - next s) with (S (next s' - S (next s))) by lia. reflexivity. }
    split.
    { intros ev Hin. apply elem_of_cons in Hin as [-> | Hin]; [right; eauto|].
      apply elem_of_app in Hin as [Hin|Hin].
      - left. destruct He0 as [-> | ->]; [inversion Hin|].
        apply list_elem_of_singleton in Hin. exact Hin.
      - destruct (Hev ev Hin) as [-> | (i & d' & -> & Hr)]; [left; reflexivity|].
        right. exists i, d'. split; [reflexivity|].
        apply (releasable_same (VideoLoader.advance s) s); auto. }
    split; [intros _; apply Hbound; lia|].
    intros Hf sg' Hsg'. apply Hstop; [lia|exact Hsg'].
Qed.

(** [results.forEach] of the streaming loop only adds chunks, at the
    indices of the batch. *)
Lemma storeResults_run i : forall rs idx s (w : World),
  (forall k, is_Some (cmap s !! k) -> k < i + idx) ->
  exists s' e,
    VideoLoader.storeResults i rs idx (s, w) = (Ok tt, (s', w), e) /\
    cmap s ⊆ cmap s' /\
    hlen s' = hlen s /\ parsed s' = parsed s /\ segs s' = segs s /\ next s' = next s /\
    (forall k, is_Some (cmap s' !! k) -> k < i + idx + length rs) /\
    (forall k, is_Some (cmap s' !! k) -> is_Some (cmap s !! k) \/ k ∈ arrivals e) /\
    (forall k c, cmap s' !! k = Some c ->
       cmap s !! k = Some c \/
       exists j r, rs !! j = Some r /\ k = i + idx + j /\ data r = Some c) /\
    quiet e.
Proof.
  induction rs as [|r rs IH]; intros idx s w Hdom.
  - exists s, []. split; [reflexivity|]. split; [reflexivity|].
    do 4 (split; [reflexivity|]).
    split; [intros k Hk; specialize (Hdom k Hk); simpl; lia|].
    split; [auto|]. split; [auto|constructor].
  - cbn [VideoLoader.storeResults].
    assert (exists s' e,
              (log (LogChunkFailed (i + idx + 1)) ;;
               VideoLoader.storeResults i rs (S idx)) (s, w) = (Ok tt, (s', w), e) /\
              cmap s ⊆ cmap s' /\
              hlen s' = hlen s /\ parsed s' = parsed s /\ segs s' = segs s /\
              next s' = next s /\
              (forall k, is_Some (cmap s' !! k) -> k < i + idx + length (r :: rs)) /\
              (forall k, is_Some (cmap s' !! k) -> is_Some (cmap s !! k) \/ k ∈ arrivals e) /\
              (forall k c, cmap s' !! k = Some c ->
                 cmap s !! k = Some c \/
                 exists j r0, (r :: rs) !! j = Some r0 /\ k = i + idx + j /\
                              data r0 = Some c) /\
              quiet e) as Hfail.
    { destruct (IH (S idx) s w) as (s' & e & Hrun & Hsub' & Hh' & Hp' & Hs' & Hn' &
                                    Hdom' & Harr & Hsrc & Hq').
      { intros k Hk. specialize (Hdom k Hk). lia. }
      unfold bind, log, emit. rewrite Hrun.
      exists s', (EvLog (LogChunkFailed (i + idx + 1)) :: e). split; [reflexivity|].
      split; [exact Hsub'|]. do 4 (split; [assumption|]).
      split; [intros k Hk; specialize (Hdom' k Hk); simpl; lia|].
      split; [exact Harr|].
      split; [|constructor; [reflexivity|exact Hq']].
      intros k c Hk. destruct (Hsrc k c Hk) as [H|(j & r0 & Hj & -> & Hd)]; [auto|].
      right. exists (S j), r0. split; [exact Hj|]. split; [lia|exact Hd]. }
    destruct (success r) eqn:Hsucc, (data r) as [d|] eqn:Hdata; try exact Hfail.
    clear Hfail.
    destruct (IH (S idx) (VideoLoader.setChunk (i + idx) d s) w)
      as (s' & e & Hrun & Hsub' & Hh' & Hp' & Hs' & Hn' & Hdom' & Harr & Hsrc & Hq').
    { intros k Hk. simpl in Hk.
      destruct (Nat.eq_dec k (i + idx)) as [->|Hne]; [lia|].
      rewrite lookup_insert_ne in Hk by congruence. specialize (Hdom k Hk). lia. }
    simpl in Hsub', Hh', Hp', Hs', Hn', Harr, Hsrc.
    unfold bind at 1, update. cbn [fst snd]. unfold bind at 1, emit. rewrite Hrun.
    exists s', (EvChunk (i + idx) :: e). split; [reflexivity|].
    split.
    { etransitivity; [|exact Hsub']. apply insert_subseteq.
      destruct (cmap s !! (i + idx)) eqn:Hl; [|reflexivity].
      specialize (Hdom (i + idx) ltac:(eauto)). lia. }
    do 4 (split; [assumption|]).
    split; [intros k Hk; specialize (Hdom' k Hk); simpl; lia|].
    split.
    { intros k Hk. change (arrivals (EvChunk (i + idx) :: e)) with (i + idx :: arrivals e).
      destruct (Harr k Hk) as [Hold|Hnew].
      + destruct (Nat.eq_dec k (i + idx)) as [->|Hne]; [right; left|].
        left. rewrite lookup_insert_ne in Hold by congruence. exact Hold.
      + right. right. exact Hnew. }
    split; [|constructor; [reflexivity|exact Hq']].
    intros k c Hk. destruct (Hsrc k c Hk) as [H|(j & r0 & Hj & -> & Hd)].
    + apply lookup_insert_Some in H as [[<- <-]|[_ H]]; [|auto].
      right. exists 0, r. split; [reflexivity|]. split; [lia|exact Hdata].
    + right. exists (S j), r0. split; [exact Hj|]. split; [lia|exact Hd].
Qed.

(** The parse of the header, run on a steady state: it leaves a steady,
    later state, and throws only where it finds a value that is no array. *)
Lemma tryParseHeader_run s (w : World) :
  steady s -> fromHeader CHUNK_SIZE JSON_parse s ->
  exists o s',
    VideoLoader.tryParseHeader CHUNK_SIZE JSON_parse (s, w) = (o, (s', w), []) /\
    later s s' /\ cmap s' = cmap s /\ next s' = next s /\ steady s' /\
    fromHeader CHUNK_SIZE JSON_parse s' /\
    (o = Ok tt \/ (o = Throw TypeError /\ parsed s' = false)) /\
    (parsed s = false ->
     isSegmentMap (VideoLoader.parseHeaderFromChunks CHUNK_SIZE JSON_parse (cmap s) (hlen s)).2
     = false ->
     parsed s' = false).
Proof.
  intros [Hst Hle] Hfrom. unfold VideoLoader.tryParseHeader, bind at 1, vars. cbn [fst snd].
  destruct (parsed s) eqn:Hp.
  - exists (Ok tt), s. split; [reflexivity|]. split; [apply later_refl|].
    split; [reflexivity|]. split; [reflexivity|]. split; [split; [congruence|exact Hle]|].
    split; [exact Hfrom|]. split; [left; reflexivity|]. discriminate.
  - destruct (Hst eq_refl) as [Hs Hn].
    destruct (VideoLoader.parseHeaderFromChunks CHUNK_SIZE JSON_parse (cmap s) (hlen s))
      as [hl [[sm|[|]]|]] eqn:Hparse; unfold bind, update, ret, throw; cbn [fst snd].
    + eexists (Ok tt), _. split; [reflexivity|].
      split; [split; [reflexivity|congruence]|]. split; [reflexivity|].
      split; [reflexivity|]. split; [split; [discriminate|cbn; lia]|].
      split.
      { intros _. cbn. unfold VideoLoader.parseHeaderFromChunks in Hparse.
        destruct (cmap s !! 0) as [c0|]; [|discriminate].
        destruct (VideoLoader.getUint32 c0) as [h|]; [|discriminate].
        destruct (forallb _ _); [|discriminate].
        injection Hparse as <- Hj. eauto. }
      split; [left; reflexivity|]. intros _ Hno. discriminate.
    + eexists (Throw TypeError), _. split; [reflexivity|].
      split; [split; [reflexivity|cbn; congruence]|]. split; [reflexivity|].
      split; [reflexivity|]. split; [split; [auto|cbn; lia]|].
      split; [intros Hp'; cbn in Hp'; congruence|].
      split; [right; split; [reflexivity|exact Hp]|]. intros _ _. exact Hp.
    + eexists (Ok tt), _. split; [reflexivity|].
      split; [split; [reflexivity|cbn; congruence]|]. split; [reflexivity|].
      split; [reflexivity|]. split; [split; [auto|cbn; lia]|].
      split; [intros Hp'; cbn in Hp'; congruence|].
      split; [left; reflexivity|]. intros _ _. exact Hp.
    + eexists (Ok tt), _. split; [reflexivity|].
      split; [split; [reflexivity|cbn; congruence]|]. split; [reflexivity|].
      split; [reflexivity|]. split; [split; [auto|cbn; lia]|].
      split; [intros Hp'; cbn in Hp'; congruence|].
      split; [left; reflexivity|]. intros _ _. exact Hp.
Qed.

Local Abbreviation batchOf i addrs :=
  (slice i (Nat.min (i + BATCH_SIZE) (length addrs)) addrs).

(** One turn of the batch loop. *)
Local Abbreviation turn i addrs :=
  (try_catch
     (let! results := inWorld (Net.fetchChunksBatch USE_MULTICALL 300 3000
                                 (batchOf i addrs) 2) in
      match results with
      | None => throw TypeError
      | Some rs =>
          VideoLoader.storeResults i rs 0 ;;
          VideoLoader.tryParseHeader CHUNK_SIZE JSON_parse ;;
          let! s := vars in
          (if VideoLoader.segmentsParsed s
           then VideoLoader.appendReady CHUNK_SIZE (length (VideoLoader.adjustedSegments s))
           else ret tt) ;;
          (if Nat.min (i + BATCH_SIZE) (length addrs) <? length addrs
           then sleep 100 else ret tt)
      end)
     (fun _ => log (LogBatchFailed i))).

Lemma streamFrom_step fuel i addrs :
  VideoLoader.streamFrom USE_MULTICALL BATCH_SIZE CHUNK_SIZE JSON_parse (S fuel) i addrs
  = if i <? length addrs
    then (turn i addrs ;;
          VideoLoader.streamFrom USE_MULTICALL BATCH_SIZE CHUNK_SIZE JSON_parse
            fuel (i + BATCH_SIZE) addrs)
    else ret tt.
Proof. reflexivity. Qed.

Lemma batchOf_lookup i (addrs : list Address) j a :
  batchOf i addrs !! j = Some a -> addrs !! (i + j) = Some a.
Proof.
  unfold slice. intros H. apply lookup_take_Some in H as [H _].
  rewrite lookup_drop in H. exact H.
Qed.

(** A turn of the batch loop never throws.  From a steady state it leaves
    a later, steady state; what it hands to [appendSegment] are the next
    segments, complete by then; the chunks it adds are results of the
    batch. *)
Lemma turn_run : aligned ->
  forall i addrs s (w : World) arr,
    steady s -> fromHeader CHUNK_SIZE JSON_parse s ->
    (forall k, is_Some (cmap s !! k) -> k < i) ->
    (forall k, is_Some (cmap s !! k) -> k ∈ arr) ->
    exists s2 w2 e,
      turn i addrs (s, w) = (Ok tt, (s2, w2), e) /\
      later s s2 /\ steady s2 /\ fromHeader CHUNK_SIZE JSON_parse s2 /\
      next s <= next s2 /\
      appended e = seq (next s) (next s2 - next s) /\
      (forall ev, ev ∈ e -> playerEvent ev = true ->
         parsed s2 = true /\ exists j d, ev = EvAppend j d /\ releasable CHUNK_SIZE s2 j d) /\
      (forall sm, (parsed s2 = true -> sm = segs s2) -> timely sm arr e) /\
      (forall k, is_Some (cmap s2 !! k) -> k < i + BATCH_SIZE) /\
      (forall k, is_Some (cmap s2 !! k) -> k ∈ arrivals e ++ arr) /\
      (forall store, consistent store -> consistentSlots store ->
         forall k c, cmap s2 !! k = Some c ->
           cmap s !! k = Some c \/ exists a, addrs !! k = Some a /\ store a = Some c) /\
      (parsed s = false ->
       isSegmentMap
         (VideoLoader.parseHeaderFromChunks CHUNK_SIZE JSON_parse (cmap s2) (hlen s)).2
       = false ->
       parsed s2 = false /\ quiet e).
Proof.
  intros Hal i addrs s w arr Hst Hfrom Hdom Harr.
  set (batch := batchOf i addrs).
  destruct (fetchBatch_total USE_MULTICALL 300 3000 batch 2 w ltac:(lia))
    as (rs & w1 & e1 & Hfetch & Hnet & Hlen).
  specialize (Hlen Hal). pose proof (net_quiet _ Hnet) as Hq1.
  assert (length rs <= BATCH_SIZE) as Hrs.
  { rewrite Hlen. unfold batch, slice. rewrite length_take, length_drop. lia. }
  destruct (storeResults_run i rs 0 s w1)
    as (s1 & e2 & Hstore & Hsub & Hh1 & Hp1 & Hs1 & Hn1 & Hdom1 & Harr1 & Hsrc1 & Hq2).
  { intros k Hk. specialize (Hdom k Hk). lia. }
  assert (steady s1) as Hst1.
  { destruct Hst as [Ha Hb]. split; [rewrite Hp1, Hs1, Hn1; exact Ha|].
    rewrite Hs1, Hn1. exact Hb. }
  assert (fromHeader CHUNK_SIZE JSON_parse s1) as Hfrom1.
  { intros Hp. rewrite Hp1 in Hp. destruct (Hfrom Hp) as (hd & sm & Hj & Heq).
    exists hd, sm. split; [exact Hj|]. rewrite Hs1, Hh1. exact Heq. }
  assert (later s s1) as Hl1.
  { split; [exact Hsub|]. intros Hp. split; [congruence|]. split; assumption. }
  destruct (tryParseHeader_run s1 w1 Hst1 Hfrom1)
    as (o & s0 & Hparse & Hl0 & Hm0 & Hn0 & Hst0 & Hfrom0 & Ho & Hno).
  assert (arrivals e1 = []) as Ha1.
  { clear -Hnet. induction Hnet as [|ev e Hev _ IH]; [reflexivity|].
    destruct ev; try contradiction; exact IH. }
  assert (forall k, is_Some (cmap s1 !! k) -> k ∈ arrivals e2 ++ arr) as Hm_arr.
  { intros k Hk. apply elem_of_app. destruct (Harr1 k Hk) as [H|H]; auto. }
  assert (forall store, consistent store -> consistentSlots store ->
            forall k c, cmap s1 !! k = Some c ->
              cmap s !! k = Some c \/ exists a, addrs !! k = Some a /\ store a = Some c)
    as Hsrc.
  { intros store Hc Hcs k c Hk.
    destruct (Hsrc1 k c Hk) as [H|(j & r & Hj & -> & Hd)]; [auto|]. right.
    pose proof (fetchBatch_consistent USE_MULTICALL 300 3000 store batch 2 w rs w1 e1
                  Hc Hcs Hfetch) as Hf2.
    destruct (Forall2_lookup_r _ _ _ _ _ Hf2 Hj) as (a & Ha & Hstore_a).
    exists a. split; [|apply Hstore_a, Hd].
    replace (i + 0 + j) with (i + j) by lia. apply batchOf_lookup, Ha. }
  unfold try_catch, bind at 1, inWorld. cbn [fst snd]. rewrite Hfetch.
  unfold bind at 1. rewrite Hstore. unfold bind at 1. rewrite Hparse.
  destruct Ho as [-> | [-> Hp0]].
  - (* the header parse returned *)
    assert (exists s2 w2 e3,
               (if parsed s0
                then VideoLoader.appendReady CHUNK_SIZE (length (segs s0))
                else ret tt) (s0, w1) = (Ok tt, (s2, w2), e3) /\
               cmap s2 = cmap s0 /\ hlen s2 = hlen s0 /\ parsed s2 = parsed s0 /\
               segs s2 = segs s0 /\ next s0 <= next s2 /\
               appended e3 = seq (next s0) (next s2 - next s0) /\
               releases s0 e3 /\ (parsed s0 = false -> e3 = []) /\
               steady s2)
      as (s2 & w2 & e3 & Happend & Hm2 & Hh2 & Hp2 & Hs2 & Hn2 & Happ & Hev3 & Hnil3 & Hst2).
    { destruct (parsed s0) eqn:Hp0.
      - destruct (appendReady_run (length (segs s0)) s0 w1)
          as (s2 & w2 & e3 & Hrun & Hm2 & Hh2 & Hp2 & Hs2 & Hn2 & Happ & Hev & Hbound & _).
        exists s2, w2, e3. split; [exact Hrun|]. split; [exact Hm2|]. split; [exact Hh2|].
        split; [congruence|]. split; [exact Hs2|]. split; [exact Hn2|].
        split; [exact Happ|]. split; [exact Hev|]. split; [discriminate|].
        split; [intros Hf; congruence|].
        rewrite Hs2. apply Hbound, Hst0.
      - exists s0, w1, []. split; [reflexivity|]. split; [reflexivity|].
        split; [reflexivity|]. split; [exact Hp0|]. split; [reflexivity|].
        split; [lia|]. rewrite Nat.sub_diag. split; [reflexivity|].
        split; [apply releases_nil|]. split; [reflexivity|exact Hst0]. }
    assert (exists e5, (if Nat.min (i + BATCH_SIZE) (length addrs) <? length addrs
                        then sleep 100 else ret tt) (s2, w2)
                       = (Ok tt, (s2, w2), e5) /\ quiet e5 /\ arrivals e5 = [])
      as (e5 & Hsleep & Hq5 & Ha5).
    { destruct (_ <? _); eexists; (split; [reflexivity|]); split;
        repeat constructor. }
    pose proof (releases_arrivals _ _ Hev3) as Ha3.
    unfold bind at 1, vars. cbn [fst snd]. unfold bind at 1. rewrite Happend, Hsleep.
    assert (later s0 s2) as Hl02.
    { split; [rewrite Hm2; reflexivity|]. intros Hp.
      split; [congruence|]. split; congruence. }
    exists s2, w2, (e1 ++ e2 ++ [] ++ [] ++ e3 ++ e5). split; [reflexivity|].
    simpl.
    split; [eapply later_trans; [exact Hl1|]; eapply later_trans; eassumption|].
    split; [exact Hst2|].
    split.
    { intros Hp. rewrite Hp2 in Hp. destruct (Hfrom0 Hp) as (hd & sm & Hj & Heq).
      exists hd, sm. split; [exact Hj|]. rewrite Hs2, Hh2. exact Heq. }
    split; [lia|].
    split.
    { rewrite !appended_app, (appended_quiet e1 Hq1), (appended_quiet e2 Hq2),
        (appended_quiet e5 Hq5), Happ, app_nil_r. simpl. rewrite Hn0, Hn1. reflexivity. }
    split.
    { intros ev Hin Hplayer.
      rewrite !elem_of_app in Hin. destruct Hin as [Hin|[Hin|[Hin|Hin]]].
      + destruct (quiet_no_player e1 ev Hq1 Hin Hplayer).
      + destruct (quiet_no_player e2 ev Hq2 Hin Hplayer).
      + assert (parsed s0 = true) as Hp0.
        { destruct (parsed s0) eqn:E; [reflexivity|].
          rewrite (Hnil3 eq_refl) in Hin. inversion Hin. }
        split; [congruence|].
        destruct (releases_player _ _ _ Hev3 Hin Hplayer) as (j & d & -> & Hrel).
        exists j, d. split; [reflexivity|]. apply (releasable_same s0 s2); auto.
      + destruct (quiet_no_player e5 ev Hq5 Hin Hplayer). }
    split.
    { intros sm Hsm.
      apply timely_app; [apply timely_quiet, Hq1|]. rewrite Ha1. simpl.
      apply timely_app; [apply timely_quiet, Hq2|].
      apply timely_app; [|apply timely_quiet, Hq5].
      destruct (parsed s0) eqn:Hp0.
      - rewrite (Hsm ltac:(congruence)), Hs2. apply (timely_releases s0); [exact Hev3|].
        intros k Hk. rewrite Hm0 in Hk. apply Hm_arr, Hk.
      - rewrite (Hnil3 eq_refl). exact I. }
    split.
    { intros k Hk. rewrite Hm2, Hm0 in Hk. specialize (Hdom1 k Hk). lia. }
    split.
    { intros k Hk. rewrite Hm2, Hm0 in Hk.
      rewrite !arrivals_app, Ha1, Ha3, Ha5. simpl. rewrite app_nil_r.
      apply Hm_arr, Hk. }
    split.
    { intros store Hc Hcs k c Hk. rewrite Hm2, Hm0 in Hk. eapply Hsrc; eassumption. }
    intros Hp Hmap. rewrite Hm2, Hm0 in Hmap. rewrite <- Hh1 in Hmap.
    assert (parsed s0 = false) as Hp0 by (apply Hno; [congruence|exact Hmap]).
    split; [congruence|]. rewrite (Hnil3 Hp0).
    repeat (apply Forall_app; split); auto.
  - (* the header is no array: the batch is logged as failed *)
    unfold log, emit. cbn [fst snd].
    exists s0, w1, ((e1 ++ e2 ++ []) ++ [EvLog (LogBatchFailed i)]).
    split; [reflexivity|].
    assert (quiet ((e1 ++ e2 ++ []) ++ [EvLog (LogBatchFailed i)])) as Hq.
    { repeat (apply Forall_app; split); auto; repeat constructor. }
    split; [eapply later_trans; eassumption|].
    split; [exact Hst0|]. split; [exact Hfrom0|].
    split; [lia|].
    split.
    { rewrite (appended_quiet _ Hq). replace (next s0 - next s) with 0 by lia.
      reflexivity. }
    split; [intros ev Hin Hplayer; destruct (quiet_no_player _ ev Hq Hin Hplayer)|].
    split; [intros sm _; apply timely_quiet, Hq|].
    split; [intros k Hk; rewrite Hm0 in Hk; specialize (Hdom1 k Hk); lia|].
    split.
    { intros k Hk. rewrite Hm0 in Hk.
      rewrite !arrivals_app, Ha1. simpl. rewrite app_nil_r.
      rewrite <- app_assoc. simpl. apply Hm_arr, Hk. }
    split.
    { intros store Hc Hcs k c Hk. rewrite Hm0 in Hk. eapply Hsrc; eassumption. }
    intros _ _. split; [exact Hp0|exact Hq].
Qed.


(** While the header of the content is no segment map, the batch loop only
    stores chunks. *)
Lemma streamFrom_unparsed (store : Address -> option bytes) (allChunks : list bytes) hl :
  consistent store -> consistentSlots store ->
  4 <= CHUNK_SIZE ->
  (forall i c, S i < length allChunks -> allChunks !! i = Some c ->
               length c = CHUNK_SIZE) ->
  VideoLoader.getUint32 (concat allChunks) = Some hl ->
  4 + hl <= length (concat allChunks) ->
  isSegmentMap (JSON_parse (slice 4 (4 + hl) (concat allChunks))) = false ->
  forall fuel i addrs s (w : World),
    Forall2 (fun a c => store a = Some c) addrs allChunks ->
    steady s -> parsed s = false ->
    (forall k, is_Some (cmap s !! k) -> k < i) ->
    (forall k c, cmap s !! k = Some c -> allChunks !! k = Some c) ->
    exists s' w' e,
      VideoLoader.streamFrom USE_MULTICALL BATCH_SIZE CHUNK_SIZE JSON_parse
        fuel i addrs (s, w) = (Ok tt, (s', w'), e) /\
      parsed s' = false /\ steady s' /\ quiet e.
Proof.
  intros Hc Hcs H4 Hreg Hhl Hfit Hno.
  pose proof (consistentSlots_aligned store Hcs) as Hal.
  induction fuel as [|fuel IH]; intros i addrs s w Hdeployed Hst Hp Hdom Hcontent.
  - exists s, w, []. split; [reflexivity|]. split; [exact Hp|]. split; [exact Hst|constructor].
  - rewrite streamFrom_step. destruct (i <? length addrs).
    2:{ exists s, w, []. split; [reflexivity|]. split; [exact Hp|].
        split; [exact Hst|constructor]. }
    assert (fromHeader CHUNK_SIZE JSON_parse s) as Hfrom by (intros Hp'; congruence).
    destruct (turn_run Hal i addrs s w (seq 0 i) Hst Hfrom Hdom)
      as (s2 & w2 & eT & Hturn & Hl2 & Hst2 & Hfrom2 & _ & _ & _ & _ &
          Hdom2 & _ & Hsrc & Hstay).
    { intros k Hk. apply elem_of_seq. specialize (Hdom k Hk). lia. }
    assert (forall k c, cmap s2 !! k = Some c -> allChunks !! k = Some c) as Hcontent2.
    { intros k c Hk. destruct (Hsrc store Hc Hcs k c Hk) as [H|(a & Ha & Hsa)]; [auto|].
      destruct (Forall2_lookup_l _ _ _ _ _ Hdeployed Ha) as (c' & Hc' & Hsa').
      congruence. }
    destruct (Hstay Hp) as [Hp2 Hq2].
    { destruct (VideoLoader.parseHeaderFromChunks CHUNK_SIZE JSON_parse (cmap s2) (hlen s)).2
        as [j|] eqn:Hj; [|reflexivity].
      rewrite <- (parseHeader_some CHUNK_SIZE JSON_parse allChunks (cmap s2) hl (hlen s) j
                    H4 Hreg Hcontent2 Hhl Hfit Hj).
      exact Hno. }
    destruct (IH (i + BATCH_SIZE) addrs s2 w2 Hdeployed Hst2 Hp2 Hdom2 Hcontent2)
      as (s' & w' & eR & Hrest & Hp' & Hst' & Hq').
    unfold bind at 1. rewrite Hturn, Hrest.
    exists s', w', (eT ++ eR). split; [reflexivity|]. split; [exact Hp'|].
    split; [exact Hst'|]. apply Forall_app. split; assumption.
Qed.

End StreamFacts.

Section StreamProperties.
Context {World : Type} `{RR : RemoteReader World} `{MP : MediaPlayer World}.
Variable USE_MULTICALL : bool.
Variable BATCH_SIZE : nat.
Variable CHUNK_SIZE : nat.
Variable JSON_parse : bytes -> option VideoLoader.Json.

Local Abbreviation stream :=
  (VideoLoader.streamVideoWithSegments USE_MULTICALL BATCH_SIZE CHUNK_SIZE JSON_parse).

(** [streamVideoWithSegments] with an open media source, in terms of its
    batch loop and of its last release loop. *)
Lemma stream_open root depth total (w : World) lvs w1 e1 s2 w2 e2 s3 w3 e3 :
  VideoLoader.collectLeafAddresses root depth w = (Ok lvs, w1, e1) ->
  VideoLoader.streamFrom USE_MULTICALL BATCH_SIZE CHUNK_SIZE JSON_parse
    (length lvs) 0 lvs (VideoLoader.freshStream, w1) = (Ok tt, (s2, w2), e2) ->
  VideoLoader.appendReady CHUNK_SIZE (length (VideoLoader.adjustedSegments s2)) (s2, w2)
  = (Ok tt, (s3, w3), e3) ->
  stream true root depth total w
  = (Ok s3, w3, (e1 ++ e2 ++ e3) ++ (if readyStateOpen w3 then [EvEndOfStream] else [])).
Proof.
  intros Hcol Hloop Hlast.
  unfold VideoLoader.streamVideoWithSegments, bind at 1. rewrite Hcol.
  unfold bind at 1, VideoLoader.setupMediaSource, ret at 1.
  unfold withVars, bind at 1. rewrite Hloop.
  unfold bind at 1, vars. cbn [fst snd]. unfold bind at 1. rewrite Hlast.
  unfold bind, inWorld, VideoLoader.endStream. cbn [fst snd].
  destruct (readyStateOpen w3); simpl; rewrite <- ?app_assoc; simpl;
    rewrite ?app_nil_r; reflexivity.
Qed.



(** C8, what the code does.  A header that is no segment map does not make
    the streaming path fail, and so does not bring the fallback.  Let the
    leaves of the walk hold the chunks of a content, every chunk but possibly
    the last of [CHUNK_SIZE] bytes; let the first four bytes of the content
    give a header length [hl], the content be long enough to hold the header,
    and the bytes [4, 4 + hl) of the content not parse to an array:
    [JSON.parse] rejects them, or makes of them a value that is no array.
    Then, over a reader consistent with the leaves, for a positive batch size
    and once the media source is open, the streaming path stores the chunks
    that load, hands no segment to [appendSegment], ends the stream if the
    media source is still open and returns normally; nothing having been
    thrown, [init] does not run [fallbackLoad]: the player gets an empty
    stream and no blob. *)
Theorem unparsed_header_plays_nothing (store : Address -> option bytes)
    (allChunks : list bytes) hl root depth total w lvs w1 e1 :
  consistent store -> consistentSlots store ->
  0 < BATCH_SIZE -> 4 <= CHUNK_SIZE ->
  VideoLoader.collectLeafAddresses root depth w = (Ok lvs, w1, e1) ->
  Forall2 (fun a c => store a = Some c) lvs allChunks ->
  (forall i c, S i < length allChunks -> allChunks !! i = Some c ->
               length c = CHUNK_SIZE) ->
  VideoLoader.getUint32 (concat allChunks) = Some hl ->
  4 + hl <= length (concat allChunks) ->
  isSegmentMap (JSON_parse (slice 4 (4 + hl) (concat allChunks))) = false ->
  exists s w' e,
    stream true root depth total w
    = (Ok s, w', e ++ (if readyStateOpen w' then [EvEndOfStream] else [])) /\
    VideoLoader.segmentsParsed s = false /\
    Forall (fun ev => playerEvent ev = false) e /\
    VideoLoader.init USE_MULTICALL BATCH_SIZE CHUNK_SIZE JSON_parse true
      false true root depth total w
    = (Ok tt, w', e ++ (if readyStateOpen w' then [EvEndOfStream] else [])).
Proof.
  intros Hc Hcs _ H4 Hcol Hdeployed Hreg Hhl Hfit Hno.
  assert (Forall (fun ev => playerEvent ev = false) e1) as Hq1.
  { pose proof (vtraverse_quiet depth root [] w) as H.
    unfold VideoLoader.collectLeafAddresses in Hcol. rewrite Hcol in H. exact H. }
  destruct (streamFrom_unparsed USE_MULTICALL BATCH_SIZE CHUNK_SIZE JSON_parse
              store allChunks hl Hc Hcs H4 Hreg Hhl Hfit Hno
              (length lvs) 0 lvs VideoLoader.freshStream w1 Hdeployed)
    as (s & w2 & e2 & Hrun & Hp & Hst & Hq2).
  { split; [auto|]. simpl. lia. }
  { reflexivity. }
  { intros k Hk. simpl in Hk. rewrite lookup_empty in Hk. destruct Hk. discriminate. }
  { intros k c Hk. simpl in Hk. rewrite lookup_empty in Hk. discriminate. }
  destruct Hst as [Hst _]. destruct (Hst Hp) as [Hs Hn].
  assert (VideoLoader.appendReady CHUNK_SIZE (length (VideoLoader.adjustedSegments s)) (s, w2)
          = (Ok tt, (s, w2), [])) as Hlast by (rewrite Hs; reflexivity).
  pose proof (stream_open root depth total w lvs w1 e1 s w2 e2 s w2 [] Hcol Hrun Hlast)
    as Hstream.
  rewrite app_nil_r in Hstream.
  exists s, w2, (e1 ++ e2). split; [exact Hstream|]. split; [exact Hp|].
  split; [apply Forall_app; split; assumption|].
  unfold VideoLoader.init, try_catch, bind. rewrite Hstream. simpl.
  rewrite app_nil_r. reflexivity.
Qed.

(** When the media source does not open, the streaming path throws after
    its walk of the tree, and [init] plays the video all the same: it
    catches the error and runs [fallbackLoad], which walks the tree a second
    time and, for a positive batch size and whatever fails afterwards, hands
    the player one blob, the only thing the player gets. *)
Theorem media_source_failure_falls_back root depth total w lvs w1 e1 lvs' w2 e2 :
  0 < BATCH_SIZE ->
  VideoLoader.collectLeafAddresses root depth w = (Ok lvs, w1, e1) ->
  VideoLoader.collectLeafAddresses root depth w1 = (Ok lvs', w2, e2) ->
  stream false root depth total w = (Throw MediaSourceError, w1, e1) /\
  exists blob w' e,
    VideoLoader.init USE_MULTICALL BATCH_SIZE CHUNK_SIZE JSON_parse false
      false true root depth total w
    = (Ok tt, w', e1 ++ e2 ++ e ++ [EvBlob blob]) /\
    Forall (fun ev => playerEvent ev = false) (e1 ++ e2 ++ e).
Proof.
  intros _ Hcol Hcol'.
  assert (stream false root depth total w = (Throw MediaSourceError, w1, e1)) as Hstream.
  { unfold VideoLoader.streamVideoWithSegments, bind at 1. rewrite Hcol.
    unfold bind, VideoLoader.setupMediaSource, throw. simpl.
    rewrite app_nil_r. reflexivity. }
  split; [exact Hstream|].
  destruct (fallbackLoad_returns (fun _ => None) USE_MULTICALL BATCH_SIZE
              root depth total w1 lvs' w2 e2 Hcol')
    as (cs & w' & e & Hrun & Hq & _).
  exists (VideoLoader.stripHeader (concat (omap id cs))), w', e.
  assert (Forall (fun ev => playerEvent ev = false) e1) as Hq1.
  { pose proof (vtraverse_quiet depth root [] w) as H.
    unfold VideoLoader.collectLeafAddresses in Hcol. rewrite Hcol in H. exact H. }
  split.
  - unfold VideoLoader.init, try_catch, bind at 1. rewrite Hstream. simpl.
    rewrite Hrun. simpl. rewrite ?app_nil_r. reflexivity.
  - apply Forall_app. split; assumption.
Qed.

End StreamProperties.

(** ** Runs of the streaming path *)
Section StreamRuns.
Import Sim Scenario Media.


(** In that run the first batch brings the header and the first segment,
    which is released at once; the second segment waits for the chunk it
    ends in. *)
Example stream_two_segments :
  events (VideoLoader.streamVideoWithSegments (RR := browserReader videoPages)
            (MP := willing) true 3 32 parseExample true root 1 97 tab)
  = [ EvRead root;
      EvAggregate [leaf0; leaf1; leaf2]; EvChunk 0; EvChunk 1; EvChunk 2;
      EvAppend 0 [x61; x62; x63]; EvSleep 100;
      EvAggregate [leaf3]; EvChunk 3;
      EvAppend 1 [x64; x65; x66; x67];
      EvEndOfStream ].
Proof. vm_compute. reflexivity. Qed.


(** A media source that refuses the first segment and closes: the refusal
    is logged, the second segment is handed over all the same, the stream is
    not ended, and the function returns normally. *)
Example refused_segment_is_skipped :
  outcome (VideoLoader.streamVideoWithSegments (RR := browserReader videoPages)
             (MP := refusing) true 3 32 parseExample true root 1 97 tab) <> Throw DOMException /\
  events (VideoLoader.streamVideoWithSegments (RR := browserReader videoPages)
            (MP := refusing) true 3 32 parseExample true root 1 97 tab)
  = [ EvRead root;
      EvAggregate [leaf0; leaf1; leaf2]; EvChunk 0; EvChunk 1; EvChunk 2;
      EvAppend 0 [x61; x62; x63]; EvLog LogAppendFailed; EvSleep 100;
      EvAggregate [leaf3]; EvChunk 3;
      EvAppend 1 [x64; x65; x66; x67] ].
Proof. split; [vm_compute; discriminate|vm_compute; reflexivity]. Qed.

Lemma unparsed_header_plays_nothing_witness :
  exists s w' e,
    VideoLoader.streamVideoWithSegments (RR := browserReader noJsonPages) (MP := willing)
      true 3 4 parseExample true root 1 13 tab
    = (Ok s, w', e ++ (if readyStateOpen (MediaPlayer := willing) w'
                       then [EvEndOfStream] else [])) /\
    VideoLoader.segmentsParsed s = false /\
    Forall (fun ev => playerEvent ev = false) e /\
    VideoLoader.init (RR := browserReader noJsonPages) (MP := willing)
      true 3 4 parseExample true false true root 1 13 tab
    = (Ok tt, w', e ++ (if readyStateOpen (MediaPlayer := willing) w'
                        then [EvEndOfStream] else [])).
Proof.
  apply (unparsed_header_plays_nothing (RR := browserReader noJsonPages) (MP := willing)
           true 3 4 parseExample (Sim.store noJsonPages) noJsonChunks 2
           root 1 13 tab [leaf0; leaf1; leaf2; leaf3] tab [EvRead root]).
  - apply browser_consistent.
  - apply browser_consistentSlots.
  - lia.
  - lia.
  - vm_compute. reflexivity.
  - repeat constructor.
  - intros i c Hi Hc. destruct i as [|[|[|i]]]; simpl in *; try lia;
      injection Hc as <-; reflexivity.
  - reflexivity.
  - simpl. lia.
  - reflexivity.
Defined.

(** In that run [JSON.parse] throws at each batch; the chunks are stored
    and nothing is played. *)
Example stream_without_segment_map :
  events (VideoLoader.streamVideoWithSegments (RR := browserReader noJsonPages)
            (MP := willing) true 3 4 parseExample true root 1 13 tab)
  = [ EvRead root;
      EvAggregate [leaf0; leaf1; leaf2]; EvChunk 0; EvChunk 1; EvChunk 2; EvSleep 100;
      EvAggregate [leaf3]; EvChunk 3;
      EvEndOfStream ].
Proof. vm_compute. reflexivity. Qed.

(** A header that parses to an object: [adjustSegmentOffsets] throws at
    each batch, after the chunks are stored; the batch is logged as failed,
    its pause is skipped, and nothing is played. *)
Example stream_with_object_header :
  events (VideoLoader.init (RR := browserReader objectPages) (MP := willing)
            true 3 4 parseExample true false true root 1 13 tab)
  = [ EvRead root;
      EvAggregate [leaf0; leaf1; leaf2]; EvChunk 0; EvChunk 1; EvChunk 2;
      EvLog (LogBatchFailed 0);
      EvAggregate [leaf3]; EvChunk 3;
      EvLog (LogBatchFailed 3);
      EvEndOfStream ].
Proof. vm_compute. reflexivity. Qed.

(** A raw MP4 file is played in raw mode, as one blob; in streaming mode
    its first bytes are taken for a header that does not parse, and nothing
    is played. *)
Example raw_video_needs_raw_mode :
  events (VideoLoader.init (RR := browserReader rawPages) (MP := willing)
            true 3 4 parseExample true true true root 1 13 tab)
  = [ EvRead root;
      EvAggregate [leaf0; leaf1; leaf2]; EvSleep 100; EvAggregate [leaf3];
      EvBlob (concat rawChunks) ] /\
  events (VideoLoader.init (RR := browserReader rawPages) (MP := willing)
            true 3 4 parseExample true false true root 1 13 tab)
  = [ EvRead root;
      EvAggregate [leaf0; leaf1; leaf2]; EvChunk 0; EvChunk 1; EvChunk 2; EvSleep 100;
      EvAggregate [leaf3]; EvChunk 3;
      EvEndOfStream ].
Proof. split; vm_compute; reflexivity. Qed.

Lemma media_source_failure_falls_back_witness :
  VideoLoader.streamVideoWithSegments (RR := browserReader videoPages) (MP := willing)
    true 3 32 parseExample false root 1 97 tab = (Throw MediaSourceError, tab, [EvRead root]) /\
  exists blob w' e,
    VideoLoader.init (RR := browserReader videoPages) (MP := willing)
      true 3 32 parseExample false false true root 1 97 tab
    = (Ok tt, w', [EvRead root] ++ [EvRead root] ++ e ++ [EvBlob blob]) /\
    Forall (fun ev => playerEvent ev = false) ([EvRead root] ++ [EvRead root] ++ e).
Proof.
  apply (media_source_failure_falls_back (RR := browserReader videoPages) (MP := willing)
           true 3 32 parseExample
           root 1 97 tab [leaf0; leaf1; leaf2; leaf3] tab [EvRead root]
           [leaf0; leaf1; leaf2; leaf3] tab [EvRead root]).
  - lia.
  - vm_compute. reflexivity.
  - vm_compute. reflexivity.
Defined.

End StreamRuns.

(** ** The three walks of the tree *)
Section WalkFacts.
Context {World : Type} `{RR : RemoteReader World}.










End WalkFacts.
